(** * 2048: the line resolver, the board and the tile spawner

    A shallow embedding of [game/utils.py] ([combine_line] and the colour
    tables), [game/board.py] ([Board]), [ai/spawner.py] ([AISpawner]) and
    the assignment by which [main.py] goes on after a win, the properties
    of the specification checked against it, and further properties of the
    code.

    Conventions.
    - Grid cells are numpy [int64] values: they are modelled as [Z] and every
      arithmetic operation numpy performs on them is followed by [Int64.wrap].
    - A one-dimensional array is a [list Z]; the grid is the list of its rows.
    - Python exceptions are the [Raise] results of the [result] type.
    - [copy.deepcopy] is the identity: values are immutable here, so a copy
      can never alias the board it was taken from.
    - Console output ([print]) is not part of the state and is left out. *)

From Stdlib Require Import ZArith List Bool Lia String Ascii.
From Stdlib Require PrimFloat SpecFloat FloatOps FloatAxioms.
From Stdlib Require DecimalString DecimalZ DecimalPos.
From stdpp Require Import base list gmap.

Open Scope Z_scope.
Open Scope list_scope.

(* ================================================================== *)
(** ** 64-bit signed integers (numpy's [int64]) *)

Module Int64.

Definition min_signed : Z := - 2 ^ 63.
Definition max_signed : Z := 2 ^ 63 - 1.

Definition in_range (z : Z) : Prop := min_signed <= z <= max_signed.

(** Two's complement wrap-around of an integer result. *)
Definition wrap (z : Z) : Z := (z + 2 ^ 63) mod 2 ^ 64 - 2 ^ 63.

Definition add (a b : Z) : Z := wrap (a + b).
Definition sub (a b : Z) : Z := wrap (a - b).
Definition mul (a b : Z) : Z := wrap (a * b).

End Int64.

(** Sum of the values of a line, as a mathematical integer. *)
Definition line_sum (l : list Z) : Z := fold_right Z.add 0 l.

(** [np.sum] of an [int64] array: the same sum, wrapped. *)
Definition np_sum (l : list Z) : Z := Int64.wrap (line_sum l).

(* ================================================================== *)
(** ** [game/utils.py]: [combine_line] *)

(** [line[line != 0]] *)
Definition non_zero_of (line : list Z) : list Z :=
  List.filter (fun v => negb (v =? 0)) line.

(** The [while i < len(non_zero)] loop.  [fuel] bounds the number of
    iterations; [combine_line] supplies [len(non_zero)], which is enough
    since [i] grows at every iteration ([combine_loop_fuel] below).
    [non_zero[i]] is read under the guard [i < len(non_zero)], so the
    default of [nth] is never returned. *)
Fixpoint combine_loop (fuel : nat) (non_zero : list Z) (i : nat)
    (new_line_list : list Z) (score_gained : Z) : list Z * Z :=
  match fuel with
  | O => (new_line_list, score_gained)
  | S fuel' =>
      if (i <? length non_zero)%nat then
        if ((i + 1 <? length non_zero)%nat
            && (nth i non_zero 0 =? nth (i + 1) non_zero 0))%bool
        then
          let merged_value := Int64.mul (nth i non_zero 0) 2 in
          combine_loop fuel' non_zero (i + 2)
            (new_line_list ++ [merged_value])
            (Int64.add score_gained merged_value)
        else
          combine_loop fuel' non_zero (i + 1)
            (new_line_list ++ [nth i non_zero 0]) score_gained
      else (new_line_list, score_gained)
  end.

(** [new_line_padded = np.zeros_like(line); new_line_padded[:len(l)] = l] *)
Definition pad_line (line new_line_list : list Z) : list Z :=
  new_line_list ++ repeat 0 (length line - length new_line_list).

Definition combine_line (line : list Z) : list Z * Z :=
  let non_zero := non_zero_of line in
  let '(new_line_list, score_gained) :=
    combine_loop (length non_zero) non_zero 0 [] 0 in
  (pad_line line new_line_list, score_gained).

(** *** The resolver as the specification words it (section 4.1)

    "Scan left to right; if the current value equals the next unconsumed
    value, replace both with their sum, add the sum to scoreGained, advance
    two positions; otherwise keep the value and advance one position."
    Sums are [int64] sums. *)
Fixpoint resolve_scan (values : list Z) : list Z * Z :=
  match values with
  | [] => ([], 0)
  | x :: tl =>
      match tl with
      | y :: rest =>
          if x =? y then
            let '(out, gained) := resolve_scan rest in
            (Int64.add x y :: out, Int64.add (Int64.add x y) gained)
          else
            let '(out, gained) := resolve_scan tl in (x :: out, gained)
      | [] => ([x], 0)
      end
  end.

Definition resolve (line : list Z) : list Z * Z :=
  let '(out, gained) := resolve_scan (non_zero_of line) in
  (out ++ repeat 0 (length line - length out), gained).

(* ================================================================== *)
(** ** [game/utils.py]: the colours of the tiles *)

(** A colour: red, green, blue. *)
Definition rgb : Type := Z * Z * Z.

(** [TILE_COLORS] *)
Definition TILE_COLORS : gmap Z rgb :=
  <[0 := (205, 193, 180)]> (
  <[2 := (238, 228, 218)]> (
  <[4 := (237, 224, 200)]> (
  <[8 := (242, 177, 121)]> (
  <[16 := (245, 149, 99)]> (
  <[32 := (246, 124, 95)]> (
  <[64 := (246, 94, 59)]> (
  <[128 := (237, 207, 114)]> (
  <[256 := (237, 204, 97)]> (
  <[512 := (237, 200, 80)]> (
  <[1024 := (237, 197, 63)]> (
  <[2048 := (237, 194, 46)]> ∅))))))))))).

(** [TILE_TEXT_COLORS['light']] and [TILE_TEXT_COLORS['dark']] *)
Definition TILE_TEXT_COLORS_light : rgb := (119, 110, 101).
Definition TILE_TEXT_COLORS_dark : rgb := (249, 246, 242).

(** [d.get(key, default)] *)
Definition dict_get (d : gmap Z rgb) (key : Z) (default : rgb) : rgb :=
  match d !! key with
  | Some v => v
  | None => default
  end.

(** [get_rgb]: the legacy function, with its own table. *)
Definition get_rgb (val : Z) : rgb * rgb :=
  let dic_background : gmap Z rgb :=
    <[2 := (205, 193, 180)]> (
    <[4 := (238, 228, 218)]> (
    <[8 := (242, 177, 121)]> (
    <[16 := (245, 149, 99)]> (
    <[32 := (246, 124, 95)]> (
    <[64 := (246, 94, 59)]> (
    <[128 := (237, 207, 114)]> (
    <[256 := (237, 204, 97)]> (
    <[512 := (237, 200, 80)]> (
    <[1024 := (237, 197, 63)]> (
    <[2048 := (237, 194, 46)]> ∅)))))))))) in
  let font :=
    if existsb (Z.eqb val) [2; 4] then (119, 110, 101) else (249, 246, 242) in
  (dict_get dic_background val (60, 58, 50), font).

Definition get_tile_color (value : Z) : rgb :=
  dict_get TILE_COLORS value (60, 58, 50).

Definition get_tile_text_color (value : Z) : rgb :=
  if value <=? 4 then TILE_TEXT_COLORS_light else TILE_TEXT_COLORS_dark.

(* ================================================================== *)
(** ** Python exceptions *)

Inductive exn : Type :=
| IndexError
| ValueError
| FileNotFoundError.

Inductive result (A : Type) : Type :=
| Ok (a : A)
| Raise (e : exn).

Arguments Ok {A} a.
Arguments Raise {A} e.

#[global] Instance result_ret : MRet result := fun A a => Ok a.

#[global] Instance result_bind : MBind result := fun A B k m =>
  match m with
  | Ok a => k a
  | Raise e => Raise e
  end.

(* ================================================================== *)
(** ** Two-dimensional arrays *)

(** A grid is the list of its rows; numpy arrays are rectangular. *)
Abbreviation grid := (list (list Z)) (only parsing).

(** [np.zeros((size, size), dtype=int)] *)
Definition np_zeros (rows cols : nat) : grid := repeat (repeat 0 cols) rows.

(** [np.zeros_like(g, dtype=int)] *)
Definition zeros_like (g : grid) : grid :=
  map (fun row => repeat 0 (length row)) g.

(** [g.shape[1]] *)
Definition ncols (g : grid) : nat := length (hd [] g).

(** [g.T]: entry [(j, i)] of the transpose is entry [(i, j)] of [g]. *)
Definition transpose (g : grid) : grid :=
  map (fun j => map (fun row => nth j row 0) g) (seq 0 (ncols g)).

(** All the cells, row by row (C order). *)
Definition flatten (g : grid) : list Z := concat g.

(** The largest value of a list ([0] for the empty list, where numpy
    refuses to answer). *)
Definition max_of (l : list Z) : Z :=
  match l with
  | [] => 0
  | x :: xs => fold_left Z.max xs x
  end.

(** [g.max()], [np.max(g)]: numpy raises [ValueError] on an array with no
    element. *)
Definition np_max (g : grid) : result Z :=
  match flatten g with
  | [] => Raise ValueError
  | _ :: _ => Ok (max_of (flatten g))
  end.

(** [g[row, col] = value] for non-negative indices; numpy raises
    [IndexError] when an index is out of bounds. *)
Definition set_cell (g : grid) (row col : nat) (value : Z) : result grid :=
  match g !! row with
  | None => Raise IndexError
  | Some line =>
      if (col <? length line)%nat
      then Ok (<[row := <[col := value]> line]> g)
      else Raise IndexError
  end.

(** [g[row, col]], [0] standing for a read that numpy would refuse. *)
Definition cell (g : grid) (row col : nat) : Z := nth col (nth row g []) 0.

(** The pairs that zipping [np.where(g == 0)] gives: the empty cells in
    row-major order. *)
Definition where_zero_row (row : nat) (line : list Z) : list (nat * nat) :=
  map (fun col => (row, col))
      (List.filter (fun col => nth col line 0 =? 0) (seq 0 (length line))).

Definition where_zero (g : grid) : list (nat * nat) :=
  concat (imap where_zero_row g).

(* ================================================================== *)
(** ** [ai/spawner.py]: the spawner's configuration *)

(** [search_depth] is documented as 2 to 3; it is a natural number here. *)
Record AISpawner : Type := {
  sp_difficulty : string;
  search_depth : nat;
  debug : bool
}.

(** [str.lower()] on the ASCII letters. *)
Definition ascii_lower (c : ascii) : ascii :=
  let n := nat_of_ascii c in
  if ((65 <=? n) && (n <=? 90))%nat then ascii_of_nat (n + 32) else c.

Fixpoint lower (s : string) : string :=
  match s with
  | EmptyString => EmptyString
  | String c s' => String (ascii_lower c) (lower s')
  end.

(** [AISpawner.__init__]: note that the test for hard mode reads the
    argument as given, while the stored difficulty is lower-cased. *)
Definition AISpawner_init (difficulty : string) (search_depth : nat)
    (debug : bool) : AISpawner :=
  {| sp_difficulty := lower difficulty;
     search_depth := if String.eqb difficulty "hard" then 3%nat
                     else search_depth;
     debug := debug |}.

(* ================================================================== *)
(** ** [game/board.py]: the board *)

Record Board : Type := {
  size : nat;
  _grid : grid;
  _score : Z;
  _high_tile : Z;
  _game_over : bool;
  _won : bool;
  _highscore : Z;
  difficulty : string;
  ai_spawner : AISpawner
}.

(** [direction in names] *)
Definition str_in (direction : string) (names : list string) : bool :=
  existsb (String.eqb direction) names.

(** The body of [for i in range(self.size)] in [Board.move], run for the
    indices [i, i+1, ..., i+n-1].  [flip] is
    [direction in ['right', 'down']]. *)
Fixpoint move_loop (n i : nat) (flip : bool) (grid_to_process new_grid : grid)
    (total_score_gained : Z) : result (grid * Z) :=
  match n with
  | O => Ok (new_grid, total_score_gained)
  | S n' =>
      match grid_to_process !! i with
      | None => Raise IndexError
      | Some line_to_process =>
          let line_to_process :=
            if flip then rev line_to_process else line_to_process in
          let '(new_line, score_gained) := combine_line line_to_process in
          let total_score_gained :=
            Int64.add total_score_gained score_gained in
          let new_line := if flip then rev new_line else new_line in
          move_loop n' (S i) flip grid_to_process
            (<[i := new_line]> new_grid) total_score_gained
      end
  end.

Definition move (direction : string) (self : Board) : result (bool * Board) :=
  if negb (str_in direction ["up"; "down"; "left"; "right"]%string)
  then Ok (false, self)
  else
    let original_grid := _grid self in
    let vertical := str_in direction ["up"; "down"]%string in
    let flip := str_in direction ["right"; "down"]%string in
    let grid_to_process :=
      if vertical then transpose (_grid self) else _grid self in
    match move_loop (size self) 0 flip grid_to_process
            (zeros_like grid_to_process) 0 with
    | Raise e => Raise e
    | Ok (new_grid, total_score_gained) =>
        let new_grid := if vertical then transpose new_grid else new_grid in
        if decide (new_grid = original_grid) then Ok (false, self)
        else
          let score := Int64.add (_score self) total_score_gained in
          match np_max new_grid with
          | Raise e => Raise e
          | Ok high_tile =>
              Ok (true,
                  {| size := size self;
                     _grid := new_grid;
                     _score := score;
                     _high_tile := high_tile;
                     _game_over := _game_over self;
                     _won := if ((2048 <=? high_tile) && negb (_won self))%bool
                             then true else _won self;
                     _highscore := Z.max score (_highscore self);
                     difficulty := difficulty self;
                     ai_spawner := ai_spawner self |})
          end
    end.

(** A board whose grid is replaced: what [board._grid[row, col] = value]
    leaves of a board once the new grid is known. *)
Definition with_grid (board : Board) (g : grid) : Board :=
  {| size := size board;
     _grid := g;
     _score := _score board;
     _high_tile := _high_tile board;
     _game_over := _game_over board;
     _won := _won board;
     _highscore := _highscore board;
     difficulty := difficulty board;
     ai_spawner := ai_spawner board |}.

(** [self._highscore = value] *)
Definition with_highscore (self : Board) (value : Z) : Board :=
  {| size := size self;
     _grid := _grid self;
     _score := _score self;
     _high_tile := _high_tile self;
     _game_over := _game_over self;
     _won := _won self;
     _highscore := value;
     difficulty := difficulty self;
     ai_spawner := ai_spawner self |}.

(** [board._grid[row, col] = value] *)
Definition place (board : Board) (row col : nat) (value : Z) : result Board :=
  g ← set_cell (_grid board) row col value; Ok (with_grid board g).

(* ================================================================== *)
(** ** Floating-point arithmetic, as an interface

    The spawner computes its scores in binary64.  The operations it uses
    are collected in a class: what does not depend on rounding is proved
    for every instance, and the definitions are run on Rocq's primitive
    floats. *)

Class Arith (F : Type) : Type := {
  of_int : Z -> F;             (* an [int] or [int64] converted to float *)
  fadd : F -> F -> F;
  fsub : F -> F -> F;
  fmul : F -> F -> F;
  fdiv : F -> F -> F;
  fabs : F -> F;
  fltb : F -> F -> bool;       (* [x < y] *)
  fleb : F -> F -> bool;       (* [x <= y] *)
  feqb : F -> F -> bool;       (* [x == y] *)
  lit_0_9 : F;                 (* the literal [0.9] *)
  lit_0_1 : F;                 (* the literal [0.1] *)
  lit_0_7 : F;                 (* the literal [0.7] *)
  np_log2 : Z -> F;            (* [np.log2] of an [int64] *)
  np_std : list Z -> F         (* [np.std] of an [int64] array, flattened *)
}.

(** [float('-inf')] *)
Class NegInf (F : Type) : Type := neg_inf : F.

(** Python's [max(a, b)]: [b] when [b > a], else [a]. *)
Definition py_max {F : Type} `{Arith F} (a b : F) : F :=
  if fltb a b then b else a.

(** *** Binary64

    [np.log2] and [np.std] are numpy's; they stay parameters. *)
Definition float_of_int (z : Z) : PrimFloat.float :=
  FloatOps.SF2Prim (SpecFloat.binary_normalize 53 1024 z 0 false).

Definition binary64 (log2 : Z -> PrimFloat.float)
    (std : list Z -> PrimFloat.float) : Arith PrimFloat.float :=
  {| of_int := float_of_int;
     fadd := PrimFloat.add;
     fsub := PrimFloat.sub;
     fmul := PrimFloat.mul;
     fdiv := PrimFloat.div;
     fabs := PrimFloat.abs;
     fltb := PrimFloat.ltb;
     fleb := PrimFloat.leb;
     feqb := PrimFloat.eqb;
     lit_0_9 := PrimFloat.div (float_of_int 9) (float_of_int 10);
     lit_0_1 := PrimFloat.div (float_of_int 1) (float_of_int 10);
     lit_0_7 := PrimFloat.div (float_of_int 7) (float_of_int 10);
     np_log2 := log2;
     np_std := std |}.

Definition binary64_neg_inf : NegInf PrimFloat.float := PrimFloat.neg_infinity.

(** [np.log2] on a power of two: the exponent, exactly. *)
Definition log2_pow2 (z : Z) : PrimFloat.float := float_of_int (Z.log2 z).

(* ================================================================== *)
(** ** The random source

    Python draws from numpy's process-wide generator.  The generator is a
    state that each draw reads and replaces. *)

Class RandomSource (rng : Type) : Type := {
  (* [np.random.randint(n)] *)
  randint : nat -> rng -> nat * rng;
  (* [np.random.choice(values, p=weights)] *)
  choice : list Z -> rng -> Z * rng;
  (* [np.random.choice(n, k, replace=False)] *)
  sample : nat -> nat -> rng -> list nat * rng
}.

(** What numpy promises about the draws. *)
Class RandomSourceOk (rng : Type) `{RandomSource rng} : Prop := {
  randint_lt : forall n s, (0 < n)%nat -> (fst (randint n s) < n)%nat;
  choice_in : forall values s, values <> [] -> In (fst (choice values s)) values;
  sample_lt : forall n k s, (k <= n)%nat ->
    Forall (fun i => (i < n)%nat) (fst (sample n k s));
  sample_length : forall n k s, (k <= n)%nat ->
    length (fst (sample n k s)) = k;
  sample_NoDup : forall n k s, (k <= n)%nat -> NoDup (fst (sample n k s))
}.

(** Computations that draw random numbers and may raise. *)
Definition M (S A : Type) : Type := S -> result (A * S).

#[global] Instance M_ret {S : Type} : MRet (M S) := fun A a s => Ok (a, s).

#[global] Instance M_bind {S : Type} : MBind (M S) := fun A B k m s =>
  match m s with
  | Ok (a, s') => k a s'
  | Raise e => Raise e
  end.

Definition lift {S A : Type} (r : result A) : M S A := fun s =>
  match r with
  | Ok a => Ok (a, s)
  | Raise e => Raise e
  end.

Definition draw {S A : Type} (d : S -> A * S) : M S A := fun s => Ok (d s).

(* ================================================================== *)
(** ** [ai/spawner.py]: the heuristic evaluator *)

(** One line of [_monotonicity]: [dec] collects the drops
    [line[j] - line[j+1]] where [line[j] > line[j+1]], [inc] the rises
    elsewhere. *)
Fixpoint line_trend (line : list Z) (dec inc : Z) : Z * Z :=
  match line with
  | [] => (dec, inc)
  | a :: tl =>
      match tl with
      | [] => (dec, inc)
      | b :: _ =>
          if b <? a
          then line_trend tl (Int64.add dec (Int64.sub a b)) inc
          else line_trend tl dec (Int64.add inc (Int64.sub b a))
      end
  end.

Definition grid_trend (g : grid) : Z * Z :=
  fold_left (fun t line => line_trend line (fst t) (snd t)) g (0, 0).

(** [_monotonicity]: the second pair of loops walks the columns, which are
    the rows of the transpose. *)
Definition _monotonicity (g : grid) : Z :=
  let '(totals_0, totals_1) := grid_trend g in
  let '(totals_2, totals_3) := grid_trend (transpose g) in
  Int64.add (Z.max totals_0 totals_1) (Z.max totals_2 totals_3).

(** [np.sum(grid == 0)] *)
Definition empty_tiles (g : grid) : Z :=
  Z.of_nat (length (List.filter (Z.eqb 0) (flatten g))).

(** The corner values [grid[0,0], grid[0,-1], grid[-1,0], grid[-1,-1]]. *)
Definition corners (g : grid) : list Z :=
  [cell g 0 0; cell g 0 (ncols g - 1);
   cell g (length g - 1) 0; cell g (length g - 1) (ncols g - 1)].

(** [max_val in corners] *)
Definition max_in_corner (g : grid) : bool :=
  existsb (Z.eqb (max_of (flatten g))) (corners g).

Definition _max_tile_corner_bonus (g : grid) : Z :=
  if max_in_corner g then 1 else 0.

(** [np.argwhere(grid >= v)], row-major. *)
Definition argwhere_ge (g : grid) (v : Z) : list (nat * nat) :=
  concat (imap (fun row line =>
                  map (fun col => (row, col))
                      (List.filter (fun col => v <=? nth col line 0)
                                   (seq 0 (length line)))) g).

(** [np.diff] *)
Fixpoint np_diff (l : list Z) : list Z :=
  match l with
  | [] => []
  | a :: tl =>
      match tl with
      | [] => []
      | b :: _ => Int64.sub b a :: np_diff tl
      end
  end.

(** Column [j] of the grid, [grid[:, j]]. *)
Definition column (g : grid) (j : nat) : list Z :=
  map (fun row => nth j row 0) g.

Section Evaluator.

Context {F : Type} {arith : Arith F}.

(** The body of the double loop of [_smoothness] at cell [(i, j)]. *)
Definition smooth_step (g : grid) (smoothness : F) (ij : nat * nat) : F :=
  let '(i, j) := ij in
  if negb (cell g i j =? 0) then
    let smoothness :=
      if ((j <? ncols g - 1)%nat && negb (cell g i (j + 1) =? 0))%bool
      then fsub smoothness
             (fabs (fsub (np_log2 (cell g i j))
                         (np_log2 (cell g i (j + 1)))))
      else smoothness in
    if ((i <? length g - 1)%nat && negb (cell g (i + 1) j =? 0))%bool
    then fsub smoothness
           (fabs (fsub (np_log2 (cell g i j))
                       (np_log2 (cell g (i + 1) j))))
    else smoothness
  else smoothness.

Definition _smoothness (g : grid) : F :=
  fold_left (smooth_step g)
    (list_prod (seq 0 (length g)) (seq 0 (ncols g))) (of_int 0).

Definition _is_organized (line : list Z) : bool :=
  let non_zero := non_zero_of line in
  if (length non_zero <=? 1)%nat then true
  else
    let diffs := np_diff non_zero in
    let increasing := Z.of_nat (length (List.filter (fun d => 0 <? d) diffs)) in
    let decreasing := Z.of_nat (length (List.filter (fun d => d <? 0) diffs)) in
    let total_changes := Z.of_nat (length diffs) in
    let threshold := fmul lit_0_7 (of_int total_changes) in
    (fleb threshold (of_int increasing)
     || fleb threshold (of_int decreasing))%bool.

(** The penalty for scattered high tiles: [Some (spread * 50)] when at
    least two cells hold 64 or more. *)
Definition spread_penalty (g : grid) : option F :=
  let positions := argwhere_ge g 64 in
  if (1 <? length positions)%nat then
    let coordinates :=
      concat (map (fun p => [Z.of_nat (fst p); Z.of_nat (snd p)]) positions) in
    Some (fmul (np_std coordinates) (of_int 50))
  else None.

(** The two closing loops: [+200] for every organized row, then for every
    organized column. *)
Definition add_organized (score : F) (lines : list (list Z)) : F :=
  fold_left (fun score line =>
               if _is_organized line then fadd score (of_int 200) else score)
            lines score.

(** The arithmetic of [_evaluate_board], on a grid with at least one cell. *)
Definition evaluate_board_value (board : Board) : F :=
  let g := _grid board in
  let score := of_int 0 in
  let score := fadd score (fmul (of_int (_score board)) (of_int 2)) in
  let score := fadd score (of_int (Int64.mul (empty_tiles g) 500)) in
  let score := fadd score (of_int (Int64.mul (_monotonicity g) 100)) in
  let score := fadd score (fmul (_smoothness g) (of_int 30)) in
  let max_tile_bonus := _max_tile_corner_bonus g * 1000 in
  let score := fadd score (of_int max_tile_bonus) in
  let score :=
    if negb (max_in_corner g) then fsub score (of_int 2000) else score in
  let score :=
    match spread_penalty g with
    | Some penalty => fsub score penalty
    | None => score
    end in
  let score := add_organized score g in
  add_organized score (map (column g) (seq 0 (ncols g))).

(** [_evaluate_board]: [np.max(grid)] raises on a grid with no cell;
    nothing else in the function can fail. *)
Definition _evaluate_board (board : Board) : result F :=
  _ ← np_max (_grid board); Ok (evaluate_board_value board).

End Evaluator.

(* ================================================================== *)
(** ** [ai/spawner.py]: the search and the spawn *)

Definition directions : list string := ["up"; "down"; "left"; "right"]%string.

(** The loop of [_is_terminal]: the first direction that moves a copy of
    the board answers [False]. *)
Fixpoint no_move_in (dirs : list string) (board : Board) : result bool :=
  match dirs with
  | [] => Ok true
  | direction :: dirs' =>
      '(moved, _) ← move direction board;
      if (moved : bool) then Ok false else no_move_in dirs' board
  end.

Definition _is_terminal (board : Board) : result bool :=
  if existsb (Z.eqb 0) (flatten (_grid board)) then Ok false
  else no_move_in directions board.

(** A stable sort by key, ascending, comparing keys with [<] only, as
    [list.sort(key=...)] does. *)
Section Sort.

Context {K A : Type} (ltb : K -> K -> bool) (key : A -> K).

Fixpoint insert_by (x : A) (l : list A) : list A :=
  match l with
  | [] => [x]
  | y :: l' => if ltb (key y) (key x) then y :: insert_by x l'
               else x :: y :: l'
  end.

Definition sort_by (l : list A) : list A := fold_right insert_by [] l.

End Sort.

Section Spawner.

Context {F : Type} {arith : Arith F} {inf : NegInf F}.
Context {rng : Type} {random : RandomSource rng}.

(** The loop of [_max_node]; [rec] is [_expectimax] one ply deeper. *)
Fixpoint max_loop (rec : Board -> M rng F) (board : Board)
    (dirs : list string) (max_value : F) : M rng F :=
  match dirs with
  | [] => mret max_value
  | direction :: dirs' =>
      '(moved, temp_board) ← lift (move direction board);
      if (moved : bool) then
        value ← rec temp_board;
        max_loop rec board dirs' (py_max max_value value)
      else max_loop rec board dirs' max_value
  end.

Definition _max_node (rec : Board -> M rng F) (board : Board) : M rng F :=
  max_value ← max_loop rec board directions neg_inf;
  if feqb max_value neg_inf then lift (_evaluate_board board)
  else mret max_value.

(** The loop of [_chance_node] over the (sampled) empty cells. *)
Fixpoint chance_loop (rec : Board -> M rng F) (board : Board)
    (empty_cells : list (nat * nat)) (total_value : F) : M rng F :=
  match empty_cells with
  | [] => mret total_value
  | (row, col) :: rest =>
      temp_board_2 ← lift (place board row col 2);
      value_2 ← rec temp_board_2;
      temp_board_4 ← lift (place board row col 4);
      value_4 ← rec temp_board_4;
      let cell_value :=
        fadd (fmul lit_0_9 value_2) (fmul lit_0_1 value_4) in
      chance_loop rec board rest (fadd total_value cell_value)
  end.

(** [[empty_cells[i] for i in indices]] *)
Fixpoint pick (empty_cells : list (nat * nat)) (indices : list nat)
  : result (list (nat * nat)) :=
  match indices with
  | [] => Ok []
  | i :: indices' =>
      match empty_cells !! i with
      | None => Raise IndexError
      | Some c => cs ← pick empty_cells indices'; Ok (c :: cs)
      end
  end.

Definition _chance_node (rec : Board -> M rng F) (board : Board) : M rng F :=
  let empty_cells := where_zero (_grid board) in
  match empty_cells with
  | [] => lift (_evaluate_board board)
  | _ :: _ =>
      let num_cells := length empty_cells in
      '(empty_cells, num_cells) ←
        (if (6 <? num_cells)%nat then
           indices ← draw (sample num_cells 6);
           sampled ← lift (pick empty_cells indices);
           mret (sampled, 6%nat)
         else mret (empty_cells, num_cells));
      total_value ← chance_loop rec board empty_cells (of_int 0);
      mret (fdiv total_value (of_int (Z.of_nat num_cells)))
  end.

Fixpoint _expectimax (depth : nat) (is_player_turn : bool) (board : Board)
  : M rng F :=
  match depth with
  | O => lift (_evaluate_board board)
  | S depth' =>
      terminal ← lift (_is_terminal board);
      if (terminal : bool) then lift (_evaluate_board board)
      else if is_player_turn
           then _max_node (_expectimax depth' false) board
           else _chance_node (_expectimax depth' true) board
  end.

Definition _evaluate_spawn (self : AISpawner) (board : Board)
    (row col : nat) (value : Z) : M rng F :=
  temp_board ← lift (place board row col value);
  _expectimax (search_depth self) true temp_board.

Definition _spawn_random (board : Board) : M rng (bool * Board) :=
  let empty_cells := where_zero (_grid board) in
  match empty_cells with
  | [] => mret (false, board)
  | _ :: _ =>
      index ← draw (randint (length empty_cells));
      match empty_cells !! index with
      | None => lift (Raise IndexError)
      | Some (row, col) =>
          value ← draw (choice [2; 4]);
          board' ← lift (place board row col value);
          mret (true, board')
      end
  end.

(** The loop that scores every empty cell. *)
Fixpoint score_cells (self : AISpawner) (board : Board)
    (empty_cells : list (nat * nat)) (scores : list (F * nat * nat))
  : M rng (list (F * nat * nat)) :=
  match empty_cells with
  | [] => mret scores
  | (row, col) :: rest =>
      score_2 ← _evaluate_spawn self board row col 2;
      score_4 ← _evaluate_spawn self board row col 4;
      let avg_score := fadd (fmul lit_0_9 score_2) (fmul lit_0_1 score_4) in
      score_cells self board rest (scores ++ [(avg_score, row, col)])
  end.

Definition spawn_tile (self : AISpawner) (board : Board)
  : M rng (bool * Board) :=
  if String.eqb (sp_difficulty self) "medium" then _spawn_random board
  else
    let empty_cells := where_zero (_grid board) in
    match empty_cells with
    | [] => mret (false, board)
    | _ :: _ =>
        scores ← score_cells self board empty_cells [];
        let scores := sort_by fltb (fun x => fst (fst x)) scores in
        let best_pos :=
          if String.eqb (sp_difficulty self) "easy"
          then last scores      (* scores[-1] *)
          else head scores in   (* scores[0] *)
        match best_pos with
        | None => lift (Raise IndexError)
        | Some (_, row, col) =>
            value ← draw (choice [2; 4]);
            board' ← lift (place board row col value);
            mret (true, board')
        end
    end.

(** [Board.spawn_random_tile] *)
Definition spawn_random_tile (self : Board) : M rng (bool * Board) :=
  spawn_tile (ai_spawner self) self.

End Spawner.

(* ================================================================== *)
(** ** [game/board.py]: construction and the high-score store *)

(** The file [./game/highscore.txt]: [content] is [None] when the file does
    not exist, and [reads] counts how many times it has been opened and
    read. *)
Record Store : Type := {
  content : option string;
  reads : nat
}.

(** [with open(path, "r") as f: f.read()] *)
Definition open_read (store : Store) : result (string * Store) :=
  match content store with
  | None => Raise FileNotFoundError
  | Some text => Ok (text, {| content := content store; reads := S (reads store) |})
  end.

Section Construction.

Context {F : Type} {arith : Arith F} {inf : NegInf F}.
Context {rng : Type} {random : RandomSource rng}.

(** Python's built-in [int] on a string; it raises [ValueError] on text
    that is not an integer literal. *)
Variable py_int : string -> result Z.

Definition Board_init (size : nat) (difficulty : string) (ai_depth : nat)
    (spawn_initial : bool) (store : Store) : M rng (Board * Store) :=
  let self :=
    {| size := size;
       _grid := np_zeros size size;
       _score := 0;
       _high_tile := 0;
       _game_over := false;
       _won := false;
       _highscore := 0;
       difficulty := difficulty;
       ai_spawner := AISpawner_init difficulty ai_depth false |} in
  self ← (if spawn_initial then
            '(_, self) ← spawn_random_tile self;
            '(_, self) ← spawn_random_tile self;
            mret self
          else mret self);
  '(highscore, store) ← lift (open_read store);
  if negb (String.eqb highscore "") then
    value ← lift (py_int highscore);
    mret (with_highscore self value, store)
  else mret (self, store).

End Construction.

(* ================================================================== *)
(** ** [game/board.py]: the other methods of [Board] *)

(** [Board.set_difficulty]: the new spawner is built with the search depth
    of the current one. *)
Definition set_difficulty (difficulty : string) (self : Board) : Board :=
  {| size := size self;
     _grid := _grid self;
     _score := _score self;
     _high_tile := _high_tile self;
     _game_over := _game_over self;
     _won := _won self;
     _highscore := _highscore self;
     difficulty := difficulty;
     ai_spawner :=
       AISpawner_init difficulty (search_depth (ai_spawner self)) false |}.

(** [Board.end_game] *)
Definition end_game (self : Board) : Board :=
  {| size := size self;
     _grid := _grid self;
     _score := _score self;
     _high_tile := _high_tile self;
     _game_over := true;
     _won := _won self;
     _highscore := _highscore self;
     difficulty := difficulty self;
     ai_spawner := ai_spawner self |}.

(** Python's [str] on an integer: its decimal digits, with a leading [-]
    when it is negative. *)
Definition py_str (z : Z) : string :=
  DecimalString.NilZero.string_of_int (Z.to_int z).

(** [with open(path, "w") as f: f.write(text)]: the file is created or
    replaced.  Opening fails with [FileNotFoundError] when the directory
    [./game] does not exist; [directory] tells whether it does. *)
Definition open_write (directory : bool) (text : string) (store : Store)
  : result Store :=
  if directory then Ok {| content := Some text; reads := reads store |}
  else Raise FileNotFoundError.

(** [Board.update_highscore] *)
Definition update_highscore (self : Board) (directory : bool) (store : Store)
  : result Store :=
  open_write directory (py_str (_highscore self)) store.

(** The loop of [Board.check_game_over].  The moves are tried one after the
    other on the same copy of the board. *)
Fixpoint check_loop (directions : list string) (temp_board : Board)
  : result bool :=
  match directions with
  | [] => Ok true
  | direction :: directions' =>
      '(moved, temp_board) ← move direction temp_board;
      if (moved : bool) then Ok false else check_loop directions' temp_board
  end.

(** [Board.check_game_over]: the board itself is not touched; the high
    score is written when no move is left. *)
Definition check_game_over (self : Board) (directory : bool) (store : Store)
  : result (bool * Store) :=
  let temp_board := self in
  no_move_left ← check_loop ["up"; "down"; "right"; "left"]%string temp_board;
  if (no_move_left : bool) then
    store ← update_highscore self directory store; Ok (true, store)
  else Ok (false, store).

(* ================================================================== *)
(** ** [main.py]: going on after a win *)

(** [handle_key_event] answers the space key on a won board with
    [board._won = False]; the game then goes on with the same board. *)
Definition continue_after_win (board : Board) : Board :=
  {| size := size board;
     _grid := _grid board;
     _score := _score board;
     _high_tile := _high_tile board;
     _game_over := _game_over board;
     _won := false;
     _highscore := _highscore board;
     difficulty := difficulty board;
     ai_spawner := ai_spawner board |}.

(* ================================================================== *)
(** ** A random source for the examples *)

(** A random source for examples: the state is a counter, every draw
    advances it, [randint] and [choice] rotate through their range and
    [sample] takes the first [k] indices. *)
Definition counter_source : RandomSource nat :=
  {| randint := fun n s => ((s mod n)%nat, S s);
     choice := fun values s => (nth (s mod length values) values 0, S s);
     sample := fun n k s => (seq 0 k, S s) |}.

(* ================================================================== *)
(** * Notions used in the statements *)

(** ** Lines and moves *)

(** No two neighbouring values of the list are equal. *)
Fixpoint no_equal_pair (l : list Z) : bool :=
  match l with
  | [] => true
  | a :: tl =>
      match tl with
      | [] => true
      | b :: _ => negb (a =? b) && no_equal_pair tl
      end
  end.

(** Two equal tiles next to each other, zeros apart. *)
Definition has_equal_pair (line : list Z) : bool :=
  negb (no_equal_pair (non_zero_of line)).

(** A line is compact when its tiles are packed against the left edge. *)
Definition compact (line : list Z) : Prop :=
  exists tiles k,
    line = tiles ++ repeat 0 k /\ Forall (fun v => v <> 0) tiles.

(** What [move] does to one line, and the points the line earns. *)
Definition slide (flip : bool) (line : list Z) : list Z :=
  let new_line := fst (combine_line (if flip then rev line else line)) in
  if flip then rev new_line else new_line.

Definition slide_score (flip : bool) (line : list Z) : Z :=
  snd (combine_line (if flip then rev line else line)).

(** The grid that [move] reconstructs, and the score it adds up. *)
Definition resolved_grid (direction : string) (g : grid) : grid :=
  let vertical := str_in direction ["up"; "down"]%string in
  let flip := str_in direction ["right"; "down"]%string in
  let new_grid := map (slide flip) (if vertical then transpose g else g) in
  if vertical then transpose new_grid else new_grid.

Definition resolved_score (direction : string) (g : grid) : Z :=
  let vertical := str_in direction ["up"; "down"]%string in
  let flip := str_in direction ["right"; "down"]%string in
  fold_left (fun total line => Int64.add total (slide_score flip line))
            (if vertical then transpose g else g) 0.

(** The state [move] commits when the grid has changed. *)
Definition commit (self : Board) (new_grid : grid) (gained : Z) : Board :=
  let score := Int64.add (_score self) gained in
  let high_tile := max_of (flatten new_grid) in
  {| size := size self;
     _grid := new_grid;
     _score := score;
     _high_tile := high_tile;
     _game_over := _game_over self;
     _won := if ((2048 <=? high_tile) && negb (_won self))%bool
             then true else _won self;
     _highscore := Z.max score (_highscore self);
     difficulty := difficulty self;
     ai_spawner := ai_spawner self |}.

(** ** Well-formed boards *)

(** The class invariant of [Board]: the grid is [size] by [size]. *)
Definition square (n : nat) (g : grid) : Prop :=
  length g = n /\ Forall (fun row => length row = n) g.

Definition wf_board (b : Board) : Prop := square (size b) (_grid b).

(** A well-formed board of a given size. *)
Definition sized (n : nat) (b : Board) : Prop := wf_board b /\ size b = n.

Definition valid_direction (direction : string) : Prop :=
  In direction directions.

(** Cells that hold non-negative [int64] values. *)
Definition cells_nonneg (g : grid) : Prop :=
  Forall (Forall (fun v => 0 <= v <= Int64.max_signed)) g.

(** The sum of all the cells of a grid. *)
Definition grid_sum (g : grid) : Z := line_sum (flatten g).

(** [np.count_nonzero] *)
Definition count_nonzero (g : grid) : nat := length (non_zero_of (flatten g)).

(** A board to try things on: the given grid, a fresh game otherwise. *)
Definition board_of (n : nat) (g : grid) : Board :=
  {| size := n; _grid := g; _score := 0; _high_tile := 0;
     _game_over := false; _won := false; _highscore := 0;
     difficulty := "medium";
     ai_spawner := AISpawner_init "medium" 2 false |}.

(** Well-formedness of a concrete board, by computation. *)
Ltac wf_by_computation :=
  split; [reflexivity|repeat constructor].

(** Non-negativity of the cells of a concrete grid, by computation. *)
Ltac cells_by_computation :=
  repeat constructor; unfold Int64.max_signed; lia.

(** The [n] by [n] grid that holds [a] where [row + col] is even and [b]
    elsewhere. *)
Definition checker_row (a b : Z) (n i : nat) : list Z :=
  map (fun j => if Nat.even (i + j) then a else b) (seq 0 n).

Definition checkerboard (a b : Z) (n : nat) : grid :=
  map (checker_row a b n) (seq 0 n).

(** ** Sequences of moves and spawns *)

(** What happens to a board between two readings of [won]: the player
    moves, or a tile is placed (a spawn). *)
Inductive action : Type :=
| Move (direction : string)
| Place (row col : nat) (value : Z).

Definition step (a : action) (b : Board) : result Board :=
  match a with
  | Move direction => '(_, b') ← move direction b; Ok b'
  | Place row col value => place b row col value
  end.

(** The boards a sequence of actions goes through. *)
Fixpoint play (actions : list action) (b : Board) : result (list Board) :=
  match actions with
  | [] => Ok []
  | a :: rest => b' ← step a b; trace ← play rest b'; Ok (b' :: trace)
  end.

(** While the flag is down the high tile is below 2048. *)
Definition flag_follows_tile (b : Board) : Prop :=
  _won b = false -> _high_tile b < 2048.

(** ** Computations that draw and may raise *)

(** [post m Q]: from every state of the random source, [m] returns, and
    what it returns satisfies [Q]. *)
Definition post {S A : Type} (m : M S A) (Q : A -> Prop) : Prop :=
  forall s, exists a s', m s = Ok (a, s') /\ Q a.

(** What a spawn returns: [False] and the board itself when no cell is
    empty, else [True] and the board with 2 or 4 placed on an empty cell. *)
Definition spawned (board : Board) (result : bool * Board) : Prop :=
  match where_zero (_grid board) with
  | [] => result = (false, board)
  | _ :: _ =>
      exists row col value,
        In (row, col) (where_zero (_grid board)) /\
        In value [2; 4] /\
        place board row col value = Ok (snd result) /\
        fst result = true
  end.

(** ** Candidates and their order *)

(** The score of a candidate: the key the candidates are sorted by. *)
Definition score_of {F : Type} (x : F * nat * nat) : F := fst (fst x).

(** The cell a scored candidate stands for. *)
Definition cell_of {F : Type} (x : F * nat * nat) : nat * nat := (snd (fst x), snd x).

Section Candidates.

Context {F : Type} {arith : Arith F} {inf : NegInf F}.
Context {rng : Type} {random : RandomSource rng}.

(** A candidate carries the score
    [0.9 * evaluate(cell, 2) + 0.1 * evaluate(cell, 4)], the two evaluations
    being run one after the other on the random source. *)
Definition is_candidate (self : AISpawner) (board : Board)
    (x : F * nat * nat) : Prop :=
  exists s_a s_b s_c score_2 score_4,
    _evaluate_spawn self board (snd (fst x)) (snd x) 2 s_a = Ok (score_2, s_b) /\
    _evaluate_spawn self board (snd (fst x)) (snd x) 4 s_b = Ok (score_4, s_c) /\
    score_of x = fadd (fmul lit_0_9 score_2) (fmul lit_0_1 score_4).

End Candidates.

(** The comparison is a strict weak order on the given keys (as [<] is on
    floating-point numbers other than NaN). *)
Definition weak_order_on {K : Type} (ltb : K -> K -> bool) (keys : list K)
  : Prop :=
  (forall x, In x keys -> ltb x x = false) /\
  (forall x y z, In x keys -> In y keys -> In z keys ->
     ltb x y = true -> ltb y z = true -> ltb x z = true) /\
  (forall x y z, In x keys -> In y keys -> In z keys ->
     ltb x z = true -> ltb x y = true \/ ltb y z = true).

(** A decision procedure for [weak_order_on]. *)
Definition weak_order_onb {K : Type} (ltb : K -> K -> bool) (keys : list K)
  : bool :=
  forallb (fun x =>
    negb (ltb x x) &&
    forallb (fun y =>
      forallb (fun z =>
        implb (ltb x y && ltb y z) (ltb x z) &&
        implb (ltb x z) (ltb x y || ltb y z)) keys) keys) keys.


(** ** Concrete instances for the examples *)

(** [np.add.reduce] on binary64, numpy's [pairwise_sum]: fewer than eight
    values are added from left to right, starting from [-0.0]; up to 128
    values are added in eight interleaved partial sums, which are then
    added in pairs, and what is left over a multiple of eight is added
    one by one; more than 128 values are split in two. *)
Fixpoint add_blocks (fuel : nat) (r a : list PrimFloat.float)
  : list PrimFloat.float * list PrimFloat.float :=
  match fuel with
  | O => (r, a)
  | S fuel =>
      if (8 <=? length a)%nat
      then add_blocks fuel (zip_with PrimFloat.add r (firstn 8 a)) (skipn 8 a)
      else (r, a)
  end.

Definition sum_blocks (a : list PrimFloat.float) : PrimFloat.float :=
  let '(r, rest) := add_blocks (length a) (firstn 8 a) (skipn 8 a) in
  let r j := nth j r PrimFloat.zero in
  let res :=
    PrimFloat.add
      (PrimFloat.add (PrimFloat.add (r 0%nat) (r 1%nat))
                     (PrimFloat.add (r 2%nat) (r 3%nat)))
      (PrimFloat.add (PrimFloat.add (r 4%nat) (r 5%nat))
                     (PrimFloat.add (r 6%nat) (r 7%nat))) in
  fold_left PrimFloat.add rest res.

Fixpoint pairwise_sum (fuel : nat) (a : list PrimFloat.float)
  : PrimFloat.float :=
  let n := length a in
  if (n <? 8)%nat then fold_left PrimFloat.add a (PrimFloat.opp PrimFloat.zero)
  else if (n <=? 128)%nat then sum_blocks a
  else
    match fuel with
    | O => sum_blocks a
    | S fuel =>
        let n2 := (n / 2 - (n / 2) mod 8)%nat in
        PrimFloat.add (pairwise_sum fuel (firstn n2 a))
                      (pairwise_sum fuel (skipn n2 a))
    end.

(** The reduction starts from the identity of the sum. *)
Definition add_reduce (a : list PrimFloat.float) : PrimFloat.float :=
  PrimFloat.add PrimFloat.zero (pairwise_sum (length a) a).

(** The row indices and the column indices of a flattened array of
    positions. *)
Fixpoint unzip_positions (values : list Z) : list Z * list Z :=
  match values with
  | row :: col :: rest =>
      let '(rows, cols) := unzip_positions rest in (row :: rows, col :: cols)
  | _ => ([], [])
  end.

(** [np.std] of the positions [np.argwhere] returns, in binary64, the way
    numpy computes it: the mean, the squared deviations from it, their
    mean, the square root.  [np.argwhere] returns the transpose of an array
    of two rows, so in memory the row indices come first and the column
    indices after them, and this is the order the two sums are taken in.
    (The sum of the indices is exact in any order.) *)
Definition std_binary64 (values : list Z) : PrimFloat.float :=
  let '(rows, cols) := unzip_positions values in
  let arr := rows ++ cols in
  let rcount := float_of_int (Z.of_nat (length arr)) in
  let arrmean := PrimFloat.div (add_reduce (map float_of_int arr)) rcount in
  let x := map (fun v => PrimFloat.sub (float_of_int v) arrmean) arr in
  let x := map (fun d => PrimFloat.mul d d) x in
  PrimFloat.sqrt (PrimFloat.div (add_reduce x) rcount).

(** The arithmetic of the examples: binary64, tiles that are powers of
    two. *)
Definition example_arith : Arith PrimFloat.float :=
  binary64 log2_pow2 std_binary64.

(** A grid that is its own transpose, with two empty cells that mirror each
    other. *)
Definition mirror_grid : grid :=
  [[2; 0; 8; 16]; [0; 4; 2; 8]; [8; 2; 4; 2]; [16; 8; 2; 4]].

(** ** Further notions *)

(** A cell of the game: empty, or a power of two from 2 on. *)
Definition is_tile (v : Z) : Prop := v = 0 \/ exists k, 0 < k /\ v = 2 ^ k.

(** An accepted move on a concrete board, by computation. *)
Ltac accepted_move direction b self' Hmove :=
  let r := fresh "r" in
  let e := fresh "e" in
  destruct (move direction b) as [[r self']|e] eqn:Hmove;
  [|vm_compute in Hmove; discriminate];
  assert (r = true) as ->
    by (vm_compute in Hmove; injection Hmove as <- _; reflexivity).

(** The cells of a concrete grid are tiles, by computation. *)
Ltac tile_power k := exists k; split; [lia|reflexivity].

Ltac tile_by_computation :=
  first [left; reflexivity
        |right;
         first [tile_power 1|tile_power 2|tile_power 3|tile_power 4
               |tile_power 5|tile_power 6|tile_power 7|tile_power 8
               |tile_power 9|tile_power 10|tile_power 11]].

Ltac tiles_by_computation :=
  repeat match goal with
         | |- Forall _ [] => apply List.Forall_nil
         | |- Forall _ (_ :: _) => apply List.Forall_cons
         | |- is_tile _ => tile_by_computation
         end.

(** No call of [move] is accepted. *)
Definition no_move (self : Board) : Prop :=
  forall direction, move direction self = Ok (false, self).

(** The board has a tile. *)
Definition has_tile (g : grid) : Prop := exists v, In v (flatten g) /\ v <> 0.

(** A line that holds an empty cell and a tile. *)
Definition mixed (line : list Z) : bool :=
  existsb (Z.eqb 0) line && existsb (fun v => negb (v =? 0)) line.

(** Python's [int] on the texts [str] writes: an optional [-] and decimal
    digits.  Every other text is refused here; Python's [int] reads a few
    more (white space around the number, a leading [+], underscores between
    digits), which the game never writes. *)
Definition int_of_decimal (text : string) : result Z :=
  match DecimalString.NilZero.int_of_string text with
  | Some d => Ok (Z.of_int d)
  | None => Raise ValueError
  end.

(** The binary64 datum of a whole number: [float_of_int] before it is
    packed into a primitive float. *)
Definition whole (z : Z) : SpecFloat.spec_float :=
  SpecFloat.binary_normalize 53 1024 z 0 false.

(** The normal form of a positive whole number below [2^53]: a mantissa of
    53 digits. *)
Definition normal (s : bool) (v : positive) : SpecFloat.spec_float :=
  let d := Z.pos (SpecFloat.digits2_pos v) in
  SpecFloat.S754_finite s (Z.to_pos (Z.pos v * 2 ^ (53 - d))) (d - 53).



(** The value of a fresh cell. *)
Definition fresh_cell (v : Z) : Prop := v = 0 \/ v = 2 \/ v = 4.

(** Every value is below the next one. *)
Fixpoint strictly_increasing (l : list Z) : bool :=
  match l with
  | [] => true
  | a :: tl =>
      match tl with
      | [] => true
      | b :: _ => (a <? b) && strictly_increasing tl
      end
  end.

(** Every value is above the next one. *)
Fixpoint strictly_decreasing (l : list Z) : bool :=
  match l with
  | [] => true
  | a :: tl =>
      match tl with
      | [] => true
      | b :: _ => (b <? a) && strictly_decreasing tl
      end
  end.

(** The drops along a line, added up as mathematical integers. *)
Fixpoint drops (line : list Z) : Z :=
  match line with
  | [] => 0
  | a :: tl =>
      match tl with
      | [] => 0
      | b :: _ => (if b <? a then a - b else 0) + drops tl
      end
  end.

(** The rises, likewise. *)
Fixpoint rises (line : list Z) : Z :=
  match line with
  | [] => 0
  | a :: tl =>
      match tl with
      | [] => 0
      | b :: _ => (if b <? a then 0 else b - a) + rises tl
      end
  end.

Section Turns.

Context {F : Type} {arith : Arith F} {inf : NegInf F}.
Context {rng : Type} {random : RandomSource rng}.

(** The turns of a game: for every direction asked for, a move, and after
    a move that was accepted, a spawn. *)
Fixpoint turns (asked : list string) (board : Board) : M rng Board :=
  match asked with
  | [] => mret board
  | direction :: rest =>
      '(moved, board) ← lift (move direction board);
      if (moved : bool) then
        '(_, board) ← spawn_random_tile board;
        turns rest board
      else turns rest board
  end.

End Turns.

(** Lookups in the colour tables, key by key. *)
Ltac lookup_key :=
  unfold dict_get;
  repeat first [rewrite lookup_insert_eq
               |rewrite lookup_insert_ne by lia
               |rewrite lookup_empty].

(* ================================================================== *)
(** * Properties *)

(** ** Facts about [int64] arithmetic *)

Lemma wrap_in_range z : Int64.in_range (Int64.wrap z).
Proof.
  unfold Int64.in_range, Int64.wrap, Int64.min_signed, Int64.max_signed.
  pose proof (Z.mod_pos_bound (z + 2 ^ 63) (2 ^ 64) ltac:(lia)). lia.
Qed.

Lemma wrap_id z : Int64.in_range z -> Int64.wrap z = z.
Proof.
  unfold Int64.in_range, Int64.wrap, Int64.min_signed, Int64.max_signed.
  intros H. rewrite Z.mod_small by lia. lia.
Qed.

Lemma wrap_eqm z : (Int64.wrap z) mod 2 ^ 64 = z mod 2 ^ 64.
Proof.
  unfold Int64.wrap.
  rewrite Zminus_mod, Zmod_mod, <- Zminus_mod.
  f_equal. lia.
Qed.

Lemma eqm_wrap a b : a mod 2 ^ 64 = b mod 2 ^ 64 -> Int64.wrap a = Int64.wrap b.
Proof.
  intros H. unfold Int64.wrap.
  rewrite (Zplus_mod a), (Zplus_mod b), H. reflexivity.
Qed.

Lemma wrap_add_l a b : Int64.wrap (Int64.wrap a + b) = Int64.wrap (a + b).
Proof.
  apply eqm_wrap. rewrite Zplus_mod, wrap_eqm, <- Zplus_mod. reflexivity.
Qed.

Lemma wrap_add_r a b : Int64.wrap (a + Int64.wrap b) = Int64.wrap (a + b).
Proof. rewrite Z.add_comm, wrap_add_l. f_equal. lia. Qed.

Lemma wrap_0 : Int64.wrap 0 = 0.
Proof. reflexivity. Qed.

Lemma in_range_0 : Int64.in_range 0.
Proof. unfold Int64.in_range, Int64.min_signed, Int64.max_signed. lia. Qed.

(** Doubling a positive [int64] never gives zero, even when it overflows. *)
Lemma wrap_double_nonzero x :
  0 < x <= Int64.max_signed -> Int64.wrap (x * 2) <> 0.
Proof.
  unfold Int64.wrap, Int64.max_signed. intros H.
  destruct (Z_lt_dec (x * 2) (2 ^ 63)) as [Hs|Hb].
  - rewrite Z.mod_small by lia. lia.
  - replace (x * 2 + 2 ^ 63) with ((x * 2 - 2 ^ 63) + 1 * 2 ^ 64) by lia.
    rewrite Z_mod_plus_full, Z.mod_small by lia. lia.
Qed.

(** ** Sums of lines *)

Lemma line_sum_app l1 l2 : line_sum (l1 ++ l2) = line_sum l1 + line_sum l2.
Proof. induction l1 as [|x l1 IH]; simpl; [|rewrite IH]; lia. Qed.

Lemma line_sum_repeat_0 n : line_sum (repeat 0 n) = 0.
Proof. induction n; simpl; lia. Qed.

Lemma line_sum_rev l : line_sum (rev l) = line_sum l.
Proof.
  induction l as [|x l IH]; simpl; [reflexivity|].
  rewrite line_sum_app, IH. simpl. lia.
Qed.

Lemma line_sum_non_zero l : line_sum (non_zero_of l) = line_sum l.
Proof.
  induction l as [|x l IH]; simpl; [reflexivity|].
  destruct (Z.eqb_spec x 0); simpl; lia.
Qed.

Lemma line_sum_nonneg l : Forall (fun v => 0 <= v) l -> 0 <= line_sum l.
Proof. induction 1; simpl; lia. Qed.

Lemma line_sum_bound l v :
  Forall (fun v => 0 <= v) l -> In v l -> v <= line_sum l.
Proof.
  induction 1 as [|x l Hx Hl IH]; simpl; [tauto|].
  pose proof (line_sum_nonneg l Hl).
  intros [->|Hin]; [lia|]. specialize (IH Hin). lia.
Qed.

(** ** [combine_line] *)

Lemma non_zero_of_length line : (length (non_zero_of line) <= length line)%nat.
Proof. apply filter_length_le. Qed.

Lemma non_zero_of_Forall line : Forall (fun v => v <> 0) (non_zero_of line).
Proof.
  apply List.Forall_forall. intros v Hv.
  apply filter_In in Hv as [_ Hv]. destruct (Z.eqb_spec v 0); [discriminate|assumption].
Qed.

Lemma non_zero_of_id l : Forall (fun v => v <> 0) l -> non_zero_of l = l.
Proof.
  induction 1 as [|x l Hx Hl IH]; simpl; [reflexivity|].
  destruct (Z.eqb_spec x 0); [contradiction|]. simpl. f_equal. exact IH.
Qed.

Lemma non_zero_of_app l1 l2 :
  non_zero_of (l1 ++ l2) = non_zero_of l1 ++ non_zero_of l2.
Proof. apply List.filter_app. Qed.

Lemma non_zero_of_repeat_0 n : non_zero_of (repeat 0 n) = [].
Proof. induction n; simpl; auto. Qed.

Lemma resolve_scan_cons2 x y rest :
  resolve_scan (x :: y :: rest) =
    if x =? y then
      (Int64.add x y :: fst (resolve_scan rest),
       Int64.add (Int64.add x y) (snd (resolve_scan rest)))
    else (x :: fst (resolve_scan (y :: rest)), snd (resolve_scan (y :: rest))).
Proof.
  change (resolve_scan (x :: y :: rest)) with
    (if x =? y then
       let '(out, gained) := resolve_scan rest in
       (Int64.add x y :: out, Int64.add (Int64.add x y) gained)
     else let '(out, gained) := resolve_scan (y :: rest) in (x :: out, gained)).
  destruct (x =? y);
    [destruct (resolve_scan rest)|destruct (resolve_scan (y :: rest))];
    reflexivity.
Qed.

(** Induction two values at a time, the way the scan advances. *)
Lemma scan_ind (P : list Z -> Prop) :
  P [] ->
  (forall x, P [x]) ->
  (forall x rest, P rest -> P (x :: x :: rest)) ->
  (forall x y rest, x <> y -> P (y :: rest) -> P (x :: y :: rest)) ->
  forall values, P values.
Proof.
  intros Hnil Hone Hmerge Hkeep values.
  remember (length values) as n eqn:Hn.
  revert values Hn. induction n as [n IH] using lt_wf_ind. intros values Hn.
  destruct values as [|x [|y rest]]; [apply Hnil|apply Hone|].
  destruct (Z.eq_dec x y) as [->|Hne].
  - apply Hmerge, (IH (length rest)); [simpl in Hn; lia|reflexivity].
  - apply Hkeep; [assumption|].
    apply (IH (length (y :: rest))); [simpl in *; lia|reflexivity].
Qed.

Lemma resolve_scan_length values :
  (length (fst (resolve_scan values)) <= length values)%nat.
Proof.
  induction values as [|x|x rest IH|x y rest Hne IH] using scan_ind;
    [simpl; lia|simpl; lia|..]; rewrite resolve_scan_cons2.
  - rewrite Z.eqb_refl. simpl in *. lia.
  - destruct (Z.eqb_spec x y); [contradiction|]. simpl in *. lia.
Qed.

Lemma resolve_scan_in_range values : Int64.in_range (snd (resolve_scan values)).
Proof.
  induction values as [|x|x rest IH|x y rest Hne IH] using scan_ind;
    [apply in_range_0|apply in_range_0|..]; rewrite resolve_scan_cons2.
  - rewrite Z.eqb_refl. apply wrap_in_range.
  - destruct (Z.eqb_spec x y); [contradiction|]. exact IH.
Qed.

(** The loop computes the scan of the values it has not consumed yet, and
    stops because the index has reached the end, not because the fuel ran
    out. *)
Lemma combine_loop_fuel fuel non_zero i acc score :
  (length non_zero - i <= fuel)%nat ->
  Int64.in_range score ->
  combine_loop fuel non_zero i acc score =
    (acc ++ fst (resolve_scan (drop i non_zero)),
     Int64.add score (snd (resolve_scan (drop i non_zero)))).
Proof.
  assert (Hstop : forall acc score, Int64.in_range score ->
            (acc, score) = (acc ++ fst (resolve_scan []), Int64.add score (snd (resolve_scan [])))).
  { intros acc' score' Hs. simpl. rewrite app_nil_r.
    unfold Int64.add. rewrite Z.add_0_r, wrap_id by assumption. reflexivity. }
  revert i acc score. induction fuel as [|fuel IH]; intros i acc score Hfuel Hscore.
  - rewrite drop_ge by lia. apply Hstop, Hscore.
  - cbn [combine_loop]. destruct (Nat.ltb_spec i (length non_zero)) as [Hi|Hi].
    2:{ rewrite drop_ge by lia. apply Hstop, Hscore. }
    destruct (lookup_lt_is_Some_2 non_zero i Hi) as [x Hx].
    rewrite (nth_lookup_Some _ _ _ _ Hx).
    rewrite (drop_S _ _ _ Hx).
    destruct (Nat.ltb_spec (i + 1) (length non_zero)) as [Hi1|Hi1]; cbn [andb].
    + destruct (lookup_lt_is_Some_2 non_zero (S i) ltac:(lia)) as [y Hy].
      replace (i + 1)%nat with (S i) by lia.
      rewrite (nth_lookup_Some _ _ _ _ Hy).
      rewrite (drop_S _ _ _ Hy), resolve_scan_cons2.
      destruct (Z.eqb_spec x y) as [->|Hne].
      * rewrite IH by first [lia|apply wrap_in_range].
        replace (i + 2)%nat with (S (S i)) by lia.
        cbn [fst snd]. rewrite <- app_assoc. cbn [app].
        unfold Int64.mul, Int64.add. f_equal; [do 3 f_equal; lia|].
        rewrite wrap_add_l, wrap_add_r.
        rewrite (Z.add_comm score (Int64.wrap _)), <- Z.add_assoc, wrap_add_l.
        rewrite (Z.add_comm score (Int64.wrap _ + _)), <- Z.add_assoc, wrap_add_l.
        f_equal. lia.
      * rewrite IH by first [lia|assumption].
        rewrite (drop_S _ _ _ Hy).
        cbn [fst snd]. rewrite <- app_assoc. reflexivity.
    + rewrite (drop_ge _ (S i)) by lia.
      rewrite IH by first [lia|assumption].
      rewrite drop_ge by lia. cbn [resolve_scan fst snd]. rewrite <- app_assoc.
      reflexivity.
Qed.

(** [combine_line] is the resolver of the specification. *)
Lemma combine_line_resolve line : combine_line line = resolve line.
Proof.
  unfold combine_line, resolve.
  rewrite combine_loop_fuel by (apply in_range_0 || lia).
  rewrite drop_0. simpl.
  pose proof (resolve_scan_in_range (non_zero_of line)) as Hr.
  destruct (resolve_scan (non_zero_of line)) as [out gained]. simpl in *.
  unfold pad_line, Int64.add. simpl. rewrite wrap_id by assumption. reflexivity.
Qed.

Lemma combine_line_length line : length (fst (combine_line line)) = length line.
Proof.
  rewrite combine_line_resolve. unfold resolve.
  pose proof (resolve_scan_length (non_zero_of line)) as H1.
  pose proof (non_zero_of_length line) as H2.
  destruct (resolve_scan (non_zero_of line)) as [out gained]. simpl in *.
  rewrite length_app, repeat_length. lia.
Qed.

Lemma add_self_mul x : Int64.add x x = Int64.mul x 2.
Proof. unfold Int64.add, Int64.mul. f_equal. lia. Qed.

Lemma resolve_scan_no_pair values :
  no_equal_pair values = true -> resolve_scan values = (values, 0).
Proof.
  induction values as [|x|x rest IH|x y rest Hne IH] using scan_ind;
    try reflexivity; intros H.
  - cbn [no_equal_pair] in H. rewrite Z.eqb_refl in H. discriminate.
  - rewrite resolve_scan_cons2.
    change (no_equal_pair (x :: y :: rest))
      with (negb (x =? y) && no_equal_pair (y :: rest))%bool in H.
    apply andb_true_iff in H as [_ H].
    destruct (Z.eqb_spec x y); [contradiction|].
    rewrite (IH H). reflexivity.
Qed.

Lemma combine_line_no_pair line :
  Forall (fun v => v <> 0) line -> no_equal_pair line = true ->
  combine_line line = (line, 0).
Proof.
  intros Hnz Hpair. rewrite combine_line_resolve. unfold resolve.
  rewrite (non_zero_of_id _ Hnz), (resolve_scan_no_pair _ Hpair).
  rewrite Nat.sub_diag. simpl. rewrite app_nil_r. reflexivity.
Qed.

(** The tile formed by merging the two leading values is final: whatever
    follows is resolved on its own. *)
Lemma combine_line_merge_head x rest :
  x <> 0 ->
  fst (combine_line (x :: x :: rest)) =
    Int64.mul x 2 :: fst (combine_line rest) ++ [0].
Proof.
  intros Hx. rewrite !combine_line_resolve. unfold resolve.
  cbn [non_zero_of List.filter].
  destruct (Z.eqb_spec x 0); [contradiction|]. cbn [negb].
  fold (non_zero_of rest). rewrite resolve_scan_cons2, Z.eqb_refl.
  pose proof (resolve_scan_length (non_zero_of rest)) as H1.
  pose proof (non_zero_of_length rest) as H2.
  destruct (resolve_scan (non_zero_of rest)) as [out gained].
  cbn [fst snd length] in *. rewrite add_self_mul.
  replace (S (S (length rest)) - S (length out))%nat
    with (length rest - length out + 1)%nat by lia.
  rewrite repeat_app. cbn [repeat app]. rewrite <- app_assoc. reflexivity.
Qed.

(** C1. [combine_line] is the one-pass compress-and-merge of the
    specification: it equals the left-to-right scan [resolve] in which a
    value is either kept or merged with its right neighbour, a tile formed by
    a merge is final (the rest of the line is resolved without it), and the
    three sample lines resolve as stated. *)
Theorem combine_line_one_pass :
  (forall line, combine_line line = resolve line) /\
  (forall x rest, x <> 0 ->
     fst (combine_line (x :: x :: rest)) =
       Int64.mul x 2 :: fst (combine_line rest) ++ [0]) /\
  combine_line [2; 2; 0; 0] = ([4; 0; 0; 0], 4) /\
  combine_line [2; 2; 4; 4] = ([4; 8; 0; 0], 12) /\
  combine_line [2; 2; 2; 0] = ([4; 2; 0; 0], 4).
Proof.
  split; [exact combine_line_resolve|].
  split; [exact combine_line_merge_head|].
  repeat split; reflexivity.
Qed.

(** ** Conservation of the tile mass by [combine_line] *)

Lemma resolve_scan_sum_wrap values :
  Int64.wrap (line_sum (fst (resolve_scan values))) = Int64.wrap (line_sum values).
Proof.
  induction values as [|x|x rest IH|x y rest Hne IH] using scan_ind;
    try reflexivity; rewrite resolve_scan_cons2.
  - rewrite Z.eqb_refl. cbn [fst line_sum fold_right].
    fold (line_sum (fst (resolve_scan rest))). fold (line_sum rest).
    unfold Int64.add. rewrite wrap_add_l.
    rewrite <- wrap_add_r, IH, wrap_add_r. f_equal. lia.
  - destruct (Z.eqb_spec x y); [contradiction|].
    cbn [fst]. change (line_sum (x :: ?l)) with (x + line_sum l).
    rewrite <- wrap_add_r, IH, wrap_add_r. reflexivity.
Qed.

Lemma resolve_scan_sum_exact values :
  Forall (fun v => 0 <= v) values -> line_sum values <= Int64.max_signed ->
  line_sum (fst (resolve_scan values)) = line_sum values /\
  Forall (fun v => 0 <= v) (fst (resolve_scan values)).
Proof.
  induction values as [|x|x rest IH|x y rest Hne IH] using scan_ind;
    intros Hpos Hsum; try (split; [reflexivity|assumption]);
    rewrite resolve_scan_cons2.
  - rewrite Z.eqb_refl. cbn [fst].
    apply Forall_cons_1 in Hpos as [Hx Hpos].
    apply Forall_cons_1 in Hpos as [_ Hpos].
    change (line_sum (x :: x :: rest)) with (x + (x + line_sum rest)) in *.
    pose proof (line_sum_nonneg _ Hpos).
    destruct IH as [IH1 IH2]; [assumption|lia|].
    unfold Int64.add. rewrite wrap_id
      by (unfold Int64.in_range, Int64.min_signed, Int64.max_signed in *; lia).
    split; [change (line_sum (?a :: ?l)) with (a + line_sum l); lia|].
    constructor; [lia|assumption].
  - destruct (Z.eqb_spec x y); [contradiction|]. cbn [fst].
    apply Forall_cons_1 in Hpos as [Hx Hpos].
    change (line_sum (x :: ?l)) with (x + line_sum l) in *.
    destruct IH as [IH1 IH2]; [assumption|lia|].
    split; [lia|constructor; assumption].
Qed.

Lemma combine_line_sum_wrap line :
  np_sum (fst (combine_line line)) = np_sum line.
Proof.
  rewrite combine_line_resolve. unfold resolve, np_sum.
  pose proof (resolve_scan_sum_wrap (non_zero_of line)) as H.
  destruct (resolve_scan (non_zero_of line)) as [out gained]. cbn [fst] in *.
  rewrite line_sum_app, line_sum_repeat_0, Z.add_0_r, H, line_sum_non_zero.
  reflexivity.
Qed.

Lemma Forall_non_zero_of (P : Z -> Prop) line :
  Forall P line -> Forall P (non_zero_of line).
Proof.
  intros H. apply List.Forall_forall. intros v Hv.
  apply filter_In in Hv as [Hv _].
  exact (proj1 (List.Forall_forall P line) H v Hv).
Qed.

Lemma combine_line_sum_exact line :
  Forall (fun v => 0 <= v) line -> line_sum line <= Int64.max_signed ->
  line_sum (fst (combine_line line)) = line_sum line /\
  Forall (fun v => 0 <= v) (fst (combine_line line)).
Proof.
  intros Hpos Hsum. rewrite combine_line_resolve. unfold resolve.
  destruct (resolve_scan_sum_exact (non_zero_of line)) as [H1 H2].
  { apply Forall_non_zero_of, Hpos. }
  { rewrite line_sum_non_zero. exact Hsum. }
  destruct (resolve_scan (non_zero_of line)) as [out gained]. cbn [fst] in *.
  rewrite line_sum_app, line_sum_repeat_0, Z.add_0_r, H1, line_sum_non_zero.
  split; [reflexivity|].
  apply Forall_app. split; [assumption|].
  apply List.Forall_forall. intros v Hv. apply repeat_spec in Hv. lia.
Qed.

(* ================================================================== *)
(** ** [Board.move] *)

Lemma move_loop_spec flip src n : forall i new_grid total,
  (i + n <= length src)%nat -> length new_grid = length src ->
  move_loop n i flip src new_grid total =
    Ok (take i new_grid ++ map (slide flip) (take n (drop i src))
          ++ drop (i + n) new_grid,
        fold_left (fun total line => Int64.add total (slide_score flip line))
                  (take n (drop i src)) total).
Proof.
  induction n as [|n IH]; intros i new_grid total Hi Hlen.
  - rewrite Nat.add_0_r, take_0. cbn [move_loop map app fold_left].
    rewrite take_drop. reflexivity.
  - cbn [move_loop].
    destruct (lookup_lt_is_Some_2 src i ltac:(lia)) as [line Hline].
    rewrite Hline, (drop_S _ _ _ Hline).
    rewrite firstn_cons. cbn [map fold_left].
    destruct (combine_line (if flip then rev line else line)) as [nl sc] eqn:Hc.
    assert (Hsl : slide flip line = if flip then rev nl else nl)
      by (unfold slide; rewrite Hc; reflexivity).
    assert (Hss : slide_score flip line = sc)
      by (unfold slide_score; rewrite Hc; reflexivity).
    rewrite Hsl, Hss.
    rewrite IH by (rewrite ?length_insert; lia).
    rewrite drop_insert_lt by lia.
    assert (Hv : <[i := if flip then rev nl else nl]> new_grid !! i
                 = Some (if flip then rev nl else nl))
      by (apply list_lookup_insert_eq; lia).
    rewrite (take_S_r _ _ _ Hv), take_insert_ge by lia.
    rewrite <- app_assoc. cbn [app].
    replace (S i + n)%nat with (i + S n)%nat by lia. reflexivity.
Qed.

Lemma move_loop_all flip src total :
  move_loop (length src) 0 flip src (zeros_like src) total =
    Ok (map (slide flip) src,
        fold_left (fun total line => Int64.add total (slide_score flip line))
                  src total).
Proof.
  rewrite move_loop_spec by (unfold zeros_like; rewrite ?length_map; lia).
  rewrite drop_0, firstn_all, drop_ge
    by (unfold zeros_like; rewrite length_map; cbn; lia).
  cbn [take app]. rewrite app_nil_r. reflexivity.
Qed.

(** *** Shapes *)

Lemma slide_length flip line : length (slide flip line) = length line.
Proof.
  unfold slide. destruct flip;
    rewrite ?length_rev, combine_line_length, ?length_rev; reflexivity.
Qed.

Lemma square_ncols n g : square n g -> ncols g = n.
Proof.
  intros [Hlen Hrows]. unfold ncols. destruct g as [|row g]; simpl in *.
  - exact Hlen.
  - apply Forall_cons_1 in Hrows as [Hrow _]. exact Hrow.
Qed.

Lemma square_transpose n g : square n g -> square n (transpose g).
Proof.
  intros Hsq. pose proof (square_ncols _ _ Hsq) as Hc.
  destruct Hsq as [Hlen Hrows]. unfold transpose. rewrite Hc. split.
  - rewrite length_map, length_seq. reflexivity.
  - apply List.Forall_forall. intros row Hrow.
    apply in_map_iff in Hrow as (j & <- & _). rewrite length_map. exact Hlen.
Qed.

Lemma square_map_slide n flip g : square n g -> square n (map (slide flip) g).
Proof.
  intros [Hlen Hrows]. split.
  - rewrite length_map. exact Hlen.
  - apply List.Forall_forall. intros row Hrow.
    apply in_map_iff in Hrow as (line & <- & Hin). rewrite slide_length.
    exact (proj1 (List.Forall_forall _ _) Hrows line Hin).
Qed.

Lemma square_resolved n direction g :
  square n g -> square n (resolved_grid direction g).
Proof.
  intros Hsq. unfold resolved_grid.
  destruct (str_in direction ["up"; "down"]%string).
  - apply square_transpose, square_map_slide, square_transpose, Hsq.
  - apply square_map_slide, Hsq.
Qed.

Lemma square_0 g : square 0 g -> g = [].
Proof. intros [Hlen _]. destruct g; [reflexivity|discriminate]. Qed.

Lemma square_flatten_nil n g : square n g -> flatten g = [] -> n = 0%nat.
Proof.
  intros [Hlen Hrows] Hflat. destruct g as [|row g]; [simpl in Hlen; lia|].
  apply Forall_cons_1 in Hrows as [Hrow _].
  unfold flatten in Hflat. simpl in Hflat.
  apply app_eq_nil in Hflat as [-> _]. simpl in Hrow. lia.
Qed.

Lemma np_max_square n g :
  square n g -> (0 < n)%nat -> np_max g = Ok (max_of (flatten g)).
Proof.
  intros Hsq Hn. unfold np_max.
  destruct (flatten g) eqn:Hflat; [|reflexivity].
  pose proof (square_flatten_nil _ _ Hsq Hflat). lia.
Qed.

Lemma valid_direction_str_in direction :
  valid_direction direction ->
  str_in direction ["up"; "down"; "left"; "right"]%string = true.
Proof.
  unfold valid_direction, directions.
  intros [<-|[<-|[<-|[<-|[]]]]]; reflexivity.
Qed.

(** *** [move] on a well-formed board *)

Lemma move_spec direction self :
  wf_board self -> valid_direction direction ->
  move direction self =
    Ok (if decide (resolved_grid direction (_grid self) = _grid self)
        then (false, self)
        else (true, commit self (resolved_grid direction (_grid self))
                      (resolved_score direction (_grid self)))).
Proof.
  intros Hwf Hdir. unfold move.
  rewrite (valid_direction_str_in _ Hdir). cbn [negb].
  pose proof (square_resolved _ direction _ Hwf) as Hres.
  unfold resolved_grid, resolved_score in *.
  set (vertical := str_in direction ["up"; "down"]%string) in *.
  set (flip := str_in direction ["right"; "down"]%string) in *.
  set (src := if vertical then transpose (_grid self) else _grid self) in *.
  assert (Hsrc : length src = size self).
  { subst src. destruct vertical.
    - apply (square_transpose _ _ Hwf).
    - apply Hwf. }
  rewrite <- Hsrc at 1. rewrite move_loop_all.
  destruct (decide ((if vertical then transpose (map (slide flip) src)
                     else map (slide flip) src) = _grid self)) as [Heq|Hne];
    [reflexivity|].
  destruct (Nat.eq_dec (size self) 0%nat) as [Hz|Hnz].
  - exfalso. apply Hne. unfold wf_board in Hwf. rewrite Hz in *.
    rewrite (square_0 _ Hres), (square_0 _ Hwf). reflexivity.
  - rewrite (np_max_square _ _ Hres) by lia. reflexivity.
Qed.

(** A successful or failed move keeps the board well formed. *)
Lemma move_wf direction self r self' :
  wf_board self -> move direction self = Ok (r, self') -> wf_board self'.
Proof.
  intros Hwf Hmove.
  destruct (str_in direction ["up"; "down"; "left"; "right"]%string) eqn:Hd.
  - assert (Hv : valid_direction direction).
    { unfold str_in in Hd. apply existsb_exists in Hd as (d & Hin & Heq).
      apply String.eqb_eq in Heq. subst d. exact Hin. }
    rewrite (move_spec _ _ Hwf Hv) in Hmove.
    destruct (decide _); injection Hmove as <- <-; [exact Hwf|].
    apply square_resolved, Hwf.
  - unfold move in Hmove. rewrite Hd in Hmove. cbn in Hmove.
    injection Hmove as <- <-. exact Hwf.
Qed.

Lemma not_valid_direction_str_in direction :
  ~ valid_direction direction ->
  str_in direction ["up"; "down"; "left"; "right"]%string = false.
Proof.
  intros Hnot. apply not_true_is_false. intros Hin. apply Hnot.
  unfold str_in in Hin. apply existsb_exists in Hin as (d & Hd & Heq).
  apply String.eqb_eq in Heq. subst d. exact Hd.
Qed.

(** C2. On a well-formed board [move] returns [False] and leaves the whole
    board (grid, score, high tile, won flag, high score) as it was, both
    for a direction outside the four names and when the resolved grid equals
    the grid before the move; it commits a new state only when the grid has
    changed. *)
Theorem move_rejected_no_mutation (self : Board) (direction : string) :
  wf_board self ->
  (~ valid_direction direction -> move direction self = Ok (false, self)) /\
  (valid_direction direction ->
   resolved_grid direction (_grid self) = _grid self ->
   move direction self = Ok (false, self)) /\
  (valid_direction direction ->
   resolved_grid direction (_grid self) <> _grid self ->
   exists self', move direction self = Ok (true, self') /\
                 _grid self' = resolved_grid direction (_grid self) /\
                 _grid self' <> _grid self).
Proof.
  intros Hwf. split; [|split].
  - intros Hnot. unfold move.
    rewrite (not_valid_direction_str_in _ Hnot). reflexivity.
  - intros Hdir Hsame. rewrite (move_spec _ _ Hwf Hdir).
    destruct (decide _); [reflexivity|contradiction].
  - intros Hdir Hchanged. rewrite (move_spec _ _ Hwf Hdir).
    destruct (decide _); [contradiction|].
    eexists. split; [reflexivity|]. split; [reflexivity|exact Hchanged].
Qed.

(** The two rejected moves of the unit tests: an unknown direction, and a
    tile that already rests against the left edge. *)
Lemma move_rejected_no_mutation_witness :
  let b := board_of 4 [[2; 0; 0; 0]; [0; 0; 0; 0]; [0; 0; 0; 0]; [0; 0; 0; 0]] in
  move "invalid" b = Ok (false, b) /\ move "left" b = Ok (false, b).
Proof.
  intros b.
  assert (Hwf : wf_board b) by wf_by_computation.
  destruct (move_rejected_no_mutation b "invalid" Hwf) as [H1 _].
  destruct (move_rejected_no_mutation b "left" Hwf) as (_ & H2 & _).
  split.
  - apply H1. intros [H|[H|[H|[H|[]]]]]; discriminate H.
  - apply H2; [right; right; left; reflexivity|reflexivity].
Defined.

(* ================================================================== *)
(** ** Repeating a move to the left *)

Lemma resolve_scan_nonzero values :
  Forall (fun v => 0 <= v <= Int64.max_signed) values ->
  Forall (fun v => v <> 0) values ->
  Forall (fun v => v <> 0) (fst (resolve_scan values)).
Proof.
  induction values as [|x|x rest IH|x y rest Hne IH] using scan_ind;
    intros Hr Hnz; try assumption; rewrite resolve_scan_cons2.
  - rewrite Z.eqb_refl. cbn [fst].
    apply Forall_cons_1 in Hr as [Hx Hr]. apply Forall_cons_1 in Hr as [_ Hr].
    apply Forall_cons_1 in Hnz as [Hx0 Hnz]. apply Forall_cons_1 in Hnz as [_ Hnz].
    constructor; [|apply IH; assumption].
    rewrite add_self_mul. apply wrap_double_nonzero. lia.
  - destruct (Z.eqb_spec x y); [contradiction|]. cbn [fst].
    apply Forall_cons_1 in Hr as [Hx Hr].
    apply Forall_cons_1 in Hnz as [Hx0 Hnz].
    constructor; [assumption|apply IH; assumption].
Qed.

Lemma resolve_scan_shrinks values :
  no_equal_pair values = false ->
  (length (fst (resolve_scan values)) < length values)%nat.
Proof.
  induction values as [|x|x rest IH|x y rest Hne IH] using scan_ind;
    intros Hpair; try discriminate; rewrite resolve_scan_cons2.
  - rewrite Z.eqb_refl. cbn [fst length].
    pose proof (resolve_scan_length rest). lia.
  - destruct (Z.eqb_spec x y); [contradiction|]. cbn [fst length].
    change (no_equal_pair (x :: y :: rest))
      with (negb (x =? y) && no_equal_pair (y :: rest))%bool in Hpair.
    destruct (Z.eqb_spec x y); [contradiction|]. cbn in Hpair.
    specialize (IH Hpair). cbn [length] in IH. lia.
Qed.

Lemma combine_line_compact line :
  Forall (fun v => 0 <= v <= Int64.max_signed) line ->
  compact (fst (combine_line line)).
Proof.
  intros Hr. rewrite combine_line_resolve. unfold resolve.
  pose proof (resolve_scan_nonzero (non_zero_of line)
                (Forall_non_zero_of _ _ Hr) (non_zero_of_Forall line)) as Hnz.
  destruct (resolve_scan (non_zero_of line)) as [out gained]. cbn [fst] in *.
  exists out, (length line - length out)%nat. split; [reflexivity|assumption].
Qed.

Lemma non_zero_of_compact tiles k :
  Forall (fun v => v <> 0) tiles -> non_zero_of (tiles ++ repeat 0 k) = tiles.
Proof.
  intros H. rewrite non_zero_of_app, non_zero_of_repeat_0, app_nil_r.
  apply non_zero_of_id, H.
Qed.

(** A compact line is left alone exactly when no two neighbouring tiles are
    equal. *)
Lemma combine_line_fixed line :
  compact line ->
  fst (combine_line line) = line <-> has_equal_pair line = false.
Proof.
  intros (tiles & k & -> & Hnz). unfold has_equal_pair.
  rewrite combine_line_resolve. unfold resolve.
  rewrite (non_zero_of_compact _ _ Hnz).
  destruct (no_equal_pair tiles) eqn:Hpair; cbn [negb].
  - rewrite (resolve_scan_no_pair _ Hpair). cbn [fst].
    rewrite length_app, repeat_length.
    replace (length tiles + k - length tiles)%nat with k by lia. tauto.
  - split; [|discriminate]. intros Heq. exfalso.
    pose proof (resolve_scan_shrinks _ Hpair) as Hlt.
    destruct (resolve_scan tiles) as [out gained]. cbn [fst] in *.
    apply (f_equal non_zero_of) in Heq.
    rewrite (non_zero_of_compact _ _ Hnz) in Heq.
    rewrite non_zero_of_app, non_zero_of_repeat_0, app_nil_r in Heq.
    pose proof (non_zero_of_length out) as Hle. rewrite Heq in Hle. lia.
Qed.

Lemma map_fixed {A : Type} (f : A -> A) (l : list A) :
  map f l = l <-> Forall (fun x => f x = x) l.
Proof.
  induction l as [|x l IH]; cbn [map].
  - split; [constructor|reflexivity].
  - split.
    + intros H. injection H as Hx Hl. constructor; [assumption|apply IH, Hl].
    + intros H. apply Forall_cons_1 in H as [Hx Hl].
      rewrite Hx. f_equal. apply IH, Hl.
Qed.

Lemma left_is_valid : valid_direction "left".
Proof. right; right; left; reflexivity. Qed.

Lemma resolved_grid_left g : resolved_grid "left" g = map (slide false) g.
Proof. reflexivity. Qed.

(** After a move to the left — accepted or not — the grid is the resolved
    grid, and each of its rows is compact. *)
Lemma move_left_grid self r self' :
  wf_board self -> move "left" self = Ok (r, self') ->
  _grid self' = resolved_grid "left" (_grid self).
Proof.
  intros Hwf Hmove. rewrite (move_spec _ _ Hwf left_is_valid) in Hmove.
  destruct (decide _) as [Heq|Hne]; injection Hmove as <- <-.
  - symmetry. exact Heq.
  - reflexivity.
Qed.

(** C5, as the code has it.  On a board of non-negative cells, two moves to
    the left in a row both return; after the first one every row is compact,
    and the second one returns [False] exactly when no row then holds two
    equal neighbouring tiles.  In particular it returns [False] when the
    first one did. *)
Theorem second_move_left (self : Board) :
  wf_board self -> cells_nonneg (_grid self) ->
  exists r1 self1 r2 self2,
    move "left" self = Ok (r1, self1) /\
    move "left" self1 = Ok (r2, self2) /\
    Forall compact (_grid self1) /\
    (r2 = false <-> Forall (fun row => has_equal_pair row = false) (_grid self1)) /\
    (r1 = false -> r2 = false).
Proof.
  intros Hwf Hcells.
  destruct (move "left" self) as [[r1 self1]|e] eqn:Hm1.
  2:{ rewrite (move_spec _ _ Hwf left_is_valid) in Hm1. discriminate. }
  pose proof (move_wf _ _ _ _ Hwf Hm1) as Hwf1.
  pose proof (move_left_grid _ _ _ Hwf Hm1) as Hg1.
  assert (Hcompact : Forall compact (_grid self1)).
  { rewrite Hg1, resolved_grid_left. apply List.Forall_forall.
    intros row Hrow. apply in_map_iff in Hrow as (line & <- & Hin).
    apply combine_line_compact.
    exact (proj1 (List.Forall_forall _ _) Hcells line Hin). }
  assert (Hfix : forall row, In row (_grid self1) ->
            (slide false row = row <-> has_equal_pair row = false)).
  { intros row Hin. apply combine_line_fixed.
    exact (proj1 (List.Forall_forall _ _) Hcompact row Hin). }
  assert (Hfirst : r1 = false ->
            resolved_grid "left" (_grid self1) = _grid self1).
  { intros ->. rewrite (move_spec _ _ Hwf left_is_valid) in Hm1.
    destruct (decide (resolved_grid "left" (_grid self) = _grid self))
      as [Heq|Hne]; [|discriminate].
    injection Hm1 as <-. exact Heq. }
  exists r1, self1.
  rewrite (move_spec _ _ Hwf1 left_is_valid).
  destruct (decide (resolved_grid "left" (_grid self1) = _grid self1))
    as [Heq|Hne].
  - exists false, self1.
    split; [reflexivity|]. split; [reflexivity|]. split; [exact Hcompact|].
    split; [|reflexivity]. split; [intros _|reflexivity].
    rewrite resolved_grid_left in Heq. apply map_fixed in Heq.
    apply List.Forall_forall. intros row Hin. apply (Hfix row Hin).
    exact (proj1 (List.Forall_forall _ _) Heq row Hin).
  - eexists true, _.
    split; [reflexivity|]. split; [reflexivity|]. split; [exact Hcompact|].
    split; [split; [discriminate|]|].
    + intros Hpairs. exfalso. apply Hne. rewrite resolved_grid_left.
      apply map_fixed, List.Forall_forall. intros row Hin.
      apply (Hfix row Hin).
      exact (proj1 (List.Forall_forall _ _) Hpairs row Hin).
    + intros Hr1. exfalso. exact (Hne (Hfirst Hr1)).
Qed.

Lemma second_move_left_witness :
  let b := board_of 4 [[2; 2; 4; 0]; [0; 4; 0; 4]; [2; 0; 0; 0]; [0; 0; 0; 0]] in
  exists r1 self1 r2 self2,
    move "left" b = Ok (r1, self1) /\
    move "left" self1 = Ok (r2, self2) /\
    Forall compact (_grid self1) /\
    (r2 = false <-> Forall (fun row => has_equal_pair row = false) (_grid self1)) /\
    (r1 = false -> r2 = false).
Proof.
  intros b. apply (second_move_left b).
  - wf_by_computation.
  - cells_by_computation.
Defined.

(** C5 as stated fails: after [[2,2,4,0]] has moved left to [[4,4,0,0]], a
    second move to the left merges again and returns [True]. *)
Lemma second_move_left_may_succeed :
  let b0 := board_of 4 [[2; 2; 4; 0]; [0; 0; 0; 0]; [0; 0; 0; 0]; [0; 0; 0; 0]] in
  exists b1 b2,
    move "left" b0 = Ok (true, b1) /\
    _grid b1 = [[4; 4; 0; 0]; [0; 0; 0; 0]; [0; 0; 0; 0]; [0; 0; 0; 0]] /\
    move "left" b1 = Ok (true, b2) /\
    _grid b2 = [[8; 0; 0; 0]; [0; 0; 0; 0]; [0; 0; 0; 0]; [0; 0; 0; 0]].
Proof.
  intros b0. eexists _, _.
  split; [vm_compute; reflexivity|].
  split; [reflexivity|].
  split; [vm_compute; reflexivity|reflexivity].
Qed.

(* ================================================================== *)
(** ** Reaching 2048 *)

Lemma max_of_spec l m : In m l -> Forall (fun v => v <= m) l -> max_of l = m.
Proof.
  destruct l as [|x xs]; [intros []|]. intros Hin Hmax. unfold max_of.
  apply Forall_cons_1 in Hmax as [Hx Hxs].
  assert (Hgen : forall acc, acc <= m -> (acc = m \/ In m xs) ->
                             fold_left Z.max xs acc = m).
  { clear Hin Hx. induction xs as [|y ys IH]; intros acc Hacc Hor; cbn [fold_left].
    - destruct Hor as [->|[]]. reflexivity.
    - apply Forall_cons_1 in Hxs as [Hy Hys]. apply IH; [assumption|lia|].
      destruct Hor as [->|[->|Hin]]; [left; lia|left; lia|right; assumption]. }
  apply Hgen; [assumption|]. destruct Hin as [->|Hin]; [left|right]; auto.
Qed.

Lemma resolve_scan_bound B values :
  2 * B <= Int64.max_signed ->
  Forall (fun v => 0 <= v <= B) values ->
  Forall (fun v => 0 <= v <= 2 * B) (fst (resolve_scan values)).
Proof.
  intros HB.
  induction values as [|x|x rest IH|x y rest Hne IH] using scan_ind;
    intros Hr; try rewrite resolve_scan_cons2.
  - constructor.
  - apply Forall_cons_1 in Hr as [Hx _]. repeat constructor; lia.
  - rewrite Z.eqb_refl. cbn [fst].
    apply Forall_cons_1 in Hr as [Hx Hr]. apply Forall_cons_1 in Hr as [_ Hr].
    constructor; [|apply IH, Hr].
    unfold Int64.add. rewrite wrap_id
      by (unfold Int64.in_range, Int64.min_signed, Int64.max_signed in *; lia).
    lia.
  - destruct (Z.eqb_spec x y); [contradiction|]. cbn [fst].
    apply Forall_cons_1 in Hr as [Hx Hr].
    constructor; [lia|apply IH, Hr].
Qed.

Lemma combine_line_bound B line :
  0 <= B -> 2 * B <= Int64.max_signed ->
  Forall (fun v => 0 <= v <= B) line ->
  Forall (fun v => 0 <= v <= 2 * B) (fst (combine_line line)).
Proof.
  intros H0 HB Hr. rewrite combine_line_resolve. unfold resolve.
  pose proof (resolve_scan_bound B (non_zero_of line) HB
                (Forall_non_zero_of _ _ Hr)) as Hout.
  destruct (resolve_scan (non_zero_of line)) as [out gained]. cbn [fst] in *.
  apply Forall_app. split; [assumption|].
  apply List.Forall_forall. intros v Hv. apply repeat_spec in Hv. lia.
Qed.

(** The flag after a move, whatever the board: it is raised when the move
    is accepted with a high tile of 2048 or more, and never lowered. *)
Lemma move_won direction self r self' :
  move direction self = Ok (r, self') ->
  _won self' = (_won self || (r && (2048 <=? _high_tile self')))%bool.
Proof.
  unfold move. intros H.
  destruct (negb _); [injection H as <- <-; cbn; rewrite orb_false_r; reflexivity|].
  destruct (move_loop _ _ _ _ _ _) as [[new_grid total]|e]; [|discriminate].
  destruct (decide _);
    [injection H as <- <-; cbn; rewrite orb_false_r; reflexivity|].
  destruct (np_max _) as [high|e]; [|discriminate].
  injection H as <- <-. cbn.
  destruct (2048 <=? high), (_won self); reflexivity.
Qed.

Lemma move_rejected_same direction self self' :
  move direction self = Ok (false, self') -> self' = self.
Proof.
  unfold move. intros H.
  destruct (negb _); [injection H as <-; reflexivity|].
  destruct (move_loop _ _ _ _ _ _) as [[new_grid total]|e]; [|discriminate].
  destruct (decide _); [injection H as <-; reflexivity|].
  destruct (np_max _) as [high|e]; discriminate.
Qed.

Lemma place_fields b row col value b' :
  place b row col value = Ok b' ->
  _won b' = _won b /\ _high_tile b' = _high_tile b /\ _score b' = _score b /\
  size b' = size b.
Proof.
  unfold place. destruct (set_cell _ _ _ _) as [g|e]; [|discriminate].
  cbn. intros H. injection H as <-. repeat split.
Qed.

Lemma step_won a b b' :
  flag_follows_tile b -> step a b = Ok b' ->
  flag_follows_tile b' /\
  _won b' = (_won b || (2048 <=? _high_tile b'))%bool.
Proof.
  intros Hinv Hstep. destruct a as [direction|row col value]; cbn in Hstep.
  - destruct (move direction b) as [[r b1]|e] eqn:Hmove; [|discriminate].
    cbn in Hstep. injection Hstep as ->.
    pose proof (move_won _ _ _ _ Hmove) as Hwon.
    destruct r.
    + cbn in Hwon. split; [|exact Hwon].
      intros Hdown. rewrite Hdown in Hwon.
      destruct (_won b); [discriminate|].
      destruct (Z.leb_spec 2048 (_high_tile b')); [discriminate|assumption].
    + apply move_rejected_same in Hmove. subst b'. split; [exact Hinv|].
      destruct (_won b) eqn:Hw; [reflexivity|].
      specialize (Hinv Hw). symmetry. apply Z.leb_gt. exact Hinv.
  - apply place_fields in Hstep as (Hw & Hh & _).
    unfold flag_follows_tile in *. rewrite Hw, Hh. split; [exact Hinv|].
    destruct (_won b) eqn:Hwb; [reflexivity|].
    specialize (Hinv eq_refl). symmetry. apply Z.leb_gt. exact Hinv.
Qed.

Lemma last_cons_default {A : Type} (l : list A) : forall x d,
  List.last (x :: l) d = List.last l x.
Proof.
  induction l as [|y l IH]; intros x d; [reflexivity|].
  change (List.last (x :: y :: l) d) with (List.last (y :: l) d).
  rewrite !IH. reflexivity.
Qed.

Lemma play_won actions : forall b trace,
  flag_follows_tile b -> play actions b = Ok trace ->
  _won (List.last trace b) =
    (_won b || existsb (fun s => 2048 <=? _high_tile s) trace)%bool.
Proof.
  induction actions as [|a rest IH]; intros b trace Hinv Hplay; cbn in Hplay.
  - injection Hplay as <-. cbn. rewrite orb_false_r. reflexivity.
  - destruct (step a b) as [b'|e] eqn:Hstep; [|discriminate]. cbn in Hplay.
    destruct (play rest b') as [trace'|e] eqn:Hrest; [|discriminate].
    cbn in Hplay. injection Hplay as <-.
    destruct (step_won _ _ _ Hinv Hstep) as [Hinv' Hwon].
    specialize (IH b' trace' Hinv' Hrest).
    cbn [existsb]. rewrite orb_assoc, <- Hwon, <- IH.
    rewrite last_cons_default. reflexivity.
Qed.

Lemma In_flatten v row (g : grid) : In row g -> In v row -> In v (flatten g).
Proof. intros Hrow Hv. apply in_concat. exists row. split; assumption. Qed.

Lemma Forall_flatten (P : Z -> Prop) (g : grid) :
  Forall (Forall P) g -> Forall P (flatten g).
Proof.
  induction 1 as [|row g Hrow Hg IH]; [constructor|].
  unfold flatten. cbn. apply Forall_app. split; assumption.
Qed.

(** C8. A move to the left on a board that holds the row
    [[1024, 1024, 0, 0]] and no tile above 1024 is accepted, leaves
    [high_tile = 2048] and [won = True].  For any move, [won] afterwards is
    [won] before, or-ed with "the move was accepted with a high tile of
    2048 or more"; so along any sequence of moves and tile placements that
    starts with the flag down and the high tile below 2048, the flag is up
    exactly from the first board on whose high tile has reached 2048.
    The second part holds of every board: the code does not remember that
    2048 was reached before, and an accepted move that finds the flag down
    and a high tile of 2048 or more raises it, first time or not. *)
Theorem reaching_2048 :
  (forall self,
     wf_board self ->
     Forall (Forall (fun v => 0 <= v <= 1024)) (_grid self) ->
     In [1024; 1024; 0; 0] (_grid self) ->
     exists self', move "left" self = Ok (true, self') /\
                   _high_tile self' = 2048 /\ _won self' = true) /\
  (forall direction self r self',
     move direction self = Ok (r, self') ->
     _won self' = (_won self || (r && (2048 <=? _high_tile self')))%bool) /\
  (forall actions b trace,
     _won b = false -> _high_tile b < 2048 ->
     play actions b = Ok trace ->
     _won (List.last trace b) =
       existsb (fun s => 2048 <=? _high_tile s) trace).
Proof.
  split; [|split].
  - intros self Hwf Hcells Hrow.
    rewrite (move_spec _ _ Hwf left_is_valid), resolved_grid_left.
    destruct (decide (map (slide false) (_grid self) = _grid self)) as [Heq|Hne].
    { exfalso. apply map_fixed in Heq.
      pose proof (proj1 (List.Forall_forall _ _) Heq _ Hrow) as Hfix.
      vm_compute in Hfix. discriminate. }
    eexists. split; [reflexivity|].
    assert (Hmax : max_of (flatten (map (slide false) (_grid self))) = 2048).
    { apply max_of_spec.
      - apply (In_flatten _ (slide false [1024; 1024; 0; 0])).
        + apply in_map, Hrow.
        + left. reflexivity.
      - apply Forall_flatten, List.Forall_forall. intros row Hin.
        apply in_map_iff in Hin as (line & <- & Hin).
        pose proof (proj1 (List.Forall_forall _ _) Hcells _ Hin) as Hline.
        pose proof (combine_line_bound 1024 line ltac:(lia)
                      ltac:(unfold Int64.max_signed; lia) Hline) as Hb.
        unfold slide. eapply List.Forall_impl; [|exact Hb].
        cbn beta. intros v Hv. lia. }
    cbn. rewrite Hmax. cbn. split; [reflexivity|].
    destruct (_won self); reflexivity.
  - exact move_won.
  - intros actions b trace Hdown Htile Hplay.
    rewrite (play_won actions b trace); [rewrite Hdown; reflexivity| |exact Hplay].
    intros _. exact Htile.
Qed.

(** The board of the unit test [test_win_condition], and a game that goes
    on after the win. *)
Lemma reaching_2048_witness :
  let b := board_of 4 [[1024; 1024; 0; 0]; [0; 0; 0; 0]; [0; 0; 0; 0]; [0; 0; 0; 0]] in
  (exists self', move "left" b = Ok (true, self') /\
                 _high_tile self' = 2048 /\ _won self' = true) /\
  (exists trace,
     play [Move "left"; Place 3 3 2; Move "up"; Move "up"] b = Ok trace /\
     _won (List.last trace b) =
       existsb (fun s => 2048 <=? _high_tile s) trace).
Proof.
  intros b. destruct reaching_2048 as (H1 & _ & H3). split.
  - apply H1.
    + wf_by_computation.
    + repeat constructor; lia.
    + left. reflexivity.
  - destruct (play [Move "left"; Place 3 3 2; Move "up"; Move "up"] b)
      as [trace|e] eqn:Hplay; [|vm_compute in Hplay; discriminate].
    exists trace. split; [reflexivity|].
    eapply H3; [reflexivity|cbn; lia|exact Hplay].
Defined.

(** C8 fails where it says that later moves do not set [won] again.  The
    move to the left makes 2048 and raises the flag; a tile is spawned; the
    player chooses to go on and [main.py] lowers the flag; the next move,
    which merges nothing and leaves the high tile at 2048, raises the flag
    again. *)
Lemma won_set_again_after_continue :
  let b := board_of 4 [[1024; 1024; 0; 0]; [0; 0; 0; 0]; [0; 0; 0; 0]; [0; 0; 0; 0]] in
  exists b1 b2 b3,
    move "left" b = Ok (true, b1) /\
    _high_tile b1 = 2048 /\ _won b1 = true /\
    place b1 3 3 2 = Ok b2 /\
    _won (continue_after_win b2) = false /\
    move "up" (continue_after_win b2) = Ok (true, b3) /\
    _score b3 = _score b2 /\
    _high_tile b3 = 2048 /\ _won b3 = true.
Proof.
  intros b. eexists _, _, _.
  split; [vm_compute; reflexivity|]. split; [reflexivity|].
  split; [reflexivity|]. split; [vm_compute; reflexivity|].
  split; [reflexivity|]. split; [vm_compute; reflexivity|].
  split; [reflexivity|]. split; reflexivity.
Qed.

(* ================================================================== *)
(** ** Conservation of the tile mass by [move] *)

Lemma grid_sum_cons row (g : grid) :
  grid_sum (row :: g) = line_sum row + grid_sum g.
Proof. unfold grid_sum, flatten. cbn [concat]. apply line_sum_app. Qed.

Lemma map_nth_seq (l : list Z) :
  map (fun j => nth j l 0) (seq 0 (length l)) = l.
Proof.
  induction l as [|x l IH]; [reflexivity|].
  cbn [length seq map nth]. f_equal.
  rewrite <- seq_shift, map_map. exact IH.
Qed.

Lemma grid_sum_heads {A : Type} (a : A -> Z) (b : A -> list Z) (l : list A) :
  grid_sum (map (fun j => a j :: b j) l) =
    line_sum (map a l) + grid_sum (map b l).
Proof.
  induction l as [|j l IH]; [reflexivity|].
  cbn [map]. rewrite !grid_sum_cons, IH. cbn [line_sum fold_right].
  fold (line_sum (map a l)). fold (line_sum (b j)). lia.
Qed.

Lemma grid_sum_columns c (g : grid) :
  Forall (fun row => length row = c) g ->
  grid_sum (map (fun j => map (fun row => nth j row 0) g) (seq 0 c)) =
    grid_sum g.
Proof.
  induction 1 as [|row g Hrow Hg IH].
  - cbn [map]. induction (seq 0 c) as [|j l IHl]; [reflexivity|].
    cbn [map]. rewrite grid_sum_cons, IHl. reflexivity.
  - cbn [map]. rewrite grid_sum_heads, IH, grid_sum_cons.
    rewrite <- Hrow, map_nth_seq. reflexivity.
Qed.

Lemma grid_sum_transpose n g : square n g -> grid_sum (transpose g) = grid_sum g.
Proof.
  intros Hsq. unfold transpose. rewrite (square_ncols _ _ Hsq).
  apply grid_sum_columns, Hsq.
Qed.

Lemma slide_sum_wrap flip line : np_sum (slide flip line) = np_sum line.
Proof.
  unfold slide, np_sum. destruct flip.
  - rewrite line_sum_rev. fold (np_sum (fst (combine_line (rev line)))).
    rewrite combine_line_sum_wrap. unfold np_sum. rewrite line_sum_rev.
    reflexivity.
  - apply combine_line_sum_wrap.
Qed.

Lemma Forall_rev_Z (P : Z -> Prop) l : Forall P l -> Forall P (rev l).
Proof.
  intros H. apply List.Forall_forall. intros v Hv. apply in_rev in Hv.
  exact (proj1 (List.Forall_forall _ _) H v Hv).
Qed.

Lemma slide_sum_exact flip line :
  Forall (fun v => 0 <= v) line -> line_sum line <= Int64.max_signed ->
  line_sum (slide flip line) = line_sum line /\
  Forall (fun v => 0 <= v) (slide flip line).
Proof.
  intros Hpos Hsum. unfold slide. destruct flip.
  - destruct (combine_line_sum_exact (rev line)) as [H1 H2].
    { apply Forall_rev_Z, Hpos. }
    { rewrite line_sum_rev. exact Hsum. }
    rewrite line_sum_rev, H1, line_sum_rev. split; [reflexivity|].
    apply Forall_rev_Z, H2.
  - apply combine_line_sum_exact; assumption.
Qed.

Lemma map_slide_sum_wrap flip (g : grid) :
  Int64.wrap (grid_sum (map (slide flip) g)) = Int64.wrap (grid_sum g).
Proof.
  induction g as [|row g IH]; [reflexivity|].
  cbn [map]. rewrite !grid_sum_cons.
  rewrite <- wrap_add_l, <- wrap_add_r, IH.
  fold (np_sum (slide flip row)). rewrite slide_sum_wrap. unfold np_sum.
  rewrite wrap_add_l, wrap_add_r. reflexivity.
Qed.

Lemma grid_sum_nonneg (g : grid) :
  Forall (Forall (fun v => 0 <= v)) g -> 0 <= grid_sum g.
Proof. intros H. apply line_sum_nonneg, Forall_flatten, H. Qed.

Lemma map_slide_sum_exact flip (g : grid) :
  Forall (Forall (fun v => 0 <= v)) g -> grid_sum g <= Int64.max_signed ->
  grid_sum (map (slide flip) g) = grid_sum g /\
  Forall (Forall (fun v => 0 <= v)) (map (slide flip) g).
Proof.
  induction 1 as [|row g Hrow Hg IH]; intros Hsum.
  - split; [reflexivity|constructor].
  - rewrite grid_sum_cons in Hsum.
    pose proof (grid_sum_nonneg _ Hg). pose proof (line_sum_nonneg _ Hrow).
    destruct IH as [IH1 IH2]; [lia|].
    destruct (slide_sum_exact flip row Hrow ltac:(lia)) as [Hs1 Hs2].
    cbn [map]. rewrite !grid_sum_cons, IH1, Hs1.
    split; [reflexivity|constructor; assumption].
Qed.

Lemma transpose_nonneg (g : grid) :
  Forall (Forall (fun v => 0 <= v)) g ->
  Forall (Forall (fun v => 0 <= v)) (transpose g).
Proof.
  intros H. unfold transpose. apply List.Forall_forall. intros col Hcol.
  apply in_map_iff in Hcol as (j & <- & _).
  apply List.Forall_forall. intros v Hv.
  apply in_map_iff in Hv as (row & <- & Hrow).
  pose proof (proj1 (List.Forall_forall _ _) H row Hrow) as Hr.
  destruct (Nat.lt_ge_cases j (length row)) as [Hlt|Hge].
  - exact (proj1 (List.Forall_forall _ _) Hr _ (nth_In _ _ Hlt)).
  - rewrite nth_overflow by exact Hge. lia.
Qed.

Lemma resolved_grid_sum_wrap n direction g :
  square n g ->
  Int64.wrap (grid_sum (resolved_grid direction g)) = Int64.wrap (grid_sum g).
Proof.
  intros Hsq. unfold resolved_grid.
  destruct (str_in direction ["up"; "down"]%string).
  - rewrite (grid_sum_transpose n)
      by (apply square_map_slide, square_transpose, Hsq).
    rewrite map_slide_sum_wrap, (grid_sum_transpose n) by exact Hsq.
    reflexivity.
  - apply map_slide_sum_wrap.
Qed.

Lemma resolved_grid_sum_exact n direction g :
  square n g ->
  Forall (Forall (fun v => 0 <= v)) g -> grid_sum g <= Int64.max_signed ->
  grid_sum (resolved_grid direction g) = grid_sum g.
Proof.
  intros Hsq Hpos Hsum. unfold resolved_grid.
  destruct (str_in direction ["up"; "down"]%string).
  - rewrite (grid_sum_transpose n)
      by (apply square_map_slide, square_transpose, Hsq).
    destruct (map_slide_sum_exact
                (str_in direction ["right"; "down"]%string) (transpose g))
      as [H1 _].
    { apply transpose_nonneg, Hpos. }
    { rewrite (grid_sum_transpose n) by exact Hsq. exact Hsum. }
    rewrite H1. apply (grid_sum_transpose n), Hsq.
  - apply map_slide_sum_exact; assumption.
Qed.

Lemma move_grid direction self r self' :
  wf_board self -> move direction self = Ok (r, self') ->
  _grid self' = _grid self \/
  _grid self' = resolved_grid direction (_grid self).
Proof.
  intros Hwf Hmove.
  destruct (str_in direction ["up"; "down"; "left"; "right"]%string) eqn:Hd.
  - assert (Hv : valid_direction direction).
    { unfold str_in in Hd. apply existsb_exists in Hd as (d & Hin & Heq).
      apply String.eqb_eq in Heq. subst d. exact Hin. }
    rewrite (move_spec _ _ Hwf Hv) in Hmove.
    destruct (decide _); injection Hmove as <- <-; [left|right]; reflexivity.
  - unfold move in Hmove. rewrite Hd in Hmove. cbn in Hmove.
    injection Hmove as <- <-. left. reflexivity.
Qed.

(** C10. [combine_line] conserves the sum of a line: as [int64] sums for
    every line, and as integers whenever the line holds non-negative values
    whose sum fits in an [int64] (no merge can then overflow).  [Board.move]
    conserves the sum of the grid in the same two senses. *)
Theorem tile_mass_conserved :
  (forall line, np_sum (fst (combine_line line)) = np_sum line) /\
  (forall line,
     Forall (fun v => 0 <= v) line -> line_sum line <= Int64.max_signed ->
     line_sum (fst (combine_line line)) = line_sum line) /\
  (forall direction self r self',
     wf_board self -> move direction self = Ok (r, self') ->
     np_sum (flatten (_grid self')) = np_sum (flatten (_grid self))) /\
  (forall direction self r self',
     wf_board self ->
     Forall (Forall (fun v => 0 <= v)) (_grid self) ->
     grid_sum (_grid self) <= Int64.max_signed ->
     move direction self = Ok (r, self') ->
     grid_sum (_grid self') = grid_sum (_grid self)).
Proof.
  split; [exact combine_line_sum_wrap|].
  split; [intros line Hpos Hsum; apply combine_line_sum_exact; assumption|].
  split.
  - intros direction self r self' Hwf Hmove.
    destruct (move_grid _ _ _ _ Hwf Hmove) as [->| ->]; [reflexivity|].
    apply (resolved_grid_sum_wrap (size self)), Hwf.
  - intros direction self r self' Hwf Hpos Hsum Hmove.
    destruct (move_grid _ _ _ _ Hwf Hmove) as [->| ->]; [reflexivity|].
    apply (resolved_grid_sum_exact (size self)); assumption.
Qed.

Lemma tile_mass_conserved_witness :
  let b := board_of 4 [[2; 2; 4; 4]; [0; 8; 0; 8]; [2; 0; 2; 2]; [16; 0; 0; 0]] in
  line_sum (fst (combine_line [2; 2; 4; 4])) = line_sum [2; 2; 4; 4] /\
  exists self', move "down" b = Ok (true, self') /\
                grid_sum (_grid self') = grid_sum (_grid b).
Proof.
  intros b. destruct tile_mass_conserved as (_ & H2 & _ & H4). split.
  - apply H2; [repeat constructor; lia|cbn; unfold Int64.max_signed; lia].
  - destruct (move "down" b) as [[r self']|e] eqn:Hmove;
      [|vm_compute in Hmove; discriminate].
    assert (r = true) as ->
      by (vm_compute in Hmove; injection Hmove as <- _; reflexivity).
    exists self'. split; [reflexivity|].
    apply (H4 "down"%string b true self').
    + wf_by_computation.
    + repeat constructor; lia.
    + vm_compute. discriminate.
    + exact Hmove.
Defined.

(* ================================================================== *)
(** ** The terminal test *)

Lemma str_in_valid direction :
  str_in direction ["up"; "down"; "left"; "right"]%string = true ->
  valid_direction direction.
Proof.
  unfold str_in. intros Hd. apply existsb_exists in Hd as (d & Hin & Heq).
  apply String.eqb_eq in Heq. subst d. exact Hin.
Qed.

Lemma no_move_in_spec dirs self :
  wf_board self -> Forall valid_direction dirs ->
  no_move_in dirs self =
    Ok (forallb (fun d => bool_decide (resolved_grid d (_grid self) = _grid self))
                dirs).
Proof.
  intros Hwf. induction 1 as [|d dirs Hd Hdirs IH]; [reflexivity|].
  cbn [no_move_in forallb]. rewrite (move_spec _ _ Hwf Hd).
  destruct (decide (resolved_grid d (_grid self) = _grid self)) as [Heq|Hne].
  - rewrite (bool_decide_eq_true_2 _ Heq). cbn. exact IH.
  - rewrite (bool_decide_eq_false_2 _ Hne). reflexivity.
Qed.

Lemma directions_valid : Forall valid_direction directions.
Proof. apply List.Forall_forall. intros d Hd. exact Hd. Qed.

Lemma has_zero_spec (l : list Z) : existsb (Z.eqb 0) l = true <-> In 0 l.
Proof.
  rewrite existsb_exists. split.
  - intros (x & Hin & Heq). apply Z.eqb_eq in Heq. subst x. exact Hin.
  - intros Hin. exists 0. split; [exact Hin|reflexivity].
Qed.

(** [_is_terminal] on a well-formed board. *)
Lemma is_terminal_spec self :
  wf_board self ->
  _is_terminal self =
    Ok (negb (existsb (Z.eqb 0) (flatten (_grid self)))
        && forallb (fun d => bool_decide
                               (resolved_grid d (_grid self) = _grid self))
                   directions).
Proof.
  intros Hwf. unfold _is_terminal.
  destruct (existsb (Z.eqb 0) (flatten (_grid self))); [reflexivity|].
  apply (no_move_in_spec _ _ Hwf directions_valid).
Qed.

(** *** Checkerboards *)

Lemma no_equal_pair_cons2 x y l :
  no_equal_pair (x :: y :: l) = (negb (x =? y) && no_equal_pair (y :: l))%bool.
Proof. reflexivity. Qed.

Lemma no_equal_pair_nth l :
  no_equal_pair l = true <->
  forall i, (S i < length l)%nat -> nth i l 0 <> nth (S i) l 0.
Proof.
  induction l as [|x l IH]; [split; [intros _ i Hi; cbn in Hi; lia|reflexivity]|].
  destruct l as [|y l].
  - split; [intros _ i Hi; cbn in Hi; lia|reflexivity].
  - rewrite no_equal_pair_cons2, andb_true_iff, IH, negb_true_iff, Z.eqb_neq.
    split.
    + intros [Hxy Hrest] [|i] Hi; [exact Hxy|].
      apply (Hrest i). cbn [length] in *. lia.
    + intros H. split; [apply (H 0%nat); cbn; lia|].
      intros i Hi. apply (H (S i)). cbn [length] in *. lia.
Qed.

Lemma no_equal_pair_rev l : no_equal_pair l = true -> no_equal_pair (rev l) = true.
Proof.
  rewrite !no_equal_pair_nth. intros H i Hi. rewrite length_rev in Hi.
  rewrite !rev_nth by lia.
  replace (length l - S i)%nat with (S (length l - S (S i))) by lia.
  intros Heq. apply (H (length l - S (S i))%nat); [lia|]. symmetry. exact Heq.
Qed.

Lemma nth_map_seq (f : nat -> Z) n j :
  (j < n)%nat -> nth j (map f (seq 0 n)) 0 = f j.
Proof.
  intros Hj.
  rewrite (nth_indep _ 0 (f 0%nat)) by (rewrite length_map, length_seq; exact Hj).
  rewrite map_nth, seq_nth by exact Hj. reflexivity.
Qed.

Section Checkerboard.

Variables a b : Z.
Hypothesis a_nonzero : a <> 0.
Hypothesis b_nonzero : b <> 0.
Hypothesis a_b_differ : a <> b.

Lemma checker_row_length n i : length (checker_row a b n i) = n.
Proof. unfold checker_row. rewrite length_map, length_seq. reflexivity. Qed.

Lemma checker_row_nth n i j :
  (j < n)%nat ->
  nth j (checker_row a b n i) 0 = if Nat.even (i + j) then a else b.
Proof.
  intros Hj. unfold checker_row. rewrite nth_map_seq by exact Hj. reflexivity.
Qed.

Lemma checker_row_nonzero n i : Forall (fun v => v <> 0) (checker_row a b n i).
Proof using a_nonzero b_nonzero.
  apply List.Forall_forall. intros v Hv.
  apply in_map_iff in Hv as (j & <- & _).
  destruct (Nat.even (i + j)); assumption.
Qed.

Lemma checker_row_no_pair n i : no_equal_pair (checker_row a b n i) = true.
Proof using a_b_differ.
  apply no_equal_pair_nth. intros j Hj. rewrite checker_row_length in Hj.
  rewrite !checker_row_nth by lia.
  replace (i + S j)%nat with (S (i + j)) by lia. rewrite Nat.even_succ.
  rewrite <- Nat.negb_even.
  destruct (Nat.even (i + j)); cbn; [exact a_b_differ|].
  intros Heq. apply a_b_differ. symmetry. exact Heq.
Qed.

Lemma checker_row_slide flip n i :
  slide flip (checker_row a b n i) = checker_row a b n i.
Proof using a_nonzero b_nonzero a_b_differ.
  unfold slide. destruct flip.
  - rewrite combine_line_no_pair.
    + apply rev_involutive.
    + apply Forall_rev_Z, checker_row_nonzero.
    + apply no_equal_pair_rev, checker_row_no_pair.
  - rewrite combine_line_no_pair;
      [reflexivity|apply checker_row_nonzero|apply checker_row_no_pair].
Qed.

Lemma checkerboard_square n : square n (checkerboard a b n).
Proof.
  unfold checkerboard. split.
  - rewrite length_map, length_seq. reflexivity.
  - apply List.Forall_forall. intros row Hrow.
    apply in_map_iff in Hrow as (i & <- & _). apply checker_row_length.
Qed.

Lemma checkerboard_transpose n :
  transpose (checkerboard a b n) = checkerboard a b n.
Proof.
  unfold transpose. rewrite (square_ncols _ _ (checkerboard_square n)).
  unfold checkerboard at 2. apply map_ext_in. intros j Hj.
  apply in_seq in Hj. unfold checkerboard. rewrite map_map.
  unfold checker_row at 2. apply map_ext_in. intros i Hi.
  rewrite checker_row_nth by lia. rewrite Nat.add_comm. reflexivity.
Qed.

Lemma checkerboard_map_slide flip n :
  map (slide flip) (checkerboard a b n) = checkerboard a b n.
Proof using a_nonzero b_nonzero a_b_differ.
  apply map_fixed, List.Forall_forall. intros row Hrow.
  apply in_map_iff in Hrow as (i & <- & _). apply checker_row_slide.
Qed.

Lemma checkerboard_resolved direction n :
  resolved_grid direction (checkerboard a b n) = checkerboard a b n.
Proof using a_nonzero b_nonzero a_b_differ.
  unfold resolved_grid.
  destruct (str_in direction ["up"; "down"]%string).
  - rewrite checkerboard_transpose, checkerboard_map_slide.
    apply checkerboard_transpose.
  - apply checkerboard_map_slide.
Qed.

Lemma checkerboard_full n : ~ In 0 (flatten (checkerboard a b n)).
Proof using a_nonzero b_nonzero.
  intros Hin. apply in_concat in Hin as (row & Hrow & Hv).
  apply in_map_iff in Hrow as (i & <- & _).
  exact (proj1 (List.Forall_forall _ _) (checker_row_nonzero n i) 0 Hv eq_refl).
Qed.

End Checkerboard.

Lemma set_cell_ok (g : grid) row col value line :
  g !! row = Some line -> (col < length line)%nat ->
  set_cell g row col value = Ok (<[row := <[col := value]> line]> g).
Proof.
  intros Hrow Hcol. unfold set_cell. rewrite Hrow.
  destruct (Nat.ltb_spec col (length line)); [reflexivity|lia].
Qed.

Lemma set_cell_In (g g' : grid) row col value :
  set_cell g row col value = Ok g' -> In value (flatten g').
Proof.
  unfold set_cell. destruct (g !! row) as [line|] eqn:Hrow; [|discriminate].
  destruct (Nat.ltb_spec col (length line)) as [Hcol|]; [|discriminate].
  intros H. injection H as <-.
  apply (In_flatten _ (<[col := value]> line)).
  - apply list_elem_of_In, list_elem_of_lookup. exists row.
    apply list_lookup_insert_eq. apply (lookup_lt_Some _ _ _ Hrow).
  - apply list_elem_of_In, list_elem_of_lookup. exists col.
    apply list_lookup_insert_eq. exact Hcol.
Qed.

Lemma square_lookup n (g : grid) row :
  square n g -> (row < n)%nat ->
  exists line, g !! row = Some line /\ length line = n.
Proof.
  intros [Hlen Hrows] Hrow.
  destruct (lookup_lt_is_Some_2 g row ltac:(lia)) as [line Hline].
  exists line. split; [exact Hline|].
  apply (proj1 (List.Forall_forall _ _) Hrows).
  apply list_elem_of_In, list_elem_of_lookup. exists row. exact Hline.
Qed.

Lemma square_set_cell n (g : grid) row col value :
  square n g -> (row < n)%nat -> (col < n)%nat ->
  exists g', set_cell g row col value = Ok g' /\ square n g'.
Proof.
  intros Hsq Hrow Hcol.
  destruct (square_lookup _ _ _ Hsq Hrow) as (line & Hline & Hlen).
  eexists. split; [apply (set_cell_ok _ _ _ _ _ Hline); lia|].
  destruct Hsq as [Hg Hrows]. split.
  - rewrite length_insert. exact Hg.
  - apply List.Forall_forall. intros l Hl.
    apply list_elem_of_In, list_elem_of_lookup in Hl as [i Hi].
    destruct (Nat.eq_dec row i) as [->|Hne].
    + rewrite list_lookup_insert_eq in Hi by lia.
      injection Hi as <-. rewrite length_insert. exact Hlen.
    + rewrite list_lookup_insert_ne in Hi by exact Hne.
      apply (proj1 (List.Forall_forall _ _) Hrows).
      apply list_elem_of_In, list_elem_of_lookup. exists i. exact Hi.
Qed.

(** C4. On a well-formed board [_is_terminal] returns; it returns [True]
    exactly when the grid has no empty cell and [move] is rejected in each
    of the four directions.  It returns [True] on a full checkerboard of two
    different values, and [False] once any one cell of that checkerboard is
    set to 0. *)
Theorem is_terminal_correct :
  (forall self, wf_board self ->
     exists t, _is_terminal self = Ok t /\
       (t = true <->
        ~ In 0 (flatten (_grid self)) /\
        forall direction, valid_direction direction ->
          move direction self = Ok (false, self))) /\
  (forall a b n self,
     a <> 0 -> b <> 0 -> a <> b ->
     size self = n -> _grid self = checkerboard a b n ->
     _is_terminal self = Ok true) /\
  (forall a b n self row col,
     a <> 0 -> b <> 0 -> a <> b ->
     size self = n -> _grid self = checkerboard a b n ->
     (row < n)%nat -> (col < n)%nat ->
     exists self', place self row col 0 = Ok self' /\
                   _is_terminal self' = Ok false).
Proof.
  split; [|split].
  - intros self Hwf. rewrite (is_terminal_spec _ Hwf).
    eexists. split; [reflexivity|].
    rewrite andb_true_iff, negb_true_iff, forallb_forall.
    rewrite <- not_true_iff_false, has_zero_spec.
    apply and_iff_compat_l. split.
    + intros H direction Hd. rewrite (move_spec _ _ Hwf Hd).
      specialize (H direction Hd). apply bool_decide_eq_true_1 in H.
      rewrite decide_True by exact H. reflexivity.
    + intros H direction Hd. specialize (H direction Hd).
      rewrite (move_spec _ _ Hwf Hd) in H. apply bool_decide_eq_true_2.
      destruct (decide _) as [Heq|Hne]; [exact Heq|discriminate].
  - intros a b n self Ha Hb Hab Hsize Hgrid.
    assert (Hwf : wf_board self).
    { unfold wf_board. rewrite Hsize, Hgrid. apply checkerboard_square. }
    rewrite (is_terminal_spec _ Hwf), Hgrid.
    destruct (existsb (Z.eqb 0) (flatten (checkerboard a b n))) eqn:Hz.
    { apply has_zero_spec in Hz. destruct (checkerboard_full a b Ha Hb n Hz). }
    cbn [negb andb]. f_equal. apply forallb_forall. intros d _.
    apply bool_decide_eq_true_2, checkerboard_resolved; assumption.
  - intros a b n self row col Ha Hb Hab Hsize Hgrid Hrow Hcol.
    destruct (square_set_cell n (checkerboard a b n) row col 0
                (checkerboard_square a b n) Hrow Hcol) as (g' & Hset & Hsq).
    exists (with_grid self g'). unfold place. rewrite Hgrid, Hset.
    split; [reflexivity|].
    unfold _is_terminal. cbn [_grid with_grid].
    rewrite (proj2 (has_zero_spec _) (set_cell_In _ _ _ _ _ Hset)).
    reflexivity.
Qed.

(** The two boards of the unit tests on game over. *)
Lemma is_terminal_correct_witness :
  _is_terminal (board_of 4 (checkerboard 2 4 4)) = Ok true /\
  (exists self', place (board_of 4 (checkerboard 2 4 4)) 2 3 0 = Ok self' /\
                 _is_terminal self' = Ok false) /\
  (exists t, _is_terminal (board_of 4 (checkerboard 2 4 4)) = Ok t /\
     (t = true <->
      ~ In 0 (flatten (checkerboard 2 4 4)) /\
      forall direction, valid_direction direction ->
        move direction (board_of 4 (checkerboard 2 4 4)) =
          Ok (false, board_of 4 (checkerboard 2 4 4)))).
Proof.
  destruct is_terminal_correct as (H1 & H2 & H3). split; [|split].
  - apply (H2 2 4 4%nat); (reflexivity || lia).
  - apply (H3 2 4 4%nat); (reflexivity || lia).
  - apply (H1 (board_of 4 (checkerboard 2 4 4))). wf_by_computation.
Defined.

(* ================================================================== *)
(** ** Reasoning about computations that draw and may raise *)

Lemma post_ret {S A : Type} (a : A) (Q : A -> Prop) :
  Q a -> post (mret a : M S A) Q.
Proof. intros Ha s. exists a, s. split; [reflexivity|exact Ha]. Qed.

Lemma post_bind {S A B : Type} (m : M S A) (k : A -> M S B)
    (Q : A -> Prop) (R : B -> Prop) :
  post m Q -> (forall a, Q a -> post (k a) R) -> post (m ≫= k) R.
Proof.
  intros Hm Hk s. destruct (Hm s) as (a & s' & Hrun & Ha).
  destruct (Hk a Ha s') as (b & s'' & Hrun' & Hb).
  exists b, s''. split; [|exact Hb].
  unfold mbind, M_bind. rewrite Hrun. exact Hrun'.
Qed.

Lemma post_lift {S A : Type} (r : result A) (a : A) (Q : A -> Prop) :
  r = Ok a -> Q a -> post (lift r : M S A) Q.
Proof. intros -> Ha s. exists a, s. split; [reflexivity|exact Ha]. Qed.

Lemma post_draw {S A : Type} (d : S -> A * S) (Q : A -> Prop) :
  (forall s, Q (fst (d s))) -> post (draw d) Q.
Proof.
  intros Hd s. exists (fst (d s)), (snd (d s)). split; [|apply Hd].
  unfold draw. destruct (d s); reflexivity.
Qed.

Lemma post_weaken {S A : Type} (m : M S A) (Q R : A -> Prop) :
  post m Q -> (forall a, Q a -> R a) -> post m R.
Proof.
  intros Hm HQR s. destruct (Hm s) as (a & s' & Hrun & Ha).
  exists a, s'. split; [exact Hrun|apply HQR, Ha].
Qed.

(** ** Empty cells *)

Lemma where_zero_row_In row line r c :
  In (r, c) (where_zero_row row line) <->
  r = row /\ (c < length line)%nat /\ nth c line 0 = 0.
Proof.
  unfold where_zero_row. rewrite in_map_iff. split.
  - intros (col & Heq & Hin). injection Heq as <- <-.
    apply filter_In in Hin as [Hseq Hz]. apply in_seq in Hseq.
    apply Z.eqb_eq in Hz. repeat split; [lia|exact Hz].
  - intros (-> & Hc & Hz). exists c. split; [reflexivity|].
    apply filter_In. split; [apply in_seq; lia|apply Z.eqb_eq, Hz].
Qed.

Lemma where_zero_In (g : grid) r c :
  In (r, c) (where_zero g) <->
  exists line, g !! r = Some line /\ (c < length line)%nat /\ nth c line 0 = 0.
Proof.
  unfold where_zero. rewrite in_concat. split.
  - intros (cells & Hcells & Hin).
    apply list_elem_of_In, elem_of_lookup_imap in Hcells
      as (i & line & -> & Hline).
    apply where_zero_row_In in Hin as (-> & Hc & Hz).
    exists line. repeat split; assumption.
  - intros (line & Hline & Hc & Hz).
    exists (where_zero_row r line). split.
    + apply list_elem_of_In, elem_of_lookup_imap. exists r, line.
      split; [reflexivity|exact Hline].
    + apply where_zero_row_In. repeat split; assumption.
Qed.

Lemma where_zero_nil (g : grid) : where_zero g = [] <-> ~ In 0 (flatten g).
Proof.
  split.
  - intros Hnil Hin. apply in_concat in Hin as (line & Hline & Hz).
    apply list_elem_of_In, list_elem_of_lookup in Hline as [r Hr].
    apply (In_nth _ _ 0) in Hz as (c & Hc & Hz).
    assert (Hin : In (r, c) (where_zero g))
      by (apply where_zero_In; exists line; repeat split; assumption).
    rewrite Hnil in Hin. destruct Hin.
  - intros Hfull. destruct (where_zero g) as [|[r c] cells] eqn:Hw; [reflexivity|].
    exfalso. apply Hfull.
    assert (Hin : In (r, c) (where_zero g)) by (rewrite Hw; left; reflexivity).
    apply where_zero_In in Hin as (line & Hline & Hc & Hz).
    apply (In_flatten _ line).
    + apply list_elem_of_In, list_elem_of_lookup. exists r. exact Hline.
    + rewrite <- Hz. apply nth_In, Hc.
Qed.

Lemma where_zero_cell (g : grid) r c :
  In (r, c) (where_zero g) -> cell g r c = 0.
Proof.
  intros Hin. apply where_zero_In in Hin as (line & Hline & Hc & Hz).
  unfold cell. rewrite (nth_lookup_Some _ _ _ _ Hline). exact Hz.
Qed.

Lemma where_zero_square n (g : grid) r c :
  square n g -> In (r, c) (where_zero g) -> (r < n)%nat /\ (c < n)%nat.
Proof.
  intros [Hlen Hrows] Hin.
  apply where_zero_In in Hin as (line & Hline & Hc & Hz).
  pose proof (lookup_lt_Some _ _ _ Hline) as Hr.
  assert (Hl : length line = n).
  { apply (proj1 (List.Forall_forall _ _) Hrows).
    apply list_elem_of_In, list_elem_of_lookup. exists r. exact Hline. }
  lia.
Qed.

(** ** Placing a tile *)

Lemma cell_insert (g : grid) row col value line r c :
  g !! row = Some line -> (col < length line)%nat ->
  cell (<[row := <[col := value]> line]> g) r c =
    if decide (r = row /\ c = col) then value else cell g r c.
Proof.
  intros Hline Hcol. unfold cell.
  pose proof (lookup_lt_Some _ _ _ Hline) as Hrow.
  destruct (Nat.eq_dec r row) as [->|Hr].
  - rewrite (nth_lookup_Some _ _ _ (<[col := value]> line))
      by (apply list_lookup_insert_eq; exact Hrow).
    rewrite (nth_lookup_Some _ _ _ _ Hline).
    destruct (Nat.eq_dec c col) as [->|Hc].
    + rewrite decide_True by (split; reflexivity).
      apply nth_lookup_Some, list_lookup_insert_eq, Hcol.
    + rewrite decide_False by (intros [_ ?]; contradiction).
      rewrite !nth_lookup, list_lookup_insert_ne by (intros ->; contradiction).
      reflexivity.
  - rewrite decide_False by (intros [? _]; contradiction).
    rewrite !(nth_lookup _ r), list_lookup_insert_ne
      by (intros ->; contradiction).
    reflexivity.
Qed.

Lemma non_zero_of_insert line col value :
  (col < length line)%nat -> nth col line 0 = 0 -> value <> 0 ->
  length (non_zero_of (<[col := value]> line)) = S (length (non_zero_of line)).
Proof.
  intros Hcol Hz Hv.
  destruct (lookup_lt_is_Some_2 line col Hcol) as [x Hx].
  rewrite (nth_lookup_Some _ _ _ _ Hx) in Hz. subst x.
  rewrite insert_take_drop by exact Hcol.
  rewrite <- (take_drop_middle _ _ _ Hx) at 3.
  rewrite !non_zero_of_app. cbn [non_zero_of List.filter].
  destruct (Z.eqb_spec value 0); [contradiction|]. cbn [negb Z.eqb].
  rewrite !length_app. cbn [length]. lia.
Qed.

Lemma non_zero_of_concat (g : grid) :
  non_zero_of (flatten g) = concat (map non_zero_of g).
Proof.
  induction g as [|row g IH]; [reflexivity|].
  unfold flatten in *. cbn [concat map]. rewrite non_zero_of_app, IH.
  reflexivity.
Qed.

Lemma count_nonzero_insert (g : grid) row col value line :
  g !! row = Some line -> (col < length line)%nat -> nth col line 0 = 0 ->
  value <> 0 ->
  count_nonzero (<[row := <[col := value]> line]> g) = S (count_nonzero g).
Proof.
  intros Hline Hcol Hz Hv. unfold count_nonzero.
  pose proof (lookup_lt_Some _ _ _ Hline) as Hrow.
  rewrite insert_take_drop by exact Hrow.
  rewrite <- (take_drop_middle _ _ _ Hline) at 3.
  unfold flatten. rewrite !concat_app. cbn [concat].
  rewrite !non_zero_of_app, !length_app.
  rewrite (non_zero_of_insert _ _ _ Hcol Hz Hv). lia.
Qed.

(* ================================================================== *)
(** ** The search returns *)

Lemma move_size direction self r self' :
  move direction self = Ok (r, self') -> size self' = size self.
Proof.
  unfold move. intros H.
  destruct (negb _); [injection H as <- <-; reflexivity|].
  destruct (move_loop _ _ _ _ _ _) as [[new_grid total]|e]; [|discriminate].
  destruct (decide _); [injection H as <- <-; reflexivity|].
  destruct (np_max _) as [high|e]; [|discriminate].
  injection H as <- <-. reflexivity.
Qed.

Lemma move_returns direction self :
  wf_board self ->
  exists r self', move direction self = Ok (r, self') /\
                  wf_board self' /\ size self' = size self.
Proof.
  intros Hwf.
  destruct (move direction self) as [[r self']|e] eqn:Hmove.
  - exists r, self'. split; [reflexivity|].
    split; [exact (move_wf _ _ _ _ Hwf Hmove)|exact (move_size _ _ _ _ Hmove)].
  - exfalso.
    destruct (str_in direction ["up"; "down"; "left"; "right"]%string) eqn:Hd.
    + rewrite (move_spec _ _ Hwf (str_in_valid _ Hd)) in Hmove. discriminate.
    + unfold move in Hmove. rewrite Hd in Hmove. discriminate.
Qed.

Lemma place_returns self row col value :
  wf_board self -> (row < size self)%nat -> (col < size self)%nat ->
  exists g', set_cell (_grid self) row col value = Ok g' /\
             place self row col value = Ok (with_grid self g') /\
             wf_board (with_grid self g').
Proof.
  intros Hwf Hrow Hcol.
  destruct (square_set_cell _ _ row col value Hwf Hrow Hcol) as (g' & Hset & Hsq).
  exists g'. split; [exact Hset|]. unfold place. rewrite Hset.
  split; [reflexivity|exact Hsq].
Qed.

Section SearchReturns.

Context {F : Type} {arith : Arith F} {inf : NegInf F}.
Context {rng : Type} {random : RandomSource rng} {random_ok : RandomSourceOk rng}.

Lemma evaluate_board_returns n b :
  (0 < n)%nat -> sized n b ->
  _evaluate_board b = Ok (evaluate_board_value b).
Proof.
  intros Hn [Hwf Hsize]. unfold _evaluate_board.
  rewrite (np_max_square _ _ Hwf) by lia. reflexivity.
Qed.

Lemma max_loop_returns n (rec : Board -> M rng F) board :
  (forall b, sized n b -> post (rec b) (fun _ => True)) ->
  sized n board ->
  forall dirs max_value,
    post (max_loop rec board dirs max_value) (fun _ => True).
Proof.
  intros Hrec [Hwf Hsize]. induction dirs as [|d dirs IH]; intros max_value.
  - apply post_ret. exact I.
  - cbn [max_loop].
    destruct (move_returns d board Hwf) as (r & b' & Hmove & Hwf' & Hsize').
    eapply post_bind.
    + apply (post_lift _ _ (fun x => x = (r, b')) Hmove). reflexivity.
    + intros x ->. destruct r; [|apply IH].
      eapply post_bind.
      * apply Hrec. split; [exact Hwf'|congruence].
      * intros value _. apply IH.
Qed.

Lemma chance_loop_returns n (rec : Board -> M rng F) board :
  (forall b, sized n b -> post (rec b) (fun _ => True)) ->
  sized n board ->
  forall cells total_value,
    Forall (fun rc => (fst rc < n)%nat /\ (snd rc < n)%nat) cells ->
    post (chance_loop rec board cells total_value) (fun _ => True).
Proof.
  intros Hrec [Hwf Hsize]. induction cells as [|[row col] cells IH];
    intros total_value Hcells.
  - apply post_ret. exact I.
  - apply Forall_cons_1 in Hcells as [[Hrow Hcol] Hcells]. cbn in Hrow, Hcol.
    cbn [chance_loop].
    destruct (place_returns board row col 2 Hwf ltac:(lia) ltac:(lia))
      as (g2 & _ & Hp2 & Hwf2).
    destruct (place_returns board row col 4 Hwf ltac:(lia) ltac:(lia))
      as (g4 & _ & Hp4 & Hwf4).
    eapply post_bind;
      [apply (post_lift _ _ (fun x => x = with_grid board g2) Hp2); reflexivity|].
    intros ? ->. eapply post_bind; [apply Hrec; split; [exact Hwf2|exact Hsize]|].
    intros value_2 _. eapply post_bind;
      [apply (post_lift _ _ (fun x => x = with_grid board g4) Hp4); reflexivity|].
    intros ? ->. eapply post_bind; [apply Hrec; split; [exact Hwf4|exact Hsize]|].
    intros value_4 _. apply IH, Hcells.
Qed.

Lemma pick_returns (cells : list (nat * nat)) (P : nat * nat -> Prop) indices :
  Forall P cells ->
  Forall (fun i => (i < length cells)%nat) indices ->
  exists picked, pick cells indices = Ok picked /\ Forall P picked.
Proof.
  intros HP. induction 1 as [|i indices Hi Hrest IH].
  - exists []. split; [reflexivity|constructor].
  - destruct IH as (picked & Hpick & Hall).
    destruct (lookup_lt_is_Some_2 cells i Hi) as [c Hc].
    exists (c :: picked). cbn [pick]. rewrite Hc, Hpick. split; [reflexivity|].
    constructor; [|exact Hall].
    apply (proj1 (List.Forall_forall _ _) HP).
    apply list_elem_of_In, list_elem_of_lookup. exists i. exact Hc.
Qed.

Lemma where_zero_in_range n (g : grid) :
  square n g ->
  Forall (fun rc => (fst rc < n)%nat /\ (snd rc < n)%nat) (where_zero g).
Proof.
  intros Hsq. apply List.Forall_forall. intros [r c] Hin.
  exact (where_zero_square _ _ _ _ Hsq Hin).
Qed.

Lemma chance_node_returns n (rec : Board -> M rng F) board :
  (0 < n)%nat ->
  (forall b, sized n b -> post (rec b) (fun _ => True)) ->
  sized n board ->
  post (_chance_node rec board) (fun _ => True).
Proof.
  intros Hn Hrec Hboard. unfold _chance_node.
  pose proof (where_zero_in_range n (_grid board)) as Hrange.
  destruct Hboard as [Hwf Hsize]. unfold wf_board in Hwf. rewrite Hsize in Hwf.
  specialize (Hrange Hwf).
  destruct (where_zero (_grid board)) as [|c0 cells] eqn:Hcells.
  - apply (post_lift _ (evaluate_board_value board)); [|exact I].
    apply (evaluate_board_returns n); [exact Hn|].
    split; [unfold wf_board; rewrite Hsize; exact Hwf|exact Hsize].
  - eapply post_bind
      with (Q := fun x => Forall (fun rc => (fst rc < n)%nat /\ (snd rc < n)%nat)
                                 (fst x)).
    + destruct (6 <? length (c0 :: cells))%nat eqn:Hmany.
      * apply Nat.ltb_lt in Hmany.
        eapply post_bind
          with (Q := fun idx => Forall (fun i => (i < length (c0 :: cells))%nat) idx).
        { apply post_draw. intros s. apply sample_lt. lia. }
        intros indices Hidx.
        destruct (pick_returns _ _ _ Hrange Hidx) as (picked & Hpick & Hall).
        eapply post_bind.
        { apply (post_lift _ _ (fun x => x = picked) Hpick). reflexivity. }
        intros ? ->. apply post_ret. exact Hall.
      * apply post_ret. exact Hrange.
    + intros [sampled num] Hsampled. cbn [fst] in Hsampled.
      eapply post_bind.
      * apply (chance_loop_returns n); [exact Hrec| |exact Hsampled].
        split; [unfold wf_board; rewrite Hsize; exact Hwf|exact Hsize].
      * intros total _. apply post_ret. exact I.
Qed.

Lemma max_node_returns n (rec : Board -> M rng F) board :
  (0 < n)%nat ->
  (forall b, sized n b -> post (rec b) (fun _ => True)) ->
  sized n board ->
  post (_max_node rec board) (fun _ => True).
Proof.
  intros Hn Hrec Hboard. unfold _max_node.
  eapply post_bind; [apply (max_loop_returns n); assumption|].
  intros max_value _. destruct (feqb max_value neg_inf).
  - apply (post_lift _ (evaluate_board_value board)); [|exact I].
    apply (evaluate_board_returns n); assumption.
  - apply post_ret. exact I.
Qed.

(** [_expectimax] returns on every well-formed board that has cells. *)
Lemma expectimax_returns n depth : forall is_player_turn board,
  (0 < n)%nat -> sized n board ->
  post (_expectimax depth is_player_turn board) (fun _ => True).
Proof.
  induction depth as [|depth IH]; intros turn board Hn Hboard;
    cbn [_expectimax].
  - apply (post_lift _ (evaluate_board_value board)); [|exact I].
    apply (evaluate_board_returns n); assumption.
  - eapply post_bind.
    + apply (post_lift _ _ (fun _ => True) (is_terminal_spec _ (proj1 Hboard))).
      exact I.
    + intros terminal _. destruct terminal.
      * apply (post_lift _ (evaluate_board_value board)); [|exact I].
        apply (evaluate_board_returns n); assumption.
      * destruct turn.
        -- apply (max_node_returns n); [exact Hn| |exact Hboard].
           intros b Hb. apply IH; assumption.
        -- apply (chance_node_returns n); [exact Hn| |exact Hboard].
           intros b Hb. apply IH; assumption.
Qed.

Lemma evaluate_spawn_returns n self board row col value :
  (0 < n)%nat -> sized n board -> (row < n)%nat -> (col < n)%nat ->
  post (_evaluate_spawn self board row col value) (fun _ => True).
Proof.
  intros Hn [Hwf Hsize] Hrow Hcol. unfold _evaluate_spawn.
  destruct (place_returns board row col value Hwf ltac:(lia) ltac:(lia))
    as (g' & _ & Hp & Hwf').
  eapply post_bind;
    [apply (post_lift _ _ (fun x => x = with_grid board g') Hp); reflexivity|].
  intros ? ->. apply (expectimax_returns n); [exact Hn|].
  split; [exact Hwf'|exact Hsize].
Qed.

(** [score_cells] returns one candidate per empty cell, in the order the
    cells were enumerated. *)
Lemma score_cells_returns n self board :
  (0 < n)%nat -> sized n board ->
  forall cells scores,
    Forall (fun rc => (fst rc < n)%nat /\ (snd rc < n)%nat) cells ->
    post (score_cells self board cells scores)
         (fun result => map cell_of result = map cell_of scores ++ cells).
Proof.
  intros Hn Hboard. induction cells as [|[row col] cells IH];
    intros scores Hcells; cbn [score_cells].
  - apply post_ret. rewrite app_nil_r. reflexivity.
  - apply Forall_cons_1 in Hcells as [[Hrow Hcol] Hcells]. cbn in Hrow, Hcol.
    eapply post_bind;
      [apply (evaluate_spawn_returns n); assumption|].
    intros score_2 _. eapply post_bind;
      [apply (evaluate_spawn_returns n); assumption|].
    intros score_4 _. eapply post_weaken; [apply IH, Hcells|].
    intros result ->. rewrite map_app. cbn [map cell_of fst snd].
    rewrite <- app_assoc. reflexivity.
Qed.

End SearchReturns.

(* ================================================================== *)
(** ** The stable sort and the two ends of its result *)

Section SortFacts.

Context {K A : Type} (ltb : K -> K -> bool) (key : A -> K).

Lemma weak_order_on_tail a (l : list A) :
  weak_order_on ltb (map key (a :: l)) -> weak_order_on ltb (map key l).
Proof.
  intros (Hirr & Htrans & Hneg). split; [|split].
  - intros x Hx. apply Hirr. right. exact Hx.
  - intros x y z Hx Hy Hz. apply Htrans; right; assumption.
  - intros x y z Hx Hy Hz. apply Hneg; right; assumption.
Qed.

Lemma insert_by_perm x (l : list A) : Permutation (insert_by ltb key x l) (x :: l).
Proof.
  induction l as [|y l IH]; cbn [insert_by]; [reflexivity|].
  destruct (ltb (key y) (key x)); [|reflexivity].
  rewrite IH. apply perm_swap.
Qed.

Lemma sort_by_perm (l : list A) : Permutation (sort_by ltb key l) l.
Proof.
  induction l as [|x l IH]; [reflexivity|].
  cbn [sort_by fold_right]. fold (sort_by ltb key l).
  rewrite insert_by_perm, IH. reflexivity.
Qed.

Lemma sort_by_In x (l : list A) : In x (sort_by ltb key l) <-> In x l.
Proof.
  split; apply Permutation_in; [|symmetry]; apply sort_by_perm.
Qed.

Lemma sort_by_cons x (l : list A) :
  sort_by ltb key (x :: l) = insert_by ltb key x (sort_by ltb key l).
Proof. reflexivity. Qed.

(** Where [insert_by] puts the new element: after the elements whose key
    is smaller, before the first one whose key is not. *)
Lemma last_insert_by x (l : list A) :
  last (insert_by ltb key x l) =
    if forallb (fun y => ltb (key y) (key x)) l then Some x else last l.
Proof.
  induction l as [|y l IH]; [reflexivity|]. cbn [insert_by forallb].
  destruct (ltb (key y) (key x)); cbn [andb].
  - rewrite last_cons, IH.
    destruct (forallb _ l); [reflexivity|].
    rewrite last_cons. reflexivity.
  - rewrite !last_cons. destruct (last l); reflexivity.
Qed.

Lemma head_insert_by x (l : list A) :
  head (insert_by ltb key x l) =
    match head l with
    | Some y => if ltb (key y) (key x) then Some y else Some x
    | None => Some x
    end.
Proof.
  destruct l as [|y l]; [reflexivity|]. cbn [insert_by head].
  destruct (ltb (key y) (key x)); reflexivity.
Qed.

(** The last element of the sorted list is the last of the elements of
    greatest key. *)
Lemma last_sort_by (l : list A) :
  weak_order_on ltb (map key l) -> l <> [] ->
  exists before x after,
    l = before ++ x :: after /\
    last (sort_by ltb key l) = Some x /\
    (forall y, In y before -> ltb (key x) (key y) = false) /\
    (forall y, In y after -> ltb (key y) (key x) = true).
Proof.
  induction l as [|a l IH]; intros Hord Hne; [destruct (Hne eq_refl)|clear Hne].
  rewrite sort_by_cons, last_insert_by.
  destruct l as [|b l'].
  { exists [], a, []. repeat split; try reflexivity; intros y []. }
  destruct (IH (weak_order_on_tail _ _ Hord) ltac:(discriminate))
    as (before & x & after & Hl & Hlast & Hbefore & Hafter).
  set (l := b :: l') in *. clearbody l.
  destruct Hord as (Hirr & Htrans & Hneg).
  assert (Hin : forall y, In y l -> In (key y) (map key (a :: l)))
    by (intros y Hy; right; apply in_map, Hy).
  assert (Hx : In x l) by (rewrite Hl; apply in_elt).
  assert (Hmax : forall y, In y l -> ltb (key x) (key y) = false).
  { intros y Hy. rewrite Hl in Hy. apply in_app_or in Hy as [Hy|[<-|Hy]].
    - apply Hbefore, Hy.
    - apply Hirr, Hin, Hx.
    - apply not_true_is_false. intros Hxy.
      assert (Hy' : In y l) by (rewrite Hl; apply in_or_app; right; right; exact Hy).
      pose proof (Htrans _ _ _ (Hin _ Hx) (Hin _ Hy') (Hin _ Hx) Hxy
                    (Hafter _ Hy)) as Hxx.
      rewrite (Hirr _ (Hin _ Hx)) in Hxx. discriminate. }
  destruct (ltb (key x) (key a)) eqn:Hxa.
  - (* [a] has a greater key than everything after it *)
    assert (Hall : forallb (fun y => ltb (key y) (key a)) (sort_by ltb key l) = true).
    { apply forallb_forall. intros y Hy. apply (proj1 (sort_by_In _ _)) in Hy.
      destruct (Hneg _ (key y) _ (Hin _ Hx) (Hin _ Hy) (or_introl eq_refl) Hxa)
        as [Hxy|Hya]; [|exact Hya].
      rewrite (Hmax _ Hy) in Hxy. discriminate. }
    rewrite Hall. exists [], a, l. repeat split; try reflexivity.
    + intros y [].
    + intros y Hy. apply (proj1 (forallb_forall _ _) Hall).
      apply sort_by_In, Hy.
  - (* [x] keeps the last place *)
    assert (Hnot : forallb (fun y => ltb (key y) (key a)) (sort_by ltb key l) = false).
    { apply not_true_is_false. intros Hall.
      pose proof (proj1 (forallb_forall _ _) Hall x
                    (proj2 (sort_by_In _ _) Hx)) as H.
      cbn beta in H. rewrite Hxa in H. discriminate. }
    rewrite Hnot. exists (a :: before), x, after. repeat split.
    + rewrite Hl. reflexivity.
    + exact Hlast.
    + intros y [<-|Hy]; [exact Hxa|apply Hbefore, Hy].
    + exact Hafter.
Qed.

(** The first element of the sorted list is the first of the elements of
    smallest key. *)
Lemma head_sort_by (l : list A) :
  weak_order_on ltb (map key l) -> l <> [] ->
  exists before x after,
    l = before ++ x :: after /\
    head (sort_by ltb key l) = Some x /\
    (forall y, In y before -> ltb (key x) (key y) = true) /\
    (forall y, In y after -> ltb (key y) (key x) = false).
Proof.
  induction l as [|a l IH]; intros Hord Hne; [destruct (Hne eq_refl)|clear Hne].
  rewrite sort_by_cons, head_insert_by.
  destruct l as [|b l'].
  { exists [], a, []. repeat split; try reflexivity; intros y []. }
  destruct (IH (weak_order_on_tail _ _ Hord) ltac:(discriminate))
    as (before & x & after & Hl & Hhead & Hbefore & Hafter).
  set (l := b :: l') in *. clearbody l.
  destruct Hord as (Hirr & Htrans & Hneg).
  assert (Hin : forall y, In y l -> In (key y) (map key (a :: l)))
    by (intros y Hy; right; apply in_map, Hy).
  assert (Hx : In x l) by (rewrite Hl; apply in_elt).
  rewrite Hhead. destruct (ltb (key x) (key a)) eqn:Hxa.
  - exists (a :: before), x, after. repeat split.
    + rewrite Hl. reflexivity.
    + intros y [<-|Hy]; [exact Hxa|apply Hbefore, Hy].
    + exact Hafter.
  - exists [], a, l. repeat split; try reflexivity; [intros y []|].
    intros y Hy. apply not_true_is_false. intros Hya.
    pose proof Hy as Hy'. rewrite Hl in Hy'.
    apply in_app_or in Hy' as [Hy'|[<-|Hy']].
    + pose proof (Htrans _ _ _ (Hin _ Hx) (Hin _ Hy) (or_introl eq_refl)
                    (Hbefore _ Hy') Hya) as H.
      rewrite Hxa in H. discriminate.
    + rewrite Hxa in Hya. discriminate.
    + destruct (Hneg _ (key x) _ (Hin _ Hy) (Hin _ Hx) (or_introl eq_refl) Hya)
        as [Hyx|Hxa']; [rewrite (Hafter _ Hy') in Hyx|rewrite Hxa in Hxa'];
        discriminate.
Qed.

End SortFacts.

(* ================================================================== *)
(** ** [spawn_tile] *)

(** Placing a tile on an empty cell changes that cell and nothing else. *)
Lemma place_on_empty board row col value :
  wf_board board -> In (row, col) (where_zero (_grid board)) ->
  value <> 0 ->
  exists board',
    place board row col value = Ok board' /\
    cell (_grid board) row col = 0 /\
    (row < size board)%nat /\ (col < size board)%nat /\
    cell (_grid board') row col = value /\
    (forall r c, (r, c) <> (row, col) ->
                 cell (_grid board') r c = cell (_grid board) r c) /\
    wf_board board' /\
    count_nonzero (_grid board') = S (count_nonzero (_grid board)).
Proof.
  intros Hwf Hin Hv.
  destruct (where_zero_square _ _ _ _ Hwf Hin) as [Hrow Hcol].
  pose proof (where_zero_cell _ _ _ Hin) as Hzero.
  apply where_zero_In in Hin as (line & Hline & Hc & Hz).
  destruct (place_returns board row col value Hwf Hrow Hcol)
    as (g' & Hset & Hplace & Hwf').
  rewrite (set_cell_ok _ _ _ _ _ Hline Hc) in Hset. injection Hset as <-.
  eexists. split; [exact Hplace|]. cbn [_grid with_grid].
  repeat split; try assumption.
  - rewrite (cell_insert _ _ _ _ _ _ _ Hline Hc).
    rewrite decide_True by (split; reflexivity). reflexivity.
  - intros r c Hne. rewrite (cell_insert _ _ _ _ _ _ _ Hline Hc).
    rewrite decide_False; [reflexivity|].
    intros [-> ->]. apply Hne. reflexivity.
  - apply Hwf'.
  - apply Hwf'.
  - apply count_nonzero_insert; assumption.
Qed.

Section SpawnTile.

Context {F : Type} {arith : Arith F} {inf : NegInf F}.
Context {rng : Type} {random : RandomSource rng} {random_ok : RandomSourceOk rng}.

Lemma place_draw_spawned board row col c0 cells :
  wf_board board ->
  where_zero (_grid board) = c0 :: cells ->
  In (row, col) (where_zero (_grid board)) ->
  post (value ← draw (choice [2; 4]);
        board' ← lift (place board row col value);
        mret (true, board'))
       (spawned board).
Proof.
  intros Hwf Hcells Hin.
  eapply post_bind with (Q := fun value => In value [2; 4]).
  { apply post_draw. intros s. apply choice_in. discriminate. }
  intros value Hvalue.
  assert (Hv : value <> 0) by (destruct Hvalue as [<-|[<-|[]]]; discriminate).
  destruct (place_on_empty board row col value Hwf Hin Hv) as (board' & Hp & _).
  eapply post_bind.
  { apply (post_lift _ _ (fun x => x = board') Hp). reflexivity. }
  intros ? ->. apply post_ret. unfold spawned. rewrite Hcells.
  exists row, col, value. rewrite <- Hcells. repeat split; assumption.
Qed.

Lemma spawn_random_spawned board :
  wf_board board -> post (_spawn_random board) (spawned board).
Proof.
  intros Hwf. unfold _spawn_random.
  destruct (where_zero (_grid board)) as [|c0 cells] eqn:Hcells.
  { apply post_ret. unfold spawned. rewrite Hcells. reflexivity. }
  eapply post_bind with (Q := fun index => (index < length (c0 :: cells))%nat).
  { apply post_draw. intros s. apply randint_lt. cbn. lia. }
  intros index Hindex.
  destruct (lookup_lt_is_Some_2 _ _ Hindex) as [[row col] Hcell].
  rewrite Hcell.
  apply (place_draw_spawned board row col c0 cells Hwf Hcells).
  rewrite Hcells. apply list_elem_of_In, list_elem_of_lookup.
  exists index. exact Hcell.
Qed.

Lemma spawn_tile_spawned self board :
  wf_board board -> post (spawn_tile self board) (spawned board).
Proof.
  intros Hwf. unfold spawn_tile.
  destruct (String.eqb (sp_difficulty self) "medium");
    [apply spawn_random_spawned, Hwf|].
  destruct (where_zero (_grid board)) as [|c0 cells] eqn:Hcells.
  { apply post_ret. unfold spawned. rewrite Hcells. reflexivity. }
  assert (Hn : (0 < size board)%nat).
  { assert (Hin : In c0 (where_zero (_grid board))) by (rewrite Hcells; left; reflexivity).
    destruct c0 as [r c]. pose proof (where_zero_square _ _ _ _ Hwf Hin). lia. }
  eapply post_bind.
  { apply (score_cells_returns (size board)); [exact Hn|split; [exact Hwf|reflexivity]|].
    rewrite <- Hcells. apply where_zero_in_range, Hwf. }
  cbn beta. intros scores Hscores. cbn [map app] in Hscores.
  set (sorted := sort_by fltb (fun x => fst (fst x)) scores).
  assert (Hbest : forall best,
            In best sorted -> In (cell_of best) (where_zero (_grid board))).
  { intros best Hbest. apply sort_by_In in Hbest.
    rewrite Hcells, <- Hscores. apply in_map, Hbest. }
  assert (Hne : sorted <> []).
  { intros Hnil.
    pose proof (Permutation_length (sort_by_perm fltb (fun x => fst (fst x)) scores))
      as Hlen.
    fold sorted in Hlen. rewrite Hnil in Hlen.
    apply (f_equal (@length _)) in Hscores. rewrite length_map in Hscores.
    cbn in Hlen, Hscores. lia. }
  destruct (String.eqb (sp_difficulty self) "easy").
  - destruct (last sorted) as [[[score row] col]|] eqn:Hlast.
    + apply (place_draw_spawned board row col c0 cells Hwf Hcells).
      apply (Hbest (score, row, col)).
      apply last_Some in Hlast as [l' ->]. apply in_elt.
    + apply last_None in Hlast. contradiction.
  - destruct (head sorted) as [[[score row] col]|] eqn:Hhead.
    + apply (place_draw_spawned board row col c0 cells Hwf Hcells).
      apply (Hbest (score, row, col)).
      destruct sorted as [|x sorted']; [discriminate|].
      injection Hhead as ->. left. reflexivity.
    + destruct sorted; [contradiction|discriminate].
Qed.

End SpawnTile.

(** C3. On a well-formed board, for every difficulty, [spawn_tile]
    returns; it returns [False] exactly when the board has no empty cell,
    and then the board is the one it was given; otherwise it returns [True]
    and the board differs from the given one in exactly one cell, which was
    empty and now holds 2 or 4, so that one more cell is nonzero. *)
Theorem spawn_tile_one_tile
    {F : Type} {arith : Arith F} {inf : NegInf F}
    {rng : Type} {random : RandomSource rng} {random_ok : RandomSourceOk rng}
    (self : AISpawner) (board : Board) (s : rng) :
  wf_board board ->
  exists r board' s',
    spawn_tile self board s = Ok ((r, board'), s') /\
    (r = false <-> ~ In 0 (flatten (_grid board))) /\
    (r = false -> board' = board) /\
    (r = true ->
     exists row col value,
       cell (_grid board) row col = 0 /\
       (row < size board)%nat /\ (col < size board)%nat /\
       (value = 2 \/ value = 4) /\
       cell (_grid board') row col = value /\
       (forall r c, (r, c) <> (row, col) ->
                    cell (_grid board') r c = cell (_grid board) r c) /\
       wf_board board' /\
       count_nonzero (_grid board') = S (count_nonzero (_grid board))).
Proof.
  intros Hwf.
  destruct (spawn_tile_spawned self board Hwf s) as ([r board'] & s' & Hrun & Hsp).
  exists r, board', s'. split; [exact Hrun|].
  unfold spawned in Hsp.
  destruct (where_zero (_grid board)) as [|c0 cells] eqn:Hcells.
  - injection Hsp as -> ->.
    split; [split; [intros _; apply where_zero_nil, Hcells|reflexivity]|].
    split; [reflexivity|discriminate].
  - destruct Hsp as (row & col & value & Hin & Hvalue & Hplace & Hr).
    cbn [fst snd] in *. subst r.
    split; [split; [discriminate|]|].
    { intros Hfull. apply where_zero_nil in Hfull. rewrite Hfull in Hcells.
      discriminate. }
    split; [discriminate|]. intros _.
    assert (Hv : value <> 0) by (destruct Hvalue as [<-|[<-|[]]]; discriminate).
    rewrite <- Hcells in Hin.
    destruct (place_on_empty board row col value Hwf Hin Hv)
      as (b' & Hp & Hzero & Hrow & Hcol & Hcell & Hothers & Hwf' & Hcount).
    rewrite Hplace in Hp. injection Hp as <-.
    exists row, col, value.
    repeat (split; [first [assumption|idtac]|]); try assumption.
    destruct Hvalue as [<-|[<-|[]]]; [left|right]; reflexivity.
Qed.

(* ================================================================== *)
(** ** Which cell the search modes choose *)

Section Extremum.

Context {F : Type} {arith : Arith F} {inf : NegInf F}.
Context {rng : Type} {random : RandomSource rng} {random_ok : RandomSourceOk rng}.

Lemma score_cells_candidates self board cells : forall scores s result s',
  score_cells self board cells scores s = Ok (result, s') ->
  Forall (is_candidate self board) scores ->
  Forall (is_candidate self board) result.
Proof.
  induction cells as [|[row col] cells IH]; intros scores s result s' Hrun Hacc.
  - cbn in Hrun. injection Hrun as <- _. exact Hacc.
  - cbn [score_cells] in Hrun. unfold mbind at 1, M_bind at 1 in Hrun.
    destruct (_evaluate_spawn self board row col 2 s) as [[score_2 s_b]|e]
      eqn:H2; [|discriminate].
    unfold mbind at 1, M_bind at 1 in Hrun.
    destruct (_evaluate_spawn self board row col 4 s_b) as [[score_4 s_c]|e]
      eqn:H4; [|discriminate].
    apply (IH _ _ _ _ Hrun). apply Forall_app. split; [exact Hacc|].
    constructor; [|constructor].
    exists s, s_b, s_c, score_2, score_4. repeat split; assumption.
Qed.

Lemma place_draw_run board row col s :
  wf_board board -> In (row, col) (where_zero (_grid board)) ->
  exists value board',
    (value ← draw (choice [2; 4]);
     board' ← lift (place board row col value);
     mret (true, board')) s = Ok ((true, board'), snd (choice [2; 4] s)) /\
    In value [2; 4] /\
    place board row col value = Ok board'.
Proof.
  intros Hwf Hin.
  pose proof (choice_in [2; 4] s ltac:(discriminate)) as Hvalue.
  assert (Hv : fst (choice [2; 4] s) <> 0)
    by (destruct Hvalue as [<-|[<-|[]]]; discriminate).
  destruct (place_on_empty board row col _ Hwf Hin Hv) as (board' & Hp & _).
  exists (fst (choice [2; 4] s)), board'.
  split; [|split; assumption].
  unfold mbind, M_bind, draw, lift, mret, M_ret.
  destruct (choice [2; 4] s) as [value s2]. cbn [fst snd] in *.
  rewrite Hp. reflexivity.
Qed.

(** C6, as the code has it.  In the search modes the candidates are the
    empty cells in row-major order, each with the score
    [0.9 * evaluate(cell, 2) + 0.1 * evaluate(cell, 4)].  When [<] orders
    these scores, [easy] places the tile on a
    candidate of greatest score and [hard] (any other mode but [medium]) on
    one of smallest score.  Among tied candidates [hard] takes the one
    enumerated first, but [easy] takes the one enumerated last: every
    candidate after the chosen one has a strictly smaller score. *)
Theorem spawn_tile_extremum (self : AISpawner) (board : Board) (s : rng) :
  wf_board board ->
  String.eqb (sp_difficulty self) "medium" = false ->
  where_zero (_grid board) <> [] ->
  exists scores s1,
    score_cells self board (where_zero (_grid board)) [] s = Ok (scores, s1) /\
    map cell_of scores = where_zero (_grid board) /\
    Forall (is_candidate self board) scores /\
    (weak_order_on fltb (map score_of scores) ->
     exists before score row col after value board' s2,
       scores = before ++ (score, row, col) :: after /\
       spawn_tile self board s = Ok ((true, board'), s2) /\
       In value [2; 4] /\
       place board row col value = Ok board' /\
       if String.eqb (sp_difficulty self) "easy" then
         (forall y, In y before -> fltb score (score_of y) = false) /\
         (forall y, In y after -> fltb (score_of y) score = true)
       else
         (forall y, In y before -> fltb score (score_of y) = true) /\
         (forall y, In y after -> fltb (score_of y) score = false)).
Proof.
  intros Hwf Hmode Hcells.
  assert (Hn : (0 < size board)%nat).
  { destruct (where_zero (_grid board)) as [|[r c] cells] eqn:Hw; [contradiction|].
    assert (Hin : In (r, c) (where_zero (_grid board))) by (rewrite Hw; left; reflexivity).
    pose proof (where_zero_square _ _ _ _ Hwf Hin). lia. }
  destruct (score_cells_returns (size board) self board Hn
              (conj Hwf eq_refl) (where_zero (_grid board)) []
              (where_zero_in_range _ _ Hwf) s)
    as (scores & s1 & Hrun & Hscores).
  cbn [map app] in Hscores.
  exists scores, s1. split; [exact Hrun|]. split; [exact Hscores|].
  split; [apply (score_cells_candidates _ _ _ _ _ _ _ Hrun); constructor|].
  intros Hord.
  assert (Hne : scores <> []).
  { intros ->. cbn in Hscores. symmetry in Hscores. contradiction. }
  assert (Hspawn :
            spawn_tile self board s =
              match (if String.eqb (sp_difficulty self) "easy"
                     then last (sort_by fltb (fun x => fst (fst x)) scores)
                     else head (sort_by fltb (fun x => fst (fst x)) scores)) with
              | Some (_, row, col) =>
                  (value ← draw (choice [2; 4]);
                   board' ← lift (place board row col value);
                   mret (true, board')) s1
              | None => Raise IndexError
              end).
  { unfold spawn_tile. rewrite Hmode.
    destruct (where_zero (_grid board)) as [|c0 cells] eqn:Hw; [contradiction|].
    unfold mbind at 1, M_bind at 1. rewrite Hrun.
    destruct (if String.eqb (sp_difficulty self) "easy" then _ else _)
      as [[[sc row] col]|]; reflexivity. }
  assert (Hcell : forall x, In x scores ->
            In (snd (fst x), snd x) (where_zero (_grid board))).
  { intros x Hx. rewrite <- Hscores. apply (in_map cell_of), Hx. }
  destruct (String.eqb (sp_difficulty self) "easy") eqn:Heasy.
  - destruct (last_sort_by fltb score_of scores Hord Hne)
      as (before & [[score row] col] & after & Hsplit & Hlast & Hb & Ha).
    fold (@score_of F) in Hspawn. rewrite Hlast in Hspawn.
    destruct (place_draw_run board row col s1 Hwf) as (value & board' & Hrun' & Hv & Hp).
    { apply (Hcell (score, row, col)). rewrite Hsplit. apply in_elt. }
    exists before, score, row, col, after, value, board', (snd (choice [2; 4] s1)).
    rewrite Hspawn, Hrun'. repeat split; assumption.
  - destruct (head_sort_by fltb score_of scores Hord Hne)
      as (before & [[score row] col] & after & Hsplit & Hhead & Hb & Ha).
    fold (@score_of F) in Hspawn. rewrite Hhead in Hspawn.
    destruct (place_draw_run board row col s1 Hwf) as (value & board' & Hrun' & Hv & Hp).
    { apply (Hcell (score, row, col)). rewrite Hsplit. apply in_elt. }
    exists before, score, row, col, after, value, board', (snd (choice [2; 4] s1)).
    rewrite Hspawn, Hrun'. repeat split; assumption.
Qed.

End Extremum.

(* ================================================================== *)
(** ** Concrete instances *)

Lemma counter_source_ok : @RandomSourceOk nat counter_source.
Proof.
  split; cbn.
  - intros n s Hn. apply Nat.mod_upper_bound. lia.
  - intros values s Hne. apply nth_In. apply Nat.mod_upper_bound.
    destruct values; [contradiction|cbn; lia].
  - intros n k s Hk. apply List.Forall_forall. intros i Hi.
    apply in_seq in Hi. lia.
  - intros n k s Hk. apply length_seq.
  - intros n k s Hk. apply NoDup_ListNoDup, seq_NoDup.
Qed.

Lemma weak_order_onb_sound {K : Type} (ltb : K -> K -> bool) keys :
  weak_order_onb ltb keys = true -> weak_order_on ltb keys.
Proof.
  unfold weak_order_onb. intros H.
  assert (Hall : forall x y z, In x keys -> In y keys -> In z keys ->
            ltb x x = false /\
            (ltb x y = true -> ltb y z = true -> ltb x z = true) /\
            (ltb x z = true -> ltb x y = true \/ ltb y z = true)).
  { intros x y z Hx Hy Hz.
    pose proof (proj1 (forallb_forall _ _) H x Hx) as H1. cbn beta in H1.
    apply andb_true_iff in H1 as [Hirr H1]. apply negb_true_iff in Hirr.
    pose proof (proj1 (forallb_forall _ _) H1 y Hy) as H2. cbn beta in H2.
    pose proof (proj1 (forallb_forall _ _) H2 z Hz) as H3. cbn beta in H3.
    apply andb_true_iff in H3 as [Ht Hn].
    split; [exact Hirr|]. split.
    - intros Hxy Hyz. rewrite Hxy, Hyz in Ht. exact Ht.
    - intros Hxz. rewrite Hxz in Hn. cbn in Hn. apply orb_true_iff, Hn. }
  split; [|split].
  - intros x Hx. apply (Hall x x x Hx Hx Hx).
  - intros x y z Hx Hy Hz. apply (Hall x y z Hx Hy Hz).
  - intros x y z Hx Hy Hz. apply (Hall x y z Hx Hy Hz).
Qed.

Lemma spawn_tile_one_tile_witness :
  exists r board' s',
    @spawn_tile _ example_arith binary64_neg_inf _ counter_source
      (AISpawner_init "hard" 2 false) (board_of 4 mirror_grid) 0%nat
      = Ok ((r, board'), s') /\
    (r = false <-> ~ In 0 (flatten mirror_grid)) /\
    (r = false -> board' = board_of 4 mirror_grid) /\
    (r = true ->
     exists row col value,
       cell mirror_grid row col = 0 /\
       (row < 4)%nat /\ (col < 4)%nat /\
       (value = 2 \/ value = 4) /\
       cell (_grid board') row col = value /\
       (forall r c, (r, c) <> (row, col) ->
                    cell (_grid board') r c = cell mirror_grid r c) /\
       wf_board board' /\
       count_nonzero (_grid board') = S (count_nonzero mirror_grid)).
Proof.
  apply (@spawn_tile_one_tile _ example_arith binary64_neg_inf _ counter_source
           counter_source_ok (AISpawner_init "hard" 2 false)
           (board_of 4 mirror_grid) 0%nat).
  wf_by_computation.
Defined.

Lemma spawn_tile_extremum_witness :
  let self := AISpawner_init "easy" 2 false in
  let board := board_of 4 mirror_grid in
  exists scores before score row col after value board' s2,
    weak_order_on PrimFloat.ltb (map score_of scores) /\
    scores = before ++ (score, row, col) :: after /\
    @spawn_tile _ example_arith binary64_neg_inf _ counter_source
      self board 0%nat = Ok ((true, board'), s2) /\
    In value [2; 4] /\
    place board row col value = Ok board' /\
    (forall y, In y before -> PrimFloat.ltb score (score_of y) = false) /\
    (forall y, In y after -> PrimFloat.ltb (score_of y) score = true).
Proof.
  intros self board.
  destruct (@spawn_tile_extremum _ example_arith binary64_neg_inf _
              counter_source counter_source_ok self board 0%nat)
    as (scores & s1 & Hrun & Hcells & _ & Hchoice).
  - wf_by_computation.
  - reflexivity.
  - discriminate.
  - assert (Hord : weak_order_on PrimFloat.ltb (map score_of scores)).
    { vm_compute in Hrun. injection Hrun as <- _.
      apply weak_order_onb_sound. vm_compute. reflexivity. }
    destruct (Hchoice Hord)
      as (before & score & row & col & after & value & board' & s2
          & Hsplit & Hspawn & Hvalue & Hplace & Hb & Ha).
    exists scores, before, score, row, col, after, value, board', s2.
    repeat split; try assumption; apply Hord.
Defined.

(** C6 as stated fails for [easy].  On [mirror_grid] the two empty cells
    [(0, 1)] and [(1, 0)] get the same score; [(0, 1)] is enumerated first,
    and [easy] places the tile on [(1, 0)]. *)
Lemma easy_takes_last_of_tied_cells :
  let self := AISpawner_init "easy" 2 false in
  let board := board_of 4 mirror_grid in
  where_zero mirror_grid = [(0, 1); (1, 0)]%nat /\
  exists score,
    (forall std,
       @score_cells _ (binary64 log2_pow2 std) binary64_neg_inf _ counter_source
         self board (where_zero mirror_grid) [] 0%nat
         = Ok ([(score, 0, 1); (score, 1, 0)]%nat, 0%nat)) /\
    (forall std,
       @spawn_tile _ (binary64 log2_pow2 std) binary64_neg_inf _ counter_source
         self board 0%nat
         = Ok ((true,
                with_grid board
                  [[2; 0; 8; 16]; [2; 4; 2; 8]; [8; 2; 4; 2]; [16; 8; 2; 4]]),
               1%nat)).
Proof.
  intros self board. split; [reflexivity|].
  eexists. split; intros std; vm_compute; reflexivity.
Qed.

(* ================================================================== *)
(** ** Binary64 on whole numbers

    Sums, differences and products of whole numbers below [2^53] are
    computed without rounding, and such numbers are compared as the
    integers they are. *)

(** *** Digits and shifts *)

Lemma digits2_size p : SpecFloat.digits2_pos p = Pos.size p.
Proof. induction p; cbn; congruence. Qed.

Lemma digits2_log2 p : Z.pos (SpecFloat.digits2_pos p) = Z.log2 (Z.pos p) + 1.
Proof.
  rewrite digits2_size. destruct p; cbn [Z.log2 Pos.size]; lia.
Qed.

Lemma digits2_shift (M v : positive) k :
  0 <= k -> Z.pos M = Z.pos v * 2 ^ k ->
  Z.pos (SpecFloat.digits2_pos M) = Z.pos (SpecFloat.digits2_pos v) + k.
Proof.
  intros Hk HM. rewrite !digits2_log2, HM.
  rewrite Z.log2_mul_pow2 by lia. lia.
Qed.

Lemma digits2_bound v :
  Z.pos v < 2 ^ 53 -> Z.pos (SpecFloat.digits2_pos v) <= 53.
Proof.
  intros Hv. rewrite digits2_log2.
  assert (Z.log2 (Z.pos v) < 53); [|lia].
  apply Z.log2_lt_pow2; lia.
Qed.

Lemma iter_pos_nat {A : Type} (f : A -> A) p : forall x,
  SpecFloat.iter_pos f p x = Nat.iter (Pos.to_nat p) f x.
Proof.
  induction p as [p IH|p IH|]; intros x; cbn [SpecFloat.iter_pos].
  - rewrite !IH. rewrite Pos2Nat.inj_xI.
    rewrite <- Nat.iter_add. cbn [Nat.iter].
    replace (S (2 * Pos.to_nat p)) with (Pos.to_nat p + Pos.to_nat p + 1)%nat by lia.
    rewrite (Nat.iter_add (Pos.to_nat p + Pos.to_nat p) 1). reflexivity.
  - rewrite !IH, Pos2Nat.inj_xO, <- Nat.iter_add. f_equal. lia.
  - reflexivity.
Qed.

Lemma shr_1_even q :
  SpecFloat.shr_1 {| SpecFloat.shr_m := Z.pos q~0; SpecFloat.shr_r := false;
                     SpecFloat.shr_s := false |}
  = {| SpecFloat.shr_m := Z.pos q; SpecFloat.shr_r := false;
       SpecFloat.shr_s := false |}.
Proof. reflexivity. Qed.

Lemma shr_iter_exact n : forall (M M1 : positive),
  Z.pos M = Z.pos M1 * 2 ^ Z.of_nat n ->
  Nat.iter n SpecFloat.shr_1
    {| SpecFloat.shr_m := Z.pos M; SpecFloat.shr_r := false;
       SpecFloat.shr_s := false |}
  = {| SpecFloat.shr_m := Z.pos M1; SpecFloat.shr_r := false;
       SpecFloat.shr_s := false |}.
Proof.
  induction n as [|n IH]; intros M M1 HM.
  - cbn in *. f_equal. lia.
  - rewrite Nat2Z.inj_succ, Z.pow_succ_r in HM by lia.
    rewrite Nat.iter_succ_r.
    destruct M as [M|M|].
    + exfalso. rewrite Pos2Z.inj_xI in HM.
      set (u := Z.pos M1 * 2 ^ Z.of_nat n) in *.
      assert (Z.pos M1 * (2 * 2 ^ Z.of_nat n) = 2 * u) by (unfold u; ring). lia.
    + rewrite shr_1_even. apply IH. rewrite Pos2Z.inj_xO in HM.
      set (u := Z.pos M1 * 2 ^ Z.of_nat n) in *.
      assert (Z.pos M1 * (2 * 2 ^ Z.of_nat n) = 2 * u) by (unfold u; ring). lia.
    + exfalso.
      set (u := Z.pos M1 * 2 ^ Z.of_nat n) in *.
      assert (Z.pos M1 * (2 * 2 ^ Z.of_nat n) = 2 * u) by (unfold u; ring).
      assert (0 < u) by (unfold u; apply Z.mul_pos_pos; [lia|apply Z.pow_pos_nonneg; lia]).
      lia.
Qed.

Lemma shr_exact (M M1 : positive) e n :
  0 <= n -> Z.pos M = Z.pos M1 * 2 ^ n ->
  SpecFloat.shr {| SpecFloat.shr_m := Z.pos M; SpecFloat.shr_r := false;
                   SpecFloat.shr_s := false |} e n
  = ({| SpecFloat.shr_m := Z.pos M1; SpecFloat.shr_r := false;
        SpecFloat.shr_s := false |}, e + n).
Proof.
  intros Hn HM. unfold SpecFloat.shr. destruct n as [|p|p]; [| |lia].
  - cbn in HM. rewrite Z.add_0_r. f_equal. f_equal. lia.
  - rewrite iter_pos_nat. f_equal. apply shr_iter_exact.
    rewrite positive_nat_Z. exact HM.
Qed.

Lemma fexp_normal d : 1 <= d -> SpecFloat.fexp 53 1024 d = d - 53.
Proof. intros Hd. unfold SpecFloat.fexp, SpecFloat.emin. lia. Qed.

(** *** Rounding a whole number *)

(** Rounding a mantissa whose value is a whole number below [2^53], and
    which has at least 53 digits, gives the normal form of the number. *)
Lemma binary_round_aux_whole s (M v : positive) k :
  0 <= k -> Z.pos M = Z.pos v * 2 ^ k ->
  Z.pos v < 2 ^ 53 ->
  53 - Z.pos (SpecFloat.digits2_pos v) <= k ->
  SpecFloat.binary_round_aux 53 1024 s (Z.pos M) (- k) SpecFloat.loc_Exact
  = normal s v.
Proof.
  intros Hk HM Hv Hdig.
  pose proof (digits2_bound v Hv) as Hd.
  pose proof (digits2_shift M v k Hk HM) as HdM.
  set (d := Z.pos (SpecFloat.digits2_pos v)) in *.
  assert (Hd1 : 1 <= d) by (unfold d; lia).
  set (M1 := Z.to_pos (Z.pos v * 2 ^ (53 - d))).
  assert (HM1 : Z.pos M1 = Z.pos v * 2 ^ (53 - d)).
  { unfold M1. rewrite Z2Pos.id; [reflexivity|].
    apply Z.mul_pos_pos; [lia|apply Z.pow_pos_nonneg; lia]. }
  assert (HMM1 : Z.pos M = Z.pos M1 * 2 ^ (d - 53 + k)).
  { rewrite HM, HM1, <- Z.mul_assoc, <- Z.pow_add_r by lia.
    f_equal. f_equal. lia. }
  assert (HdM1 : Z.pos (SpecFloat.digits2_pos M1) = 53).
  { rewrite (digits2_shift M1 v (53 - d)) by (try exact HM1; lia). fold d. lia. }
  unfold SpecFloat.binary_round_aux.
  assert (Hfirst : SpecFloat.shr_fexp 53 1024 (Z.pos M) (- k) SpecFloat.loc_Exact
                   = ({| SpecFloat.shr_m := Z.pos M1; SpecFloat.shr_r := false;
                         SpecFloat.shr_s := false |}, d - 53)).
  { unfold SpecFloat.shr_fexp. cbn [SpecFloat.Zdigits2 SpecFloat.shr_record_of_loc].
    rewrite HdM, (fexp_normal (d + k + - k)) by lia.
    rewrite (shr_exact M M1 (- k) (d + k + - k - 53 - - k)) by (try lia;
      rewrite HMM1; f_equal; f_equal; lia).
    f_equal. lia. }
  rewrite Hfirst. cbn [SpecFloat.shr_m SpecFloat.loc_of_shr_record
                       SpecFloat.round_nearest_even].
  assert (Hsecond : SpecFloat.shr_fexp 53 1024 (Z.pos M1) (d - 53) SpecFloat.loc_Exact
                    = ({| SpecFloat.shr_m := Z.pos M1; SpecFloat.shr_r := false;
                          SpecFloat.shr_s := false |}, d - 53)).
  { unfold SpecFloat.shr_fexp. cbn [SpecFloat.Zdigits2 SpecFloat.shr_record_of_loc].
    rewrite HdM1, (fexp_normal (53 + (d - 53))) by lia.
    replace (53 + (d - 53) - 53 - (d - 53)) with 0 by lia. reflexivity. }
  rewrite Hsecond. cbn [SpecFloat.shr_m].
  replace (d - 53 <=? 1024 - 53) with true by (symmetry; apply Z.leb_le; lia).
  reflexivity.
Qed.

Lemma iter_xO_value (m : positive) (d : positive) :
  Z.pos (Pos.iter xO m d) = Z.pos m * 2 ^ Z.pos d.
Proof.
  revert m. induction d as [|d IH] using Pos.peano_ind; intros m.
  - cbn. lia.
  - rewrite Pos.iter_succ, Pos2Z.inj_xO, IH, Pos2Z.inj_succ, Z.pow_succ_r by lia.
    ring.
Qed.

Lemma shl_align_value (m : positive) e e' :
  e' <= e ->
  Z.pos (fst (SpecFloat.shl_align m e e')) = Z.pos m * 2 ^ (e - e') /\
  snd (SpecFloat.shl_align m e e') = e'.
Proof.
  intros He. unfold SpecFloat.shl_align.
  destruct (e' - e) as [|p|p] eqn:Hdiff; cbn [fst snd].
  - replace (e - e') with 0 by lia. cbn. lia.
  - lia.
  - rewrite iter_xO_value. replace (e - e') with (Z.pos p) by lia. lia.
Qed.

(** Rounding any mantissa whose value is a whole number below [2^53]. *)
Lemma binary_round_whole s (M v : positive) k :
  0 <= k -> Z.pos M = Z.pos v * 2 ^ k ->
  Z.pos v < 2 ^ 53 ->
  SpecFloat.binary_round 53 1024 s M (- k) = normal s v.
Proof.
  intros Hk HM Hv.
  pose proof (digits2_bound v Hv) as Hd.
  pose proof (digits2_shift M v k Hk HM) as HdM.
  set (d := Z.pos (SpecFloat.digits2_pos v)) in *.
  assert (Hd1 : 1 <= d) by (unfold d; lia).
  unfold SpecFloat.binary_round.
  rewrite HdM, (fexp_normal (d + k + - k)) by lia.
  destruct (Z_le_gt_dec (53 - d) k) as [Hle|Hgt].
  - assert (Hsame : SpecFloat.shl_align M (- k) (d + k + - k - 53) = (M, - k)).
    { unfold SpecFloat.shl_align.
      destruct (d + k + - k - 53 - - k) as [|p|p] eqn:Hdiff; [reflexivity|reflexivity|lia]. }
    rewrite Hsame. apply binary_round_aux_whole; assumption.
  - destruct (shl_align_value M (- k) (d + k + - k - 53) ltac:(lia)) as [Hval Hexp].
    destruct (SpecFloat.shl_align M (- k) (d + k + - k - 53)) as [mz ez].
    cbn [fst snd] in Hval, Hexp. subst ez.
    replace (d + k + - k - 53) with (- (53 - d)) by lia.
    apply binary_round_aux_whole; try lia; try assumption.
    rewrite Hval, HM, <- Z.mul_assoc, <- Z.pow_add_r by lia.
    f_equal. f_equal. lia.
Qed.

Lemma whole_pos v : Z.pos v < 2 ^ 53 -> whole (Z.pos v) = normal false v.
Proof.
  intros Hv. unfold whole, SpecFloat.binary_normalize.
  apply (binary_round_whole false v v 0); [lia|cbn; lia|exact Hv].
Qed.

Lemma whole_neg v : Z.pos v < 2 ^ 53 -> whole (Z.neg v) = normal true v.
Proof.
  intros Hv. unfold whole, SpecFloat.binary_normalize.
  apply (binary_round_whole true v v 0); [lia|cbn; lia|exact Hv].
Qed.


Lemma normal_mantissa v :
  Z.pos v < 2 ^ 53 ->
  Z.pos (Z.to_pos (Z.pos v * 2 ^ (53 - Z.pos (SpecFloat.digits2_pos v))))
  = Z.pos v * 2 ^ (53 - Z.pos (SpecFloat.digits2_pos v)).
Proof.
  intros Hv. pose proof (digits2_bound v Hv).
  rewrite Z2Pos.id; [reflexivity|].
  apply Z.mul_pos_pos; [lia|apply Z.pow_pos_nonneg; lia].
Qed.

Lemma normal_valid s v :
  Z.pos v < 2 ^ 53 -> SpecFloat.valid_binary 53 1024 (normal s v) = true.
Proof.
  intros Hv. pose proof (digits2_bound v Hv) as Hd.
  pose proof (normal_mantissa v Hv) as HM.
  unfold normal, SpecFloat.valid_binary, SpecFloat.bounded,
    SpecFloat.canonical_mantissa.
  set (d := Z.pos (SpecFloat.digits2_pos v)) in *.
  rewrite (digits2_shift _ v (53 - d)) by (try exact HM; lia). fold d.
  rewrite fexp_normal by lia.
  apply andb_true_intro. split; [apply Z.eqb_eq|apply Z.leb_le]; lia.
Qed.

(** A whole number below [2^53] in absolute value is zero, or has a sign
    and a normal form. *)
Lemma whole_cases z :
  Z.abs z < 2 ^ 53 ->
  (z = 0 /\ whole z = SpecFloat.S754_zero false) \/
  (exists s v, z = SpecFloat.cond_Zopp s (Z.pos v) /\ Z.pos v < 2 ^ 53 /\
               whole z = normal s v).
Proof.
  intros Hz. destruct z as [|v|v].
  - left. split; reflexivity.
  - right. exists false, v. split; [reflexivity|]. split; [lia|].
    apply whole_pos. lia.
  - right. exists true, v. split; [reflexivity|]. split; [lia|].
    apply whole_neg. lia.
Qed.

Lemma whole_valid z :
  Z.abs z < 2 ^ 53 -> SpecFloat.valid_binary 53 1024 (whole z) = true.
Proof.
  intros Hz. destruct (whole_cases z Hz) as [[_ ->]|(s & v & _ & Hv & ->)];
    [reflexivity|apply normal_valid, Hv].
Qed.


(** *** The operations of [SpecFloat] *)












(** Normal forms are ordered like the numbers: first by exponent, then by
    mantissa. *)
Lemma normal_order va vb :
  Z.pos va < 2 ^ 53 -> Z.pos vb < 2 ^ 53 ->
  match Z.pos (SpecFloat.digits2_pos va) - 53
          ?= Z.pos (SpecFloat.digits2_pos vb) - 53 with
  | Lt => Lt
  | Gt => Gt
  | Eq =>
      Pos.compare_cont Eq
        (Z.to_pos (Z.pos va * 2 ^ (53 - Z.pos (SpecFloat.digits2_pos va))))
        (Z.to_pos (Z.pos vb * 2 ^ (53 - Z.pos (SpecFloat.digits2_pos vb))))
  end = (Z.pos va ?= Z.pos vb).
Proof.
  intros Ha Hb.
  pose proof (digits2_bound va Ha) as Hda.
  pose proof (digits2_bound vb Hb) as Hdb.
  pose proof (normal_mantissa va Ha) as HMa.
  pose proof (normal_mantissa vb Hb) as HMb.
  pose proof (digits2_log2 va) as Hla.
  pose proof (digits2_log2 vb) as Hlb.
  pose proof (Z.log2_spec (Z.pos va) ltac:(lia)) as Hsa.
  pose proof (Z.log2_spec (Z.pos vb) ltac:(lia)) as Hsb.
  pose proof (Z.log2_nonneg (Z.pos va)) as Hna.
  pose proof (Z.log2_nonneg (Z.pos vb)) as Hnb.
  set (da := Z.pos (SpecFloat.digits2_pos va)) in *.
  set (db := Z.pos (SpecFloat.digits2_pos vb)) in *.
  destruct (Z.compare_spec (da - 53) (db - 53)) as [Heq|Hlt|Hgt].
  - change (Pos.compare_cont Eq ?p ?q) with (Pos.compare p q).
    transitivity (Z.pos (Z.to_pos (Z.pos va * 2 ^ (53 - da)))
                  ?= Z.pos (Z.to_pos (Z.pos vb * 2 ^ (53 - db))));
      [reflexivity|].
    rewrite HMa, HMb.
    replace db with da by lia.
    symmetry. apply Zmult_compare_compat_r, Z.lt_gt, Z.pow_pos_nonneg; lia.
  - symmetry. apply Z.compare_lt_iff.
    assert (2 ^ (Z.log2 (Z.pos va) + 1) <= 2 ^ Z.log2 (Z.pos vb))
      by (apply Z.pow_le_mono_r; lia).
    rewrite <- Z.add_1_r in Hsa. lia.
  - symmetry. apply Z.compare_gt_iff.
    assert (2 ^ (Z.log2 (Z.pos vb) + 1) <= 2 ^ Z.log2 (Z.pos va))
      by (apply Z.pow_le_mono_r; lia).
    rewrite <- Z.add_1_r in Hsb. lia.
Qed.

Lemma SFcompare_whole a b :
  Z.abs a < 2 ^ 53 -> Z.abs b < 2 ^ 53 ->
  SpecFloat.SFcompare (whole a) (whole b) = Some (a ?= b).
Proof.
  intros Ha Hb.
  destruct a as [|va|va]; destruct b as [|vb|vb];
    rewrite ?whole_pos, ?whole_neg by lia; try reflexivity.
  - unfold normal. cbn [SpecFloat.SFcompare]. f_equal.
    apply normal_order; lia.
  - unfold normal. cbn [SpecFloat.SFcompare]. f_equal.
    pose proof (normal_order va vb ltac:(lia) ltac:(lia)) as H.
    change (Z.neg va ?= Z.neg vb) with (CompOpp (Z.pos va ?= Z.pos vb)).
    rewrite <- H.
    destruct (_ ?= _); reflexivity.
Qed.

(** *** The same on primitive floats *)

Lemma float_of_int_spec z :
  Z.abs z < 2 ^ 53 -> FloatOps.Prim2SF (float_of_int z) = whole z.
Proof.
  intros Hz. unfold float_of_int. apply FloatAxioms.Prim2SF_SF2Prim.
  apply whole_valid, Hz.
Qed.






(** Distinct whole numbers are distinct floats. *)
Lemma float_of_int_inj a b :
  Z.abs a < 2 ^ 53 -> Z.abs b < 2 ^ 53 ->
  float_of_int a = float_of_int b -> a = b.
Proof.
  intros Ha Hb Heq.
  assert (H : SpecFloat.SFcompare (whole a) (whole b) = Some Eq).
  { rewrite <- !float_of_int_spec, Heq, float_of_int_spec by assumption.
    rewrite SFcompare_whole by assumption. rewrite Z.compare_refl. reflexivity. }
  rewrite SFcompare_whole in H by assumption. injection H as H.
  apply Z.compare_eq, H.
Qed.

(* ================================================================== *)
(** ** The weight of an empty cell in the evaluator *)



(** *** The evaluator on whole numbers *)



Section WholeEvaluator.

Variable log2 : Z -> PrimFloat.float.
Variable std : list Z -> PrimFloat.float.

Local Abbreviation A := (binary64 log2 std).







End WholeEvaluator.




(* ================================================================== *)
(** ** Construction of a board *)

Lemma run_bind {S A B : Type} (m : M S A) (k : A -> M S B) s a s' :
  m s = Ok (a, s') -> (m ≫= k) s = k a s'.
Proof. intros H. unfold mbind, M_bind. rewrite H. reflexivity. Qed.

Lemma np_zeros_square n : square n (np_zeros n n).
Proof.
  unfold np_zeros. split; [apply repeat_length|].
  apply List.Forall_forall. intros row Hrow. apply repeat_spec in Hrow.
  subst row. apply repeat_length.
Qed.

Section ConstructionFacts.

Context {F : Type} {arith : Arith F} {inf : NegInf F}.
Context {rng : Type} {random : RandomSource rng} {random_ok : RandomSourceOk rng}.

(** A spawn keeps the board well formed and touches nothing but the grid. *)
Lemma spawn_random_tile_keeps self :
  wf_board self ->
  post (spawn_random_tile self)
       (fun result => wf_board (snd result) /\
                      _highscore (snd result) = _highscore self /\
                      ai_spawner (snd result) = ai_spawner self).
Proof.
  intros Hwf. eapply post_weaken; [apply spawn_tile_spawned, Hwf|].
  intros [r self'] Hsp. unfold spawned in Hsp. cbn [snd].
  destruct (where_zero (_grid self)) as [|c0 cells] eqn:Hcells.
  - injection Hsp as -> ->. repeat split; apply Hwf.
  - destruct Hsp as (row & col & value & Hin & Hvalue & Hplace & _).
    cbn [snd] in Hplace. rewrite <- Hcells in Hin.
    assert (Hv : value <> 0) by (destruct Hvalue as [<-|[<-|[]]]; discriminate).
    destruct (place_on_empty self row col value Hwf Hin Hv)
      as (b' & Hp & _ & _ & _ & _ & _ & Hwf' & _).
    rewrite Hplace in Hp. injection Hp as <-.
    split; [exact Hwf'|].
    unfold place in Hplace.
    destruct (set_cell (_grid self) row col value); [|discriminate].
    cbn in Hplace. injection Hplace as <-. split; reflexivity.
Qed.

Variable py_int : string -> result Z.

(** C7, as the code has it.  Construction opens and reads the high-score
    file once, after the initial spawns.  A file that does not exist makes
    construction fail with [FileNotFoundError].  An empty file leaves the
    high score at zero.  Any other text is handed to [int]: its value
    becomes the high score, and its [ValueError] makes construction fail. *)
Theorem board_init_reads_store (size : nat) (difficulty : string)
    (ai_depth : nat) (spawn_initial : bool) (store : Store) (s : rng) :
  match content store with
  | None =>
      Board_init py_int size difficulty ai_depth spawn_initial store s
        = Raise FileNotFoundError
  | Some text =>
      if String.eqb text "" then
        exists board store' s',
          Board_init py_int size difficulty ai_depth spawn_initial store s
            = Ok ((board, store'), s') /\
          _highscore board = 0 /\
          reads store' = S (reads store) /\ content store' = content store
      else
        match py_int text with
        | Ok value =>
            exists board store' s',
              Board_init py_int size difficulty ai_depth spawn_initial store s
                = Ok ((board, store'), s') /\
              _highscore board = value /\
              reads store' = S (reads store) /\ content store' = content store
        | Raise e =>
            Board_init py_int size difficulty ai_depth spawn_initial store s
              = Raise e
        end
  end.
Proof using random_ok.
  unfold Board_init.
  set (self0 := {| size := size; _grid := np_zeros size size; _score := 0;
                   _high_tile := 0; _game_over := false; _won := false;
                   _highscore := 0; difficulty := difficulty;
                   ai_spawner := AISpawner_init difficulty ai_depth false |}).
  assert (Hwf0 : wf_board self0) by apply np_zeros_square.
  assert (Hprefix :
            post (if spawn_initial then
                    '(_, self) ← spawn_random_tile self0;
                    '(_, self) ← spawn_random_tile self;
                    mret self
                  else mret self0 : M rng Board)
                 (fun self => _highscore self = 0)).
  { destruct spawn_initial; [|apply post_ret; reflexivity].
    eapply post_bind; [apply spawn_random_tile_keeps, Hwf0|].
    intros [r1 self1] (Hwf1 & Hhs1 & _). cbn [snd] in *.
    eapply post_bind; [apply spawn_random_tile_keeps, Hwf1|].
    intros [r2 self2] (Hwf2 & Hhs2 & _). cbn [snd] in *.
    apply post_ret. rewrite Hhs2, Hhs1. reflexivity. }
  destruct (Hprefix s) as (self & s1 & Hrun & Hhs).
  rewrite (run_bind _ _ _ _ _ Hrun).
  unfold open_read. destruct (content store) as [text|] eqn:Hcontent;
    [|reflexivity].
  unfold mbind, M_bind, lift, mret, M_ret. cbv beta iota.
  destruct (String.eqb text "") eqn:Hempty; cbn [negb].
  - eexists _, _, _. split; [reflexivity|]. cbn [reads content].
    repeat split; assumption.
  - destruct (py_int text) as [value|e] eqn:Hint; [|reflexivity].
    eexists _, _, _.
    split; [reflexivity|]. cbn [reads content _highscore with_highscore].
    repeat split; assumption.
Qed.

End ConstructionFacts.

Lemma board_init_reads_store_witness :
  let py_int := fun text : string =>
    if String.eqb text "2048" then Ok 2048 else Raise ValueError in
  (exists board store' s',
     @Board_init _ example_arith binary64_neg_inf _ counter_source py_int
       4 "medium" 2 true {| content := Some ""%string; reads := 0 |} 0%nat
       = Ok ((board, store'), s') /\
     _highscore board = 0 /\
     reads store' = 1%nat /\ content store' = Some ""%string) /\
  (exists board store' s',
     @Board_init _ example_arith binary64_neg_inf _ counter_source py_int
       4 "medium" 2 true {| content := Some "2048"%string; reads := 0 |} 0%nat
       = Ok ((board, store'), s') /\
     _highscore board = 2048 /\
     reads store' = 1%nat /\ content store' = Some "2048"%string).
Proof.
  intros py_int. split.
  - exact (@board_init_reads_store _ example_arith binary64_neg_inf _
             counter_source counter_source_ok py_int 4 "medium" 2 true
             {| content := Some ""%string; reads := 0 |} 0%nat).
  - exact (@board_init_reads_store _ example_arith binary64_neg_inf _
             counter_source counter_source_ok py_int 4 "medium" 2 true
             {| content := Some "2048"%string; reads := 0 |} 0%nat).
Defined.

(** C7 as stated fails: with no high-score file, constructing a board
    raises [FileNotFoundError], whether or not the initial tiles are
    spawned. *)
Lemma board_init_fails_without_store :
  let py_int := fun text : string => Raise ValueError : result Z in
  let missing := {| content := None; reads := 0 |} in
  @Board_init _ example_arith binary64_neg_inf _ counter_source py_int
    4 "medium" 2 false missing 0%nat = Raise FileNotFoundError /\
  @Board_init _ example_arith binary64_neg_inf _ counter_source py_int
    4 "medium" 2 true missing 0%nat = Raise FileNotFoundError.
Proof. split; vm_compute; reflexivity. Qed.

(* ================================================================== *)
(** * Further properties of the code *)

(** ** Transposition *)

Lemma nth_map_seq_grid {A : Type} (f : nat -> A) n j d :
  (j < n)%nat -> nth j (map f (seq 0 n)) d = f j.
Proof.
  intros Hj. rewrite (nth_indep _ d (f 0%nat)) by (rewrite length_map, length_seq; exact Hj).
  rewrite (map_nth f (seq 0 n) 0%nat j). rewrite seq_nth by exact Hj. reflexivity.
Qed.

Lemma nth_column (g : grid) i j :
  nth i (map (fun row => nth j row 0) g) 0 = nth j (nth i g []) 0.
Proof.
  rewrite <- (map_nth (fun row => nth j row 0) g [] i).
  destruct j; reflexivity.
Qed.

Lemma transpose_involutive n (g : grid) :
  square n g -> transpose (transpose g) = g.
Proof.
  intros Hsq. pose proof (square_transpose _ _ Hsq) as Hsq'.
  unfold transpose at 1. rewrite (square_ncols _ _ Hsq').
  destruct Hsq as [Hlen Hrows].
  apply nth_ext with (d := []) (d' := []).
  - rewrite length_map, length_seq. symmetry. exact Hlen.
  - intros i Hi. rewrite length_map, length_seq in Hi.
    rewrite nth_map_seq_grid by exact Hi.
    unfold transpose. rewrite (square_ncols n g (conj Hlen Hrows)).
    rewrite map_map.
    assert (Hrow : length (nth i g []) = n).
    { rewrite List.Forall_forall in Hrows. apply Hrows, nth_In. lia. }
    rewrite <- (map_nth_seq (nth i g [])). rewrite Hrow.
    apply map_ext. intros j. apply nth_column.
Qed.

Lemma flatten_heads (a : nat -> Z) (b : nat -> list Z) (l : list nat) :
  flatten (map (fun j => a j :: b j) l) ≡ₚ map a l ++ flatten (map b l).
Proof.
  induction l as [|j l IH]; [reflexivity|].
  unfold flatten in *. cbn [map concat app]. constructor.
  rewrite IH. rewrite !app_assoc.
  apply Permutation_app_tail, Permutation_app_comm.
Qed.

Lemma flatten_columns c (g : grid) :
  Forall (fun row => length row = c) g ->
  flatten (map (fun j => map (fun row => nth j row 0) g) (seq 0 c)) ≡ₚ flatten g.
Proof.
  induction 1 as [|row g Hrow Hg IH].
  - cbn [map]. induction (seq 0 c) as [|j l IHl]; [reflexivity|exact IHl].
  - cbn [map]. rewrite flatten_heads, IH. unfold flatten. cbn [concat].
    rewrite <- Hrow, map_nth_seq. reflexivity.
Qed.

Lemma flatten_transpose n (g : grid) :
  square n g -> flatten (transpose g) ≡ₚ flatten g.
Proof.
  intros Hsq. unfold transpose. rewrite (square_ncols _ _ Hsq).
  apply flatten_columns, Hsq.
Qed.

Lemma flatten_map_rev (g : grid) : flatten (map (@rev Z) g) ≡ₚ flatten g.
Proof.
  induction g as [|row g IH]; [reflexivity|].
  unfold flatten in *. cbn [map concat]. rewrite IH.
  apply Permutation_app_tail. symmetry. apply Permutation_rev.
Qed.

Lemma Forall_rows (P : Z -> Prop) (g : grid) :
  Forall P (flatten g) <-> Forall (Forall P) g.
Proof.
  unfold flatten. induction g as [|row g IH]; cbn [concat].
  - split; constructor.
  - rewrite Forall_app, IH, Forall_cons. reflexivity.
Qed.

Lemma non_zero_of_perm l1 l2 : l1 ≡ₚ l2 -> non_zero_of l1 ≡ₚ non_zero_of l2.
Proof.
  unfold non_zero_of. induction 1 as [|x l1 l2 H IH|x y l|l1 l2 l3 H1 IH1 H2 IH2].
  - reflexivity.
  - cbn [List.filter]. destruct (negb (x =? 0)); [constructor|]; exact IH.
  - cbn [List.filter]. destruct (negb (x =? 0)), (negb (y =? 0));
      try reflexivity. apply perm_swap.
  - etransitivity; eassumption.
Qed.

Lemma count_nonzero_transpose n (g : grid) :
  square n g -> count_nonzero (transpose g) = count_nonzero g.
Proof.
  intros Hsq. unfold count_nonzero.
  apply Permutation_length, non_zero_of_perm, (flatten_transpose n), Hsq.
Qed.

Lemma max_of_cons_le x l : x <= max_of (x :: l) /\ Forall (fun v => v <= max_of (x :: l)) l.
Proof.
  cbn [max_of]. revert x. induction l as [|y l IH]; intros x; cbn [fold_left].
  - split; [lia|constructor].
  - destruct (IH (Z.max x y)) as [H1 H2]. split; [lia|].
    constructor; [lia|exact H2].
Qed.

Lemma max_of_In l : l <> [] -> In (max_of l) l.
Proof.
  destruct l as [|x l]; [congruence|]. intros _. cbn [max_of].
  revert x. induction l as [|y l IH]; intros x; cbn [fold_left].
  - left. reflexivity.
  - destruct (IH (Z.max x y)) as [H|H].
    + rewrite <- H.
      destruct (Z.max_spec x y) as [[_ Hm]|[_ Hm]]; rewrite Hm.
      * right. left. reflexivity.
      * left. reflexivity.
    + right. right. exact H.
Qed.

Lemma max_of_perm l1 l2 : l1 ≡ₚ l2 -> max_of l1 = max_of l2.
Proof.
  intros Hp. destruct l1 as [|x l1].
  - apply Permutation_nil_l in Hp. subst. reflexivity.
  - symmetry. apply max_of_spec.
    + rewrite <- Hp. apply max_of_In. discriminate.
    + rewrite <- Hp. destruct (max_of_cons_le x l1). constructor; assumption.
Qed.

(** ** More on [combine_line] *)

Lemma resolve_scan_gain values :
  Forall (fun v => 0 < v) values -> line_sum values <= Int64.max_signed ->
  0 <= snd (resolve_scan values) <= line_sum values /\
  (snd (resolve_scan values) = 0 <-> no_equal_pair values = true) /\
  (snd (resolve_scan values) = 0 <->
   length (fst (resolve_scan values)) = length values).
Proof.
  induction values as [| |x rest IH|x y rest Hxy IH] using scan_ind;
    intros Hpos Hsum.
  - cbn. repeat split; intros; try lia; reflexivity.
  - cbn. inversion Hpos; subst. repeat split; intros; try lia; reflexivity.
  - rewrite resolve_scan_cons2, Z.eqb_refl. cbn [fst snd].
    inversion Hpos as [|? ? Hx Hpos']; subst. inversion Hpos' as [|? ? _ Hrest]; subst.
    change (line_sum (x :: x :: rest)) with (x + (x + line_sum rest)) in Hsum |- *.
    pose proof (line_sum_nonneg rest) as Hnn.
    assert (Hrest0 : Forall (fun v => 0 <= v) rest)
      by (eapply List.Forall_impl; [|exact Hrest]; cbn; intros; lia).
    specialize (Hnn Hrest0).
    destruct (IH Hrest ltac:(lia)) as ([Hlo Hhi] & _ & _).
    assert (Hxx : Int64.add x x = x + x).
    { unfold Int64.add. apply wrap_id.
      unfold Int64.in_range, Int64.min_signed, Int64.max_signed in *. lia. }
    rewrite Hxx.
    assert (Hg : Int64.add (x + x) (snd (resolve_scan rest))
                 = x + x + snd (resolve_scan rest)).
    { unfold Int64.add. apply wrap_id.
      unfold Int64.in_range, Int64.min_signed, Int64.max_signed in *. lia. }
    rewrite Hg.
    pose proof (resolve_scan_length rest) as Hlen.
    rewrite no_equal_pair_cons2, Z.eqb_refl. cbn [negb andb length].
    repeat split; intros; try lia; try discriminate.
  - rewrite resolve_scan_cons2.
    destruct (Z.eqb_spec x y) as [->|_]; [congruence|]. cbn [fst snd].
    inversion Hpos as [|? ? Hx Hpos']; subst.
    change (line_sum (x :: y :: rest)) with (x + line_sum (y :: rest)) in Hsum |- *.
    destruct (IH Hpos' ltac:(lia)) as ([Hlo Hhi] & Hpair & Hlen).
    rewrite no_equal_pair_cons2.
    destruct (Z.eqb_spec x y) as [->|_]; [congruence|]. cbn [negb andb].
    split; [lia|]. split; [exact Hpair|].
    rewrite Hlen. cbn [length]. split; intros; lia.
Qed.

Lemma non_zero_of_positive line :
  Forall (fun v => 0 <= v) line -> Forall (fun v => 0 < v) (non_zero_of line).
Proof.
  intros H. unfold non_zero_of. apply List.Forall_forall. intros v Hv.
  apply filter_In in Hv as [Hin Hnz].
  rewrite List.Forall_forall in H. specialize (H v Hin).
  destruct (Z.eqb_spec v 0); [discriminate|lia].
Qed.

Lemma combine_line_fst line :
  fst (combine_line line) =
    fst (resolve_scan (non_zero_of line))
      ++ repeat 0 (length line - length (fst (resolve_scan (non_zero_of line)))).
Proof.
  rewrite combine_line_resolve. unfold resolve.
  destruct (resolve_scan (non_zero_of line)). reflexivity.
Qed.

Lemma combine_line_snd line :
  snd (combine_line line) = snd (resolve_scan (non_zero_of line)).
Proof.
  rewrite combine_line_resolve. unfold resolve.
  destruct (resolve_scan (non_zero_of line)). reflexivity.
Qed.

Lemma combine_line_count line :
  (length (non_zero_of (fst (combine_line line))) <= length (non_zero_of line))%nat.
Proof.
  rewrite combine_line_fst, non_zero_of_app, non_zero_of_repeat_0, app_nil_r.
  etransitivity; [apply non_zero_of_length|apply resolve_scan_length].
Qed.

Lemma resolve_scan_positive values :
  Forall (fun v => 0 < v) values -> line_sum values <= Int64.max_signed ->
  Forall (fun v => 0 < v) (fst (resolve_scan values)).
Proof.
  intros Hpos Hsum.
  assert (Hnn : Forall (fun v => 0 <= v) values)
    by (eapply List.Forall_impl; [|exact Hpos]; cbn; intros; lia).
  destruct (resolve_scan_sum_exact values Hnn Hsum) as [Hs Hout].
  assert (Hnz : Forall (fun v => v <> 0) (fst (resolve_scan values))).
  { apply resolve_scan_nonzero.
    - apply List.Forall_forall. intros v Hv.
      pose proof (line_sum_bound values v Hnn Hv).
      rewrite List.Forall_forall in Hnn. specialize (Hnn v Hv). lia.
    - eapply List.Forall_impl; [|exact Hpos]. cbn. intros; lia. }
  rewrite List.Forall_forall in *. intros v Hv.
  specialize (Hout v Hv). specialize (Hnz v Hv). lia.
Qed.

Lemma non_zero_of_positive_id l : Forall (fun v => 0 < v) l -> non_zero_of l = l.
Proof.
  intros H. apply non_zero_of_id.
  eapply List.Forall_impl; [|exact H]. cbn. intros; lia.
Qed.

Lemma combine_line_count_tiles line :
  Forall (fun v => 0 <= v) line -> line_sum line <= Int64.max_signed ->
  length (non_zero_of (fst (combine_line line)))
  = length (fst (resolve_scan (non_zero_of line))).
Proof.
  intros Hnn Hsum.
  pose proof (non_zero_of_positive line Hnn) as Hpos.
  assert (Hsum' : line_sum (non_zero_of line) <= Int64.max_signed)
    by (rewrite line_sum_non_zero; exact Hsum).
  pose proof (resolve_scan_positive _ Hpos Hsum') as Hout.
  rewrite combine_line_fst, non_zero_of_app, non_zero_of_repeat_0, app_nil_r.
  rewrite (non_zero_of_positive_id _ Hout). reflexivity.
Qed.

Lemma combine_line_gain (line : list Z) :
  Forall (fun v => 0 <= v) line -> line_sum line <= Int64.max_signed ->
  0 <= snd (combine_line line) <= line_sum line /\
  (snd (combine_line line) = 0 <->
   length (non_zero_of (fst (combine_line line))) = length (non_zero_of line)).
Proof.
  intros Hnn Hsum.
  pose proof (non_zero_of_positive line Hnn) as Hpos.
  assert (Hsum' : line_sum (non_zero_of line) <= Int64.max_signed)
    by (rewrite line_sum_non_zero; exact Hsum).
  destruct (resolve_scan_gain _ Hpos Hsum') as (Hrange & _ & Hlen).
  rewrite line_sum_non_zero in Hrange.
  rewrite combine_line_snd, (combine_line_count_tiles line Hnn Hsum).
  split; assumption.
Qed.

(** X2.  What a line gains.  For tiles that are not negative and whose sum is an
    [int64], the points gained lie between 0 and the sum of the line; they are 0
    exactly when no two equal tiles are neighbours (zeros apart), which is
    exactly when the tiles only slide: the line comes back as its tiles in order
    followed by zeros, with as many tiles as before. *)
Theorem combine_line_score (line : list Z) :
  Forall (fun v => 0 <= v) line -> line_sum line <= Int64.max_signed ->
  0 <= snd (combine_line line) <= line_sum line /\
  (snd (combine_line line) = 0 <-> has_equal_pair line = false) /\
  (snd (combine_line line) = 0 <->
   fst (combine_line line) =
     non_zero_of line ++ repeat 0 (length line - length (non_zero_of line))) /\
  (snd (combine_line line) = 0 <->
   length (non_zero_of (fst (combine_line line))) = length (non_zero_of line)).
Proof.
  intros Hnn Hsum.
  pose proof (non_zero_of_positive line Hnn) as Hpos.
  assert (Hsum' : line_sum (non_zero_of line) <= Int64.max_signed)
    by (rewrite line_sum_non_zero; exact Hsum).
  destruct (resolve_scan_gain _ Hpos Hsum') as (Hrange & Hpair & Hlen).
  rewrite line_sum_non_zero in Hrange.
  pose proof (combine_line_count_tiles line Hnn Hsum) as Hcount.
  rewrite combine_line_snd.
  split; [exact Hrange|]. split; [|split].
  - rewrite Hpair. unfold has_equal_pair.
    destruct (no_equal_pair (non_zero_of line)); cbn; split; congruence.
  - split.
    + intros H0. apply Hpair in H0.
      rewrite combine_line_fst, (resolve_scan_no_pair _ H0). reflexivity.
    + intros Heq. apply Hlen. rewrite <- Hcount, Heq.
      rewrite non_zero_of_app, non_zero_of_repeat_0, app_nil_r.
      rewrite (non_zero_of_positive_id _ Hpos). reflexivity.
  - rewrite Hcount. exact Hlen.
Qed.

Lemma combine_line_score_witness :
  let line := [2; 0; 4; 2] in
  0 <= snd (combine_line line) <= line_sum line /\
  (snd (combine_line line) = 0 <-> has_equal_pair line = false) /\
  (snd (combine_line line) = 0 <->
   fst (combine_line line) =
     non_zero_of line ++ repeat 0 (length line - length (non_zero_of line))) /\
  (snd (combine_line line) = 0 <->
   length (non_zero_of (fst (combine_line line))) = length (non_zero_of line)).
Proof.
  intros line. apply (combine_line_score line).
  - repeat constructor; lia.
  - vm_compute. discriminate.
Defined.

(** X1.  The shape of what [combine_line] returns: a line as long as the one it
    was given, holding no more tiles; a line without tiles (empty, or all zeros)
    comes back as it is, with no points; and when the values are non-negative
    [int64] values the tiles are packed at the start, followed only by zeros. *)
Theorem combine_line_shape (line : list Z) :
  length (fst (combine_line line)) = length line /\
  (length (non_zero_of (fst (combine_line line)))
     <= length (non_zero_of line))%nat /\
  (non_zero_of line = [] -> combine_line line = (line, 0)) /\
  (Forall (fun v => 0 <= v <= Int64.max_signed) line ->
   compact (fst (combine_line line))).
Proof.
  split; [apply combine_line_length|]. split; [apply combine_line_count|].
  split; [|apply combine_line_compact].
  intros Hnil. rewrite combine_line_resolve. unfold resolve. rewrite Hnil.
  cbn [resolve_scan app length]. rewrite Nat.sub_0_r. f_equal.
  clear -Hnil. induction line as [|v line IH]; [reflexivity|].
  unfold non_zero_of in Hnil. cbn [List.filter] in Hnil.
  destruct (Z.eqb_spec v 0) as [->|]; [|discriminate].
  cbn [negb] in Hnil. cbn [length repeat]. f_equal. apply IH, Hnil.
Qed.

Lemma combine_line_shape_witness :
  compact (fst (combine_line [0; 2; 0; 2])) /\
  combine_line [0; 0; 0; 0] = ([0; 0; 0; 0], 0).
Proof.
  split.
  - apply (combine_line_shape [0; 2; 0; 2]).
    repeat constructor; unfold Int64.max_signed; lia.
  - apply (combine_line_shape [0; 0; 0; 0]). reflexivity.
Defined.

(** ** More on [Board.move] *)

Lemma move_cases direction self r self' :
  wf_board self -> move direction self = Ok (r, self') ->
  (r = false /\ self' = self) \/
  (r = true /\ valid_direction direction /\
   resolved_grid direction (_grid self) <> _grid self /\
   self' = commit self (resolved_grid direction (_grid self))
                  (resolved_score direction (_grid self))).
Proof.
  intros Hwf Hmove.
  destruct (str_in direction ["up"; "down"; "left"; "right"]%string) eqn:Hd.
  - pose proof (str_in_valid _ Hd) as Hv.
    rewrite (move_spec _ _ Hwf Hv) in Hmove.
    destruct (decide _) as [Heq|Hne]; injection Hmove as <- <-.
    + left. split; reflexivity.
    + right. repeat split; assumption.
  - unfold move in Hmove. rewrite Hd in Hmove. cbn in Hmove.
    injection Hmove as <- <-. left. split; reflexivity.
Qed.

Lemma non_zero_of_rev l : non_zero_of (rev l) = rev (non_zero_of l).
Proof. unfold non_zero_of. apply List.filter_rev. Qed.

Lemma non_zero_of_full l : length (non_zero_of l) = length l -> non_zero_of l = l.
Proof.
  induction l as [|v l IH]; [reflexivity|].
  unfold non_zero_of in *. cbn [List.filter length].
  pose proof (non_zero_of_length l) as Hle. unfold non_zero_of in Hle.
  destruct (negb (v =? 0)); cbn [length]; intros H.
  - f_equal. apply IH. lia.
  - lia.
Qed.

Lemma In_repeat_0 n : (0 < n)%nat -> In 0 (repeat 0 n).
Proof. destruct n; [lia|]. intros _. left. reflexivity. Qed.

(** A line that comes out of a move without an empty cell is the line that
    went in. *)
Lemma slide_full_fixed flip line : ~ In 0 (slide flip line) -> slide flip line = line.
Proof.
  unfold slide. set (line' := if flip then rev line else line).
  intros Hfull.
  assert (Hfull' : ~ In 0 (fst (combine_line line'))).
  { intros Hin. apply Hfull. destruct flip; [apply in_rev; rewrite rev_involutive|];
      exact Hin. }
  rewrite combine_line_fst in Hfull'.
  pose proof (resolve_scan_length (non_zero_of line')) as Hle1.
  pose proof (non_zero_of_length line') as Hle2.
  assert (Hlen : (length line' <= length (fst (resolve_scan (non_zero_of line'))))%nat).
  { destruct (Nat.le_gt_cases (length line')
                (length (fst (resolve_scan (non_zero_of line'))))) as [H|H];
      [exact H|].
    exfalso. apply Hfull'. apply in_or_app. right. apply In_repeat_0. lia. }
  assert (Hnz : non_zero_of line' = line') by (apply non_zero_of_full; lia).
  assert (Hpair : no_equal_pair (non_zero_of line') = true).
  { destruct (no_equal_pair (non_zero_of line')) eqn:Hp; [reflexivity|].
    pose proof (resolve_scan_shrinks _ Hp). lia. }
  assert (Hfixed : fst (combine_line line') = line').
  { rewrite combine_line_fst, (resolve_scan_no_pair _ Hpair). cbn [fst].
    rewrite Hnz, Nat.sub_diag. cbn [repeat]. apply app_nil_r. }
  rewrite Hfixed. subst line'. destruct flip; [apply rev_involutive|reflexivity].
Qed.

Lemma map_slide_full_fixed flip (g : grid) :
  ~ In 0 (flatten (map (slide flip) g)) -> map (slide flip) g = g.
Proof.
  intros Hfull. apply map_fixed. apply List.Forall_forall. intros row Hrow.
  apply slide_full_fixed. intros Hin. apply Hfull.
  apply (In_flatten _ (slide flip row)); [apply in_map, Hrow|exact Hin].
Qed.

(** A grid that comes out of a move without an empty cell is the grid that
    went in. *)
Lemma resolved_full_fixed n direction (g : grid) :
  square n g -> ~ In 0 (flatten (resolved_grid direction g)) ->
  resolved_grid direction g = g.
Proof.
  intros Hsq. unfold resolved_grid.
  destruct (str_in direction ["up"; "down"]%string).
  - intros Hfull.
    rewrite map_slide_full_fixed; [apply (transpose_involutive n), Hsq|].
    intros Hin. apply Hfull.
    rewrite (flatten_transpose n)
      by (apply square_map_slide, square_transpose, Hsq).
    exact Hin.
  - apply map_slide_full_fixed.
Qed.

Lemma move_accepted_has_room direction self self' :
  wf_board self -> move direction self = Ok (true, self') ->
  In 0 (flatten (_grid self')).
Proof.
  intros Hwf Hmove.
  destruct (move_cases _ _ _ _ Hwf Hmove) as [[? _]|(_ & _ & Hne & ->)];
    [discriminate|].
  cbn [commit _grid].
  destruct (in_dec Z.eq_dec 0
              (flatten (resolved_grid direction (_grid self)))) as [H|H];
    [exact H|].
  exfalso. apply Hne. apply (resolved_full_fixed (size self)); assumption.
Qed.

(** *** Tiles and points *)

Lemma count_nonzero_cons row (g : grid) :
  count_nonzero (row :: g) = (length (non_zero_of row) + count_nonzero g)%nat.
Proof.
  unfold count_nonzero, flatten. cbn [concat].
  rewrite non_zero_of_app. apply length_app.
Qed.

Lemma slide_count flip line :
  length (non_zero_of (slide flip line)) =
    length (non_zero_of (fst (combine_line (if flip then rev line else line)))).
Proof.
  unfold slide. destruct flip; [|reflexivity].
  rewrite non_zero_of_rev. apply length_rev.
Qed.

Lemma flip_count (flip : bool) line :
  length (non_zero_of (if flip then rev line else line)) = length (non_zero_of line).
Proof. destruct flip; [|reflexivity]. rewrite non_zero_of_rev. apply length_rev. Qed.

Lemma flip_sum (flip : bool) line :
  line_sum (if flip then rev line else line) = line_sum line.
Proof. destruct flip; [apply line_sum_rev|reflexivity]. Qed.

Lemma flip_Forall (P : Z -> Prop) (flip : bool) line :
  Forall P line -> Forall P (if flip then rev line else line).
Proof. destruct flip; [apply Forall_rev_Z|trivial]. Qed.

Lemma slide_count_le flip line :
  (length (non_zero_of (slide flip line)) <= length (non_zero_of line))%nat.
Proof.
  rewrite slide_count. etransitivity; [apply combine_line_count|].
  rewrite flip_count. reflexivity.
Qed.

Lemma map_slide_count_le flip (g : grid) :
  (count_nonzero (map (slide flip) g) <= count_nonzero g)%nat.
Proof.
  induction g as [|row g IH]; [reflexivity|].
  cbn [map]. rewrite !count_nonzero_cons.
  pose proof (slide_count_le flip row). lia.
Qed.

Lemma resolved_count_le n direction (g : grid) :
  square n g -> (count_nonzero (resolved_grid direction g) <= count_nonzero g)%nat.
Proof.
  intros Hsq. unfold resolved_grid.
  destruct (str_in direction ["up"; "down"]%string).
  - rewrite (count_nonzero_transpose n)
      by (apply square_map_slide, square_transpose, Hsq).
    etransitivity; [apply map_slide_count_le|].
    rewrite (count_nonzero_transpose n) by exact Hsq. reflexivity.
  - apply map_slide_count_le.
Qed.

Lemma slide_gain flip line :
  Forall (fun v => 0 <= v) line -> line_sum line <= Int64.max_signed ->
  0 <= slide_score flip line <= line_sum line /\
  (slide_score flip line = 0 <->
   length (non_zero_of (slide flip line)) = length (non_zero_of line)).
Proof.
  intros Hnn Hsum. unfold slide_score. rewrite slide_count.
  set (line' := if flip then rev line else line).
  assert (Hnn' : Forall (fun v => 0 <= v) line') by apply flip_Forall, Hnn.
  assert (Hsum' : line_sum line' <= Int64.max_signed)
    by (unfold line'; rewrite flip_sum; exact Hsum).
  destruct (combine_line_gain line' Hnn' Hsum') as (Hrange & Hcount).
  unfold line' in Hrange, Hcount. rewrite flip_sum in Hrange.
  rewrite flip_count in Hcount. split; assumption.
Qed.

Lemma map_slide_gain flip (g : grid) :
  Forall (Forall (fun v => 0 <= v)) g -> grid_sum g <= Int64.max_signed ->
  forall total, 0 <= total -> total + grid_sum g <= Int64.max_signed ->
  exists gained,
    fold_left (fun total line => Int64.add total (slide_score flip line)) g total
      = total + gained /\
    0 <= gained <= grid_sum g /\
    (gained = 0 <-> count_nonzero (map (slide flip) g) = count_nonzero g).
Proof.
  induction 1 as [|row g Hrow Hg IH]; intros Hsum total Htotal Hfit.
  - exists 0. cbn. repeat split; intros; try lia; reflexivity.
  - rewrite grid_sum_cons in Hsum, Hfit.
    pose proof (grid_sum_nonneg _ Hg) as Hgnn.
    pose proof (line_sum_nonneg _ Hrow) as Hrnn.
    destruct (slide_gain flip row Hrow ltac:(lia)) as ([Hlo Hhi] & Hzero).
    cbn [fold_left map].
    assert (Hadd : Int64.add total (slide_score flip row)
                   = total + slide_score flip row).
    { unfold Int64.add. apply wrap_id.
      unfold Int64.in_range, Int64.min_signed, Int64.max_signed in *. lia. }
    rewrite Hadd.
    destruct (IH ltac:(lia) (total + slide_score flip row) ltac:(lia) ltac:(lia))
      as (gained & Hfold & [Hglo Hghi] & Hgzero).
    exists (slide_score flip row + gained). rewrite Hfold.
    rewrite !grid_sum_cons, !count_nonzero_cons.
    pose proof (slide_count_le flip row) as Hc1.
    pose proof (map_slide_count_le flip g) as Hc2.
    split; [lia|]. split; [lia|]. split.
    + intros H0. assert (slide_score flip row = 0) by lia.
      assert (gained = 0) by lia. apply Hzero in H. apply Hgzero in H1. lia.
    + intros Hc.
      assert (H1 : length (non_zero_of (slide flip row)) = length (non_zero_of row))
        by lia.
      assert (H2 : count_nonzero (map (slide flip) g) = count_nonzero g) by lia.
      apply Hzero in H1. apply Hgzero in H2. lia.
Qed.

Lemma resolved_gain n direction (g : grid) :
  square n g ->
  Forall (Forall (fun v => 0 <= v)) g -> grid_sum g <= Int64.max_signed ->
  0 <= resolved_score direction g <= grid_sum g /\
  (resolved_score direction g = 0 <->
   count_nonzero (resolved_grid direction g) = count_nonzero g).
Proof.
  intros Hsq Hnn Hsum. unfold resolved_score, resolved_grid.
  pose proof (grid_sum_nonneg _ Hnn) as Hgnn.
  destruct (str_in direction ["up"; "down"]%string).
  - rewrite (count_nonzero_transpose n)
      by (apply square_map_slide, square_transpose, Hsq).
    destruct (map_slide_gain (str_in direction ["right"; "down"]%string)
                (transpose g)) with (total := 0)
      as (gained & Hfold & Hrange & Hzero).
    + apply transpose_nonneg, Hnn.
    + rewrite (grid_sum_transpose n) by exact Hsq. exact Hsum.
    + lia.
    + rewrite (grid_sum_transpose n) by exact Hsq. lia.
    + rewrite Hfold. rewrite (grid_sum_transpose n) in Hrange by exact Hsq.
      rewrite (count_nonzero_transpose n) in Hzero by exact Hsq.
      cbn [Z.add]. split; [exact Hrange|exact Hzero].
  - destruct (map_slide_gain (str_in direction ["right"; "down"]%string) g)
      with (total := 0) as (gained & Hfold & Hrange & Hzero);
      [assumption|assumption|lia|lia|].
    rewrite Hfold. cbn [Z.add]. split; [exact Hrange|exact Hzero].
Qed.

(** X3.  A move never adds a tile, and the score tells whether tiles merged.  On
    a board of non-negative tiles whose sum, added to the score, is an [int64]:
    the score never goes down, it goes up by at most the sum of the tiles, and
    it goes up exactly when the move leaves fewer tiles on the board than there
    were. *)
Theorem move_score_and_merges (direction : string) (self self' : Board) (r : bool) :
  wf_board self ->
  Forall (Forall (fun v => 0 <= v)) (_grid self) ->
  0 <= _score self ->
  _score self + grid_sum (_grid self) <= Int64.max_signed ->
  move direction self = Ok (r, self') ->
  (count_nonzero (_grid self') <= count_nonzero (_grid self))%nat /\
  _score self <= _score self' <= _score self + grid_sum (_grid self) /\
  (_score self < _score self' <->
   (count_nonzero (_grid self') < count_nonzero (_grid self))%nat).
Proof.
  intros Hwf Hnn Hscore Hfit Hmove.
  pose proof (grid_sum_nonneg _ Hnn) as Hgnn.
  destruct (move_cases _ _ _ _ Hwf Hmove) as [[_ ->]|(_ & _ & _ & ->)].
  - split; [reflexivity|]. split; [lia|]. split; intros; lia.
  - cbn [commit _grid _score].
    destruct (resolved_gain (size self) direction (_grid self) Hwf Hnn
                ltac:(lia)) as ([Hlo Hhi] & Hzero).
    pose proof (resolved_count_le (size self) direction (_grid self) Hwf) as Hle.
    assert (Hadd : Int64.add (_score self) (resolved_score direction (_grid self))
                   = _score self + resolved_score direction (_grid self)).
    { unfold Int64.add. apply wrap_id.
      unfold Int64.in_range, Int64.min_signed, Int64.max_signed in *. lia. }
    rewrite Hadd. split; [exact Hle|]. split; [lia|].
    split; intros H.
    + destruct (Nat.eq_dec (count_nonzero (resolved_grid direction (_grid self)))
                  (count_nonzero (_grid self))) as [Heq|Hne]; [|lia].
      apply Hzero in Heq. lia.
    + destruct (Z.eq_dec (resolved_score direction (_grid self)) 0) as [Heq|Hne];
        [|lia].
      apply Hzero in Heq. lia.
Qed.

Lemma move_score_and_merges_witness :
  let b := board_of 4 [[2; 2; 4; 0]; [0; 4; 0; 4]; [2; 0; 0; 0]; [0; 0; 0; 0]] in
  exists self',
    move "left" b = Ok (true, self') /\
    (count_nonzero (_grid self') <= count_nonzero (_grid b))%nat /\
    _score b <= _score self' <= _score b + grid_sum (_grid b) /\
    (_score b < _score self' <->
     (count_nonzero (_grid self') < count_nonzero (_grid b))%nat).
Proof.
  intros b. accepted_move "left"%string b self' Hmove.
  exists self'. split; [reflexivity|].
  apply (move_score_and_merges "left" b self' true).
  - wf_by_computation.
  - repeat constructor; lia.
  - cbn. lia.
  - vm_compute. discriminate.
  - exact Hmove.
Defined.

(** *** Powers of two *)

Lemma line_sum_le_grid_sum row (g : grid) :
  Forall (Forall (fun v => 0 <= v)) g -> In row g -> line_sum row <= grid_sum g.
Proof.
  induction 1 as [|r g Hr Hg IH]; intros Hin; [destruct Hin|].
  rewrite grid_sum_cons.
  pose proof (grid_sum_nonneg _ Hg). pose proof (line_sum_nonneg _ Hr).
  destruct Hin as [->|Hin]; [lia|]. specialize (IH Hin). lia.
Qed.

Lemma Forall_rows_transpose (P : Z -> Prop) n (g : grid) :
  square n g -> Forall (Forall P) g -> Forall (Forall P) (transpose g).
Proof.
  intros Hsq H. apply Forall_rows. rewrite (flatten_transpose n) by exact Hsq.
  apply Forall_rows, H.
Qed.

(** A property of the cells that every line keeps through [combine_line]
    is kept by the grid through a move. *)
Lemma resolved_grid_rows (P : Z -> Prop) n direction (g : grid) :
  (forall line,
     Forall (fun v => 0 <= v) line -> line_sum line <= Int64.max_signed ->
     Forall P line -> Forall P (fst (combine_line line))) ->
  square n g ->
  Forall (Forall (fun v => 0 <= v)) g -> grid_sum g <= Int64.max_signed ->
  Forall (Forall P) g -> Forall (Forall P) (resolved_grid direction g).
Proof.
  intros Hline Hsq Hnn Hsum HP.
  assert (Hmap : forall flip (g' : grid),
             Forall (Forall (fun v => 0 <= v)) g' ->
             grid_sum g' <= Int64.max_signed ->
             Forall (Forall P) g' -> Forall (Forall P) (map (slide flip) g')).
  { intros flip g' Hnn' Hsum' HP'. apply List.Forall_forall. intros row' Hin.
    apply in_map_iff in Hin as (row & <- & Hin).
    pose proof (line_sum_le_grid_sum _ _ Hnn' Hin) as Hle.
    rewrite List.Forall_forall in Hnn', HP'.
    specialize (Hnn' _ Hin). specialize (HP' _ Hin).
    unfold slide. destruct flip.
    - apply Forall_rev_Z, Hline.
      + apply Forall_rev_Z, Hnn'.
      + rewrite line_sum_rev. lia.
      + apply Forall_rev_Z, HP'.
    - apply Hline; [exact Hnn'|lia|exact HP']. }
  unfold resolved_grid. destruct (str_in direction ["up"; "down"]%string).
  - apply (Forall_rows_transpose P n);
      [apply square_map_slide, square_transpose, Hsq|].
    apply Hmap.
    + apply transpose_nonneg, Hnn.
    + rewrite (grid_sum_transpose n) by exact Hsq. exact Hsum.
    + apply (Forall_rows_transpose P n); assumption.
  - apply Hmap; assumption.
Qed.

Lemma is_tile_nonneg v : is_tile v -> 0 <= v.
Proof.
  intros [->|(k & Hk & ->)]; [lia|]. apply Z.pow_nonneg. lia.
Qed.

Lemma resolve_scan_tiles values :
  Forall (fun v => exists k, 0 < k /\ v = 2 ^ k) values ->
  line_sum values <= Int64.max_signed ->
  Forall (fun v => exists k, 0 < k /\ v = 2 ^ k) (fst (resolve_scan values)).
Proof.
  induction values as [| |x rest IH|x y rest Hxy IH] using scan_ind;
    intros Htiles Hsum.
  - constructor.
  - exact Htiles.
  - rewrite resolve_scan_cons2, Z.eqb_refl. cbn [fst].
    inversion Htiles as [|? ? Hx Htiles']; subst.
    inversion Htiles' as [|? ? _ Hrest]; subst.
    change (line_sum (x :: x :: rest)) with (x + (x + line_sum rest)) in Hsum.
    assert (Hnn : 0 <= line_sum rest).
    { apply line_sum_nonneg. eapply List.Forall_impl; [|exact Hrest].
      cbn. intros v (k & Hk & ->). apply Z.pow_nonneg. lia. }
    destruct Hx as (k & Hk & ->).
    assert (0 < 2 ^ k) by (apply Z.pow_pos_nonneg; lia).
    constructor; [|apply IH; [exact Hrest|lia]].
    exists (k + 1). split; [lia|].
    unfold Int64.add. rewrite wrap_id
      by (unfold Int64.in_range, Int64.min_signed, Int64.max_signed in *; lia).
    rewrite Z.pow_add_r by lia. lia.
  - rewrite resolve_scan_cons2.
    destruct (Z.eqb_spec x y) as [->|_]; [congruence|]. cbn [fst].
    inversion Htiles as [|? ? Hx Htiles']; subst.
    change (line_sum (x :: y :: rest)) with (x + line_sum (y :: rest)) in Hsum.
    destruct Hx as (k & Hk & ->).
    assert (0 < 2 ^ k) by (apply Z.pow_pos_nonneg; lia).
    constructor; [exists k; split; [lia|reflexivity]|].
    apply IH; [exact Htiles'|lia].
Qed.

Lemma combine_line_tiles line :
  Forall (fun v => 0 <= v) line -> line_sum line <= Int64.max_signed ->
  Forall is_tile line -> Forall is_tile (fst (combine_line line)).
Proof.
  intros _ Hsum Htiles. rewrite combine_line_fst. apply Forall_app. split.
  - assert (Hnz : Forall (fun v => exists k, 0 < k /\ v = 2 ^ k)
                    (non_zero_of line)).
    { unfold non_zero_of. apply List.Forall_forall. intros v Hv.
      apply filter_In in Hv as [Hin Hnz].
      rewrite List.Forall_forall in Htiles.
      destruct (Htiles v Hin) as [->|H]; [discriminate|exact H]. }
    eapply List.Forall_impl;
      [|apply resolve_scan_tiles;
        [exact Hnz|rewrite line_sum_non_zero; exact Hsum]].
    cbn. intros v H. right. exact H.
  - apply List.Forall_forall. intros v Hv. apply repeat_spec in Hv. left. exact Hv.
Qed.

Lemma tiles_nonneg (g : grid) :
  Forall (Forall is_tile) g -> Forall (Forall (fun v => 0 <= v)) g.
Proof.
  intros Htiles. eapply List.Forall_impl; [|exact Htiles]. cbn. intros row Hrow.
  eapply List.Forall_impl; [|exact Hrow]. apply is_tile_nonneg.
Qed.

Lemma resolved_tiles n direction (g : grid) :
  square n g -> Forall (Forall is_tile) g -> grid_sum g <= Int64.max_signed ->
  Forall (Forall is_tile) (resolved_grid direction g).
Proof.
  intros Hsq Htiles Hsum.
  apply (resolved_grid_rows is_tile n); try assumption.
  - apply combine_line_tiles.
  - apply tiles_nonneg, Htiles.
Qed.

(** X4.  The board holds powers of two.  If every cell of a board is empty or a
    power of two from 2 on, and the sum of the cells is an [int64], then the
    same is true after any call of [move], accepted or not, and the sum of the
    cells is the same. *)
Theorem move_keeps_tiles (direction : string) (self self' : Board) (r : bool) :
  wf_board self ->
  Forall (Forall is_tile) (_grid self) ->
  grid_sum (_grid self) <= Int64.max_signed ->
  move direction self = Ok (r, self') ->
  Forall (Forall is_tile) (_grid self') /\
  grid_sum (_grid self') = grid_sum (_grid self).
Proof.
  intros Hwf Htiles Hsum Hmove.
  pose proof (tiles_nonneg _ Htiles) as Hnn.
  destruct (move_grid _ _ _ _ Hwf Hmove) as [Hsame|Hmoved].
  - rewrite Hsame. split; [exact Htiles|reflexivity].
  - rewrite Hmoved. split.
    + apply (resolved_tiles (size self)); assumption.
    + apply (resolved_grid_sum_exact (size self)); assumption.
Qed.

Lemma move_keeps_tiles_witness :
  let b := board_of 4 [[2; 2; 4; 4]; [0; 8; 0; 8]; [2; 0; 2; 2]; [16; 0; 0; 0]] in
  exists self',
    move "up" b = Ok (true, self') /\
    Forall (Forall is_tile) (_grid self') /\
    grid_sum (_grid self') = grid_sum (_grid b).
Proof.
  intros b. accepted_move "up"%string b self' Hmove.
  exists self'. split; [reflexivity|].
  apply (move_keeps_tiles "up" b self' true).
  - wf_by_computation.
  - unfold b, board_of; cbn [_grid]. tiles_by_computation.
  - vm_compute. discriminate.
  - exact Hmove.
Defined.

(** *** Score and high score *)

Lemma step_highscore a b b' :
  step a b = Ok b' ->
  _highscore b <= _highscore b' /\
  (_score b <= _highscore b -> _score b' <= _highscore b').
Proof.
  intros Hstep. destruct a as [direction|row col value]; cbn in Hstep.
  - destruct (move direction b) as [[r b1]|e] eqn:Hmove; [|discriminate].
    cbn in Hstep. injection Hstep as ->.
    unfold move in Hmove.
    destruct (negb _); [injection Hmove as _ <-; split; [lia|trivial]|].
    destruct (move_loop _ _ _ _ _ _) as [[new_grid gained]|e];
      [|discriminate].
    destruct (decide _); [injection Hmove as _ <-; split; [lia|trivial]|].
    destruct (np_max _); [|discriminate].
    injection Hmove as _ <-. cbn [_highscore _score]. split; intros; lia.
  - unfold place in Hstep.
    destruct (set_cell (_grid b) row col value); [|discriminate].
    cbn in Hstep. injection Hstep as <-. cbn. split; [lia|trivial].
Qed.

(** X5.  The high score keeps up with the score.  Along any sequence of moves
    and tile placements, the high score never goes down, and if it was not below
    the score at the start it is never below it afterwards. *)
Theorem highscore_follows_score (actions : list action) (b : Board)
    (trace : list Board) :
  _score b <= _highscore b ->
  play actions b = Ok trace ->
  Forall (fun s => _score s <= _highscore s /\ _highscore b <= _highscore s)
         trace.
Proof.
  revert b trace. induction actions as [|a rest IH]; intros b trace Hinv Hplay.
  - cbn in Hplay. injection Hplay as <-. constructor.
  - cbn in Hplay.
    destruct (step a b) as [b'|e] eqn:Hstep; [|discriminate]. cbn in Hplay.
    destruct (play rest b') as [trace'|e] eqn:Hrest; [|discriminate].
    cbn in Hplay. injection Hplay as <-.
    destruct (step_highscore _ _ _ Hstep) as [Hup Hkeep].
    specialize (Hkeep Hinv). constructor; [split; assumption|].
    eapply List.Forall_impl; [|apply (IH b' trace' Hkeep Hrest)].
    cbn. intros s [H1 H2]. split; [exact H1|lia].
Qed.

Lemma highscore_follows_score_witness :
  let b := board_of 4 [[2; 2; 4; 4]; [0; 8; 0; 8]; [2; 0; 2; 2]; [16; 0; 0; 0]] in
  exists trace,
    play [Move "left"; Place 3 3 2; Move "up"; Move "sideways"] b = Ok trace /\
    Forall (fun s => _score s <= _highscore s /\ _highscore b <= _highscore s)
           trace.
Proof.
  intros b.
  destruct (play [Move "left"; Place 3 3 2; Move "up"; Move "sideways"] b)
    as [trace|e] eqn:Hplay; [|vm_compute in Hplay; discriminate].
  exists trace. split; [reflexivity|].
  apply (highscore_follows_score
           [Move "left"; Place 3 3 2; Move "up"; Move "sideways"] b trace).
  - cbn. lia.
  - exact Hplay.
Defined.

(* ================================================================== *)
(** ** [check_game_over] *)

Lemma check_loop_spec dirs self :
  wf_board self -> Forall valid_direction dirs ->
  check_loop dirs self =
    Ok (forallb (fun d => bool_decide (resolved_grid d (_grid self) = _grid self))
                dirs).
Proof.
  intros Hwf. induction 1 as [|d dirs Hd Hdirs IH]; [reflexivity|].
  cbn [check_loop forallb]. rewrite (move_spec _ _ Hwf Hd).
  destruct (decide _) as [Heq|Hne]; cbn.
  - rewrite (bool_decide_eq_true_2 _ Heq). exact IH.
  - rewrite (bool_decide_eq_false_2 _ Hne). reflexivity.
Qed.

Lemma check_directions_valid :
  Forall valid_direction ["up"; "down"; "right"; "left"]%string.
Proof. repeat constructor; unfold valid_direction, directions; cbn; tauto. Qed.

Lemma no_move_spec self :
  wf_board self ->
  no_move self <->
  forallb (fun d => bool_decide (resolved_grid d (_grid self) = _grid self))
          ["up"; "down"; "right"; "left"]%string = true.
Proof.
  intros Hwf. split.
  - intros Hno. apply forallb_forall. intros d Hd.
    apply bool_decide_eq_true_2.
    assert (Hv : valid_direction d).
    { pose proof check_directions_valid as Hall.
      rewrite List.Forall_forall in Hall. apply Hall, Hd. }
    specialize (Hno d). rewrite (move_spec _ _ Hwf Hv) in Hno.
    destruct (decide _) as [Heq|Hne]; [exact Heq|discriminate].
  - intros Hall direction.
    destruct (str_in direction ["up"; "down"; "left"; "right"]%string) eqn:Hd.
    + pose proof (str_in_valid _ Hd) as Hv.
      rewrite (move_spec _ _ Hwf Hv).
      rewrite forallb_forall in Hall.
      assert (Hin : In direction ["up"; "down"; "right"; "left"]%string).
      { unfold valid_direction, directions in Hv. cbn in Hv |- *. tauto. }
      specialize (Hall _ Hin). apply bool_decide_eq_true_1 in Hall.
      destruct (decide _); [reflexivity|contradiction].
    + unfold move. rewrite Hd. reflexivity.
Qed.

(** X11.  [check_game_over] answers [True] exactly when no move is accepted, and
    writes the high score to the file only then; otherwise the file is left
    alone.  The write fails when the directory is missing. *)
Theorem check_game_over_spec (self : Board) (directory : bool) (store : Store) :
  wf_board self ->
  (no_move self ->
   check_game_over self directory store =
     if directory
     then Ok (true, {| content := Some (py_str (_highscore self));
                       reads := reads store |})
     else Raise FileNotFoundError) /\
  (~ no_move self -> check_game_over self directory store = Ok (false, store)).
Proof.
  intros Hwf. unfold check_game_over.
  rewrite (check_loop_spec _ _ Hwf check_directions_valid).
  pose proof (no_move_spec self Hwf) as Hspec.
  destruct (forallb _ _) eqn:Hall; cbn.
  - split; [|intros Hno; exfalso; apply Hno, Hspec; reflexivity].
    intros _. unfold update_highscore, open_write.
    destruct directory; reflexivity.
  - split; [|reflexivity].
    intros Hno. apply Hspec in Hno. discriminate.
Qed.

Lemma check_game_over_spec_witness :
  let stuck := board_of 4 (checkerboard 2 4 4) in
  let open := board_of 4 [[2; 0; 0; 0]; [0; 0; 0; 0]; [0; 0; 0; 0]; [0; 0; 0; 0]] in
  let store := {| content := Some "128"%string; reads := 1 |} in
  check_game_over stuck true store =
    Ok (true, {| content := Some "0"%string; reads := 1 |}) /\
  check_game_over stuck false store = Raise FileNotFoundError /\
  check_game_over open false store = Ok (false, store).
Proof.
  intros stuck open store.
  assert (Hstuck : no_move stuck).
  { apply no_move_spec; [wf_by_computation|]. vm_compute. reflexivity. }
  assert (Hopen : ~ no_move open).
  { intros H. apply no_move_spec in H; [|wf_by_computation].
    vm_compute in H. discriminate. }
  split; [|split].
  - apply (proj1 (check_game_over_spec stuck true store
                    ltac:(wf_by_computation)) Hstuck).
  - apply (proj1 (check_game_over_spec stuck false store
                    ltac:(wf_by_computation)) Hstuck).
  - apply (proj2 (check_game_over_spec open false store
                    ltac:(wf_by_computation)) Hopen).
Defined.

(** ** When the game is over *)

(** A line that [combine_line] gives back unchanged is packed. *)
Lemma combine_line_fixed_compact line :
  fst (combine_line line) = line -> compact line.
Proof.
  intros Hfix.
  set (out := fst (resolve_scan (non_zero_of line))) in *.
  pose proof (combine_line_fst line) as Hout. fold out in Hout.
  rewrite Hfix in Hout.
  assert (Hcount : length (non_zero_of line) = length (non_zero_of out)).
  { rewrite Hout at 1.
    rewrite non_zero_of_app, non_zero_of_repeat_0, app_nil_r. reflexivity. }
  pose proof (resolve_scan_length (non_zero_of line)) as Hle. fold out in Hle.
  pose proof (non_zero_of_length out) as Hle'.
  assert (Hfull : non_zero_of out = out) by (apply non_zero_of_full; lia).
  exists out, (length line - length out)%nat. split; [exact Hout|].
  rewrite <- Hfull. apply non_zero_of_Forall.
Qed.

Lemma compact_last_zero line :
  compact line -> In 0 line -> exists line', line = line' ++ [0].
Proof.
  intros (tiles & k & -> & Hnz) Hin.
  destruct k as [|k].
  - exfalso. cbn [repeat] in Hin. rewrite app_nil_r in Hin.
    rewrite List.Forall_forall in Hnz. apply (Hnz 0 Hin). reflexivity.
  - exists (tiles ++ repeat 0 k).
    rewrite <- app_assoc. f_equal. change [0] with (repeat 0 1).
    rewrite <- repeat_app. f_equal. lia.
Qed.

Lemma compact_head_tile line :
  compact line -> (exists v, In v line /\ v <> 0) -> nth 0 line 0 <> 0.
Proof.
  intros (tiles & k & -> & Hnz) (v & Hin & Hv).
  destruct tiles as [|t tiles].
  - cbn [app] in Hin. apply repeat_spec in Hin. contradiction.
  - cbn. inversion Hnz; assumption.
Qed.

(** A line that holds a tile and an empty cell moves to one side or to the
    other. *)
Lemma mixed_line_moves line :
  In 0 line -> (exists v, In v line /\ v <> 0) ->
  slide false line <> line \/ slide true line <> line.
Proof.
  intros Hzero Htile.
  destruct (decide (slide false line = line)) as [Hl|Hl];
    [|left; exact Hl].
  right. intros Hr. unfold slide in Hl, Hr.
  apply combine_line_fixed_compact in Hl.
  assert (Hr' : fst (combine_line (rev line)) = rev line).
  { rewrite <- Hr at 2. rewrite rev_involutive. reflexivity. }
  apply combine_line_fixed_compact in Hr'.
  destruct (compact_last_zero _ Hl Hzero) as (line' & ->).
  apply compact_head_tile in Hr'.
  - rewrite rev_app_distr in Hr'. cbn in Hr'. apply Hr'. reflexivity.
  - destruct Htile as (v & Hin & Hv). exists v. split; [|exact Hv].
    apply in_rev. rewrite rev_involutive. exact Hin.
Qed.

Lemma mixed_spec line :
  mixed line = true <-> In 0 line /\ exists v, In v line /\ v <> 0.
Proof.
  unfold mixed. rewrite andb_true_iff, has_zero_spec, existsb_exists.
  split; intros [H0 (v & Hin & Hv)]; (split; [exact H0|exists v; split; [exact Hin|]]).
  - destruct (Z.eqb_spec v 0); [discriminate|assumption].
  - destruct (Z.eqb_spec v 0); [contradiction|reflexivity].
Qed.

Lemma mixed_row_moves (g : grid) :
  existsb mixed g = true ->
  map (slide false) g <> g \/ map (slide true) g <> g.
Proof.
  intros Hex. apply existsb_exists in Hex as (row & Hin & Hmixed).
  apply mixed_spec in Hmixed as [Hzero Htile].
  destruct (mixed_line_moves row Hzero Htile) as [H|H]; [left|right];
    intros Hfix; apply map_fixed in Hfix;
    rewrite List.Forall_forall in Hfix; apply H, Hfix, Hin.
Qed.

Lemma unmixed_zero_row row :
  mixed row = false -> In 0 row -> Forall (fun v => v = 0) row.
Proof.
  intros Hmixed Hzero. apply List.Forall_forall. intros v Hv.
  destruct (Z.eq_dec v 0) as [Heq|Hne]; [exact Heq|].
  assert (mixed row = true); [|congruence].
  apply mixed_spec. split; [exact Hzero|]. exists v. split; assumption.
Qed.

Lemma unmixed_tile_row row v :
  mixed row = false -> In v row -> v <> 0 -> Forall (fun v => v <> 0) row.
Proof.
  intros Hmixed Hin Hv. apply List.Forall_forall. intros w Hw ->.
  assert (mixed row = true); [|congruence].
  apply mixed_spec. split; [exact Hw|]. exists v. split; assumption.
Qed.

Lemma In_flatten_inv v (g : grid) :
  In v (flatten g) -> exists row, In row g /\ In v row.
Proof.
  unfold flatten. intros H. apply in_concat in H as (row & Hrow & Hv).
  exists row. split; assumption.
Qed.

Lemma nth_0_In (row : list Z) : (0 < length row)%nat -> In (nth 0 row 0) row.
Proof. intros H. apply nth_In. exact H. Qed.

Lemma str_in_cases :
  str_in "left" ["up"; "down"]%string = false /\
  str_in "left" ["right"; "down"]%string = false /\
  str_in "right" ["up"; "down"]%string = false /\
  str_in "right" ["right"; "down"]%string = true /\
  str_in "up" ["up"; "down"]%string = true /\
  str_in "up" ["right"; "down"]%string = false /\
  str_in "down" ["up"; "down"]%string = true /\
  str_in "down" ["right"; "down"]%string = true.
Proof. repeat split. Qed.

Lemma resolved_grid_right g : resolved_grid "right" g = map (slide true) g.
Proof. reflexivity. Qed.

Lemma resolved_grid_up g :
  resolved_grid "up" g = transpose (map (slide false) (transpose g)).
Proof. reflexivity. Qed.

Lemma resolved_grid_down g :
  resolved_grid "down" g = transpose (map (slide true) (transpose g)).
Proof. reflexivity. Qed.

Lemma transposed_fixed n flip (g : grid) :
  square n g ->
  transpose (map (slide flip) (transpose g)) = g ->
  map (slide flip) (transpose g) = transpose g.
Proof.
  intros Hsq Hfix.
  rewrite <- (transpose_involutive n (map (slide flip) (transpose g)))
    by (apply square_map_slide, square_transpose, Hsq).
  rewrite Hfix. reflexivity.
Qed.

(** A board that holds a tile and an empty cell has a move. *)
Lemma room_and_tile_moves n (g : grid) :
  square n g -> In 0 (flatten g) -> has_tile g ->
  exists direction,
    valid_direction direction /\ resolved_grid direction g <> g.
Proof.
  intros Hsq Hzero (v & Hv & Hnz).
  destruct (existsb mixed g) eqn:Hrows.
  - destruct (mixed_row_moves g Hrows) as [H|H].
    + exists "left"%string. split; [apply left_is_valid|].
      rewrite resolved_grid_left. exact H.
    + exists "right"%string.
      split; [unfold valid_direction, directions; cbn; tauto|].
      rewrite resolved_grid_right. exact H.
  - assert (Hun : forall row, In row g -> mixed row = false).
    { intros row Hrow. destruct (mixed row) eqn:Hm; [|reflexivity].
      assert (existsb mixed g = true); [|congruence].
      apply existsb_exists. exists row. split; assumption. }
    apply In_flatten_inv in Hzero as (r0 & Hr0 & Hz0).
    apply In_flatten_inv in Hv as (r1 & Hr1 & Hv1).
    pose proof (unmixed_zero_row r0 (Hun _ Hr0) Hz0) as Hall0.
    pose proof (unmixed_tile_row r1 v (Hun _ Hr1) Hv1 Hnz) as Hall1.
    destruct Hsq as [Hlen Hrowlen].
    assert (Hl0 : length r0 = n)
      by (rewrite List.Forall_forall in Hrowlen; apply Hrowlen, Hr0).
    assert (Hl1 : length r1 = n)
      by (rewrite List.Forall_forall in Hrowlen; apply Hrowlen, Hr1).
    assert (Hn : (0 < n)%nat).
    { destruct r0; [destruct Hz0|]. cbn in Hl0. lia. }
    assert (Hcols : existsb mixed (transpose g) = true).
    { apply existsb_exists. exists (column g 0). split.
      - unfold transpose. rewrite (square_ncols n g (conj Hlen Hrowlen)).
        apply in_map_iff. exists 0%nat. split; [reflexivity|].
        apply in_seq. lia.
      - apply mixed_spec. split.
        + unfold column. apply in_map_iff. exists r0. split; [|exact Hr0].
          rewrite List.Forall_forall in Hall0. apply Hall0, nth_0_In. lia.
        + exists (nth 0 r1 0). split.
          * unfold column. apply in_map_iff. exists r1. split; [reflexivity|exact Hr1].
          * rewrite List.Forall_forall in Hall1. apply Hall1, nth_0_In. lia. }
    destruct (mixed_row_moves _ Hcols) as [H|H].
    + exists "up"%string.
      split; [unfold valid_direction, directions; cbn; tauto|].
      rewrite resolved_grid_up. intros Hfix. apply H.
      apply (transposed_fixed n); [exact (conj Hlen Hrowlen)|exact Hfix].
    + exists "down"%string.
      split; [unfold valid_direction, directions; cbn; tauto|].
      rewrite resolved_grid_down. intros Hfix. apply H.
      apply (transposed_fixed n); [exact (conj Hlen Hrowlen)|exact Hfix].
Qed.

Lemma slide_zeros flip line :
  Forall (fun v => v = 0) line -> slide flip line = line.
Proof.
  intros Hz.
  assert (Hrep : forall l : list Z, Forall (fun v => v = 0) l ->
                                    l = repeat 0 (length l)).
  { induction 1 as [|v l -> _ IH]; [reflexivity|]. cbn. f_equal. exact IH. }
  assert (Hline : forall l : list Z, Forall (fun v => v = 0) l ->
                                     fst (combine_line l) = l).
  { intros l Hl. rewrite combine_line_fst.
    assert (Hnil : non_zero_of l = [])
      by (rewrite (Hrep l Hl); apply non_zero_of_repeat_0).
    rewrite Hnil. cbn [resolve_scan fst app length].
    rewrite Nat.sub_0_r. symmetry. apply Hrep, Hl. }
  unfold slide. destruct flip.
  - rewrite Hline by (apply Forall_rev_Z, Hz). apply rev_involutive.
  - apply Hline, Hz.
Qed.

Lemma empty_grid_fixed n direction (g : grid) :
  square n g -> Forall (Forall (fun v => v = 0)) g ->
  resolved_grid direction g = g.
Proof.
  intros Hsq Hz.
  assert (Hmap : forall flip (g' : grid),
             Forall (Forall (fun v => v = 0)) g' -> map (slide flip) g' = g').
  { intros flip g' Hg'. apply map_fixed.
    eapply List.Forall_impl; [|exact Hg']. cbn. intros row. apply slide_zeros. }
  unfold resolved_grid. destruct (str_in direction ["up"; "down"]%string).
  - rewrite Hmap by (apply (Forall_rows_transpose _ n); assumption).
    apply (transpose_involutive n), Hsq.
  - apply Hmap, Hz.
Qed.

Lemma count_nonzero_has_tile (g : grid) :
  (0 < count_nonzero g)%nat -> has_tile g.
Proof.
  unfold count_nonzero, has_tile. intros Hpos.
  destruct (non_zero_of (flatten g)) as [|v l] eqn:Hnz; [cbn in Hpos; lia|].
  assert (Hin : In v (non_zero_of (flatten g))) by (rewrite Hnz; left; reflexivity).
  exists v. unfold non_zero_of in Hin. apply filter_In in Hin as [Hin Hv].
  split; [exact Hin|]. destruct (Z.eqb_spec v 0); [discriminate|assumption].
Qed.

(** A board with room and a tile is not over. *)
Lemma check_game_over_open self directory store :
  wf_board self -> In 0 (flatten (_grid self)) -> has_tile (_grid self) ->
  check_game_over self directory store = Ok (false, store).
Proof.
  intros Hwf Hroom Htile. unfold check_game_over.
  rewrite (check_loop_spec _ _ Hwf check_directions_valid).
  destruct (room_and_tile_moves _ _ Hwf Hroom Htile) as (d & Hd & Hne).
  assert (Hall : forallb (fun d => bool_decide
                            (resolved_grid d (_grid self) = _grid self))
                         ["up"; "down"; "right"; "left"]%string = false).
  { destruct (forallb _ _) eqn:Hall; [|reflexivity].
    rewrite forallb_forall in Hall.
    assert (Hin : In d ["up"; "down"; "right"; "left"]%string).
    { unfold valid_direction, directions in Hd. cbn in Hd |- *. tauto. }
    specialize (Hall d Hin). apply bool_decide_eq_true_1 in Hall. contradiction. }
  rewrite Hall. reflexivity.
Qed.

(** X12.  [check_game_over] against the spawner's [_is_terminal].  Both return
    on every well-formed board.  A board with an empty cell and a tile is over
    for neither; a board with no empty cell is over for both or for neither.
    They part on the board with no tile at all: no move changes it, so
    [check_game_over] reports the game over (and saves the high score), while
    [_is_terminal] sees the empty cells and answers [False]. *)
Theorem check_game_over_and_is_terminal (self : Board) (store : Store) :
  wf_board self ->
  exists over store' terminal,
    check_game_over self true store = Ok (over, store') /\
    _is_terminal self = Ok terminal /\
    (In 0 (flatten (_grid self)) -> terminal = false) /\
    (In 0 (flatten (_grid self)) -> has_tile (_grid self) -> over = false) /\
    (~ In 0 (flatten (_grid self)) -> over = terminal) /\
    (~ has_tile (_grid self) -> over = true).
Proof.
  intros Hwf. unfold check_game_over.
  rewrite (check_loop_spec _ _ Hwf check_directions_valid).
  rewrite (is_terminal_spec _ Hwf).
  set (fixed := fun d => bool_decide (resolved_grid d (_grid self) = _grid self)).
  assert (Hperm : forallb fixed ["up"; "down"; "right"; "left"]%string
                  = forallb fixed directions).
  { unfold directions. cbn [forallb].
    destruct (fixed "up"%string), (fixed "down"%string),
      (fixed "right"%string), (fixed "left"%string); reflexivity. }
  rewrite Hperm.
  destruct (forallb fixed directions) eqn:Hall; cbn.
  - eexists _, _, _. split; [reflexivity|]. split; [reflexivity|].
    assert (Hstuck : In 0 (flatten (_grid self)) -> has_tile (_grid self) -> False).
    { intros Hz Ht.
      destruct (room_and_tile_moves _ _ Hwf Hz Ht) as (d & Hd & Hne).
      rewrite forallb_forall in Hall. specialize (Hall d Hd).
      apply bool_decide_eq_true_1 in Hall. contradiction. }
    repeat split.
    + intros Hz. apply has_zero_spec in Hz. rewrite Hz. reflexivity.
    + intros Hz Ht. destruct (Hstuck Hz Ht).
    + intros Hfull. destruct (existsb (Z.eqb 0) _) eqn:Hz; [|reflexivity].
      apply has_zero_spec in Hz. contradiction.
  - eexists _, _, _. split; [reflexivity|]. split; [reflexivity|].
    repeat split.
    + intros _. apply andb_false_r.
    + intros _. symmetry. apply andb_false_r.
    + intros Hnone. exfalso.
      assert (Hzeros : Forall (Forall (fun v => v = 0)) (_grid self)).
      { apply Forall_rows. apply List.Forall_forall. intros v Hv.
        destruct (Z.eq_dec v 0) as [Heq|Hne]; [exact Heq|].
        exfalso. apply Hnone. exists v. split; assumption. }
      assert (forallb fixed directions = true); [|congruence].
      apply forallb_forall. intros d _. apply bool_decide_eq_true_2.
      apply (empty_grid_fixed (size self)); assumption.
Qed.

Lemma check_game_over_and_is_terminal_witness :
  let fresh := board_of 4 (np_zeros 4 4) in
  let store := {| content := Some ""%string; reads := 1 |} in
  exists over store' terminal,
    check_game_over fresh true store = Ok (over, store') /\
    _is_terminal fresh = Ok terminal /\
    terminal = false /\ over = true.
Proof.
  intros fresh store.
  destruct (check_game_over_and_is_terminal fresh store
              ltac:(wf_by_computation))
    as (over & store' & terminal & H1 & H2 & H3 & _ & _ & H6).
  exists over, store', terminal.
  split; [exact H1|]. split; [exact H2|]. split.
  - apply H3. vm_compute. tauto.
  - apply H6. intros (v & Hv & Hne). vm_compute in Hv.
    repeat (destruct Hv as [Hv|Hv]; [congruence|]). exact Hv.
Defined.

(** ** More on spawning *)

Lemma line_sum_insert (line : list Z) col value :
  (col < length line)%nat ->
  line_sum (<[col := value]> line) = line_sum line - nth col line 0 + value.
Proof.
  revert col. induction line as [|x line IH]; intros col Hcol; [cbn in Hcol; lia|].
  destruct col as [|col].
  - cbn. lia.
  - cbn [length] in Hcol. cbn [list_insert insert nth].
    change (line_sum (x :: <[col := value]> line))
      with (x + line_sum (<[col := value]> line)).
    change (line_sum (x :: line)) with (x + line_sum line).
    rewrite IH by lia. lia.
Qed.

Lemma grid_sum_insert (g : grid) row line' line :
  g !! row = Some line ->
  grid_sum (<[row := line']> g) = grid_sum g - line_sum line + line_sum line'.
Proof.
  revert row. induction g as [|r g IH]; intros row Hrow; [discriminate|].
  destruct row as [|row].
  - cbn in Hrow. injection Hrow as ->.
    change (<[0%nat := line']> (line :: g)) with (line' :: g).
    rewrite !grid_sum_cons. lia.
  - cbn in Hrow.
    change (<[S row := line']> (r :: g)) with (r :: <[row := line']> g).
    rewrite !grid_sum_cons, (IH _ Hrow). lia.
Qed.

Lemma length_flatten_square n (g : grid) :
  square n g -> length (flatten g) = (n * n)%nat.
Proof.
  intros [Hlen Hrows]. rewrite <- Hlen at 1. clear Hlen. unfold flatten.
  induction Hrows as [|row g' Hrow Hg IH]; [reflexivity|].
  cbn [concat length]. rewrite length_app, IH, Hrow. lia.
Qed.

Lemma non_zero_of_all l : ~ In 0 l -> non_zero_of l = l.
Proof.
  intros H. apply non_zero_of_id. apply List.Forall_forall.
  intros v Hv ->. contradiction.
Qed.

Lemma count_nonzero_room n (g : grid) :
  square n g -> In 0 (flatten g) <-> (count_nonzero g < n * n)%nat.
Proof.
  intros Hsq. unfold count_nonzero. rewrite <- (length_flatten_square n g Hsq).
  pose proof (non_zero_of_length (flatten g)) as Hle.
  split.
  - intros Hin.
    destruct (Nat.eq_dec (length (non_zero_of (flatten g))) (length (flatten g)))
      as [Heq|Hne]; [|lia].
    apply non_zero_of_full in Heq.
    pose proof (non_zero_of_Forall (flatten g)) as Hnz. rewrite Heq in Hnz.
    rewrite List.Forall_forall in Hnz. destruct (Hnz 0 Hin). reflexivity.
  - intros Hlt. destruct (in_dec Z.eq_dec 0 (flatten g)) as [H|H]; [exact H|].
    rewrite (non_zero_of_all _ H) in Hlt. lia.
Qed.

(** What a spawn that returned did to the board. *)
Lemma spawned_facts board r board' :
  wf_board board -> spawned board (r, board') ->
  (r = false /\ ~ In 0 (flatten (_grid board)) /\ board' = board) \/
  (r = true /\ In 0 (flatten (_grid board)) /\
   exists row col value line,
     _grid board !! row = Some line /\ (col < length line)%nat /\
     nth col line 0 = 0 /\ (value = 2 \/ value = 4) /\
     board' = with_grid board (<[row := <[col := value]> line]> (_grid board))).
Proof.
  intros Hwf Hsp. unfold spawned in Hsp.
  destruct (where_zero (_grid board)) as [|c0 cells] eqn:Hcells.
  - left. injection Hsp as -> ->.
    split; [reflexivity|]. split; [|reflexivity].
    apply where_zero_nil. exact Hcells.
  - right. destruct Hsp as (row & col & value & Hin & Hvalue & Hplace & Hr).
    cbn [fst snd] in *. split; [exact Hr|]. split.
    + destruct (in_dec Z.eq_dec 0 (flatten (_grid board))) as [H|H]; [exact H|].
      apply where_zero_nil in H. congruence.
    + rewrite <- Hcells in Hin.
      apply where_zero_In in Hin as (line & Hline & Hc & Hz).
      exists row, col, value, line. repeat split; try assumption.
      * destruct Hvalue as [<-|[<-|[]]]; [left|right]; reflexivity.
      * unfold place in Hplace.
        rewrite (set_cell_ok _ _ _ _ _ Hline Hc) in Hplace.
        cbn in Hplace. injection Hplace as <-. reflexivity.
Qed.

Lemma with_grid_same board : with_grid board (_grid board) = board.
Proof. destruct board; reflexivity. Qed.

Lemma is_tile_2_4 value : value = 2 \/ value = 4 -> is_tile value.
Proof.
  intros [->| ->]; right; [exists 1|exists 2]; split; try lia; reflexivity.
Qed.

Section Spawning.

Context {F : Type} {arith : Arith F} {inf : NegInf F}.
Context {rng : Type} {random : RandomSource rng} {random_ok : RandomSourceOk rng}.

Lemma spawn_tile_run self board s :
  wf_board board ->
  exists r board' s',
    spawn_tile self board s = Ok ((r, board'), s') /\ spawned board (r, board').
Proof.
  intros Hwf. destruct (spawn_tile_spawned self board Hwf s)
    as ([r board'] & s' & Hrun & Hsp).
  exists r, board', s'. split; assumption.
Qed.

(** X8.  What a spawn leaves alone.  Whatever the difficulty, [spawn_tile]
    changes nothing of the board but its grid: score, high tile, flags, high
    score and settings stay.  When it returns [True] the sum of the cells has
    grown by the value placed, 2 or 4; and a board of powers of two is still one
    afterwards. *)
Theorem spawn_tile_frame (self : AISpawner) (board board' : Board)
    (s s' : rng) (r : bool) :
  wf_board board ->
  spawn_tile self board s = Ok ((r, board'), s') ->
  board' = with_grid board (_grid board') /\
  (r = true ->
   exists value, (value = 2 \/ value = 4) /\
     grid_sum (_grid board') = grid_sum (_grid board) + value) /\
  (r = false -> board' = board) /\
  (Forall (Forall is_tile) (_grid board) ->
   Forall (Forall is_tile) (_grid board')).
Proof.
  intros Hwf Hrun.
  destruct (spawn_tile_run self board s Hwf) as (r0 & b0 & s0 & Hrun0 & Hsp).
  rewrite Hrun in Hrun0. injection Hrun0 as <- <- <-.
  destruct (spawned_facts _ _ _ Hwf Hsp)
    as [(-> & _ & ->)
       |(-> & _ & row & col & value & line & Hline & Hc & Hz & Hvalue & ->)].
  - split; [symmetry; apply with_grid_same|]. split; [discriminate|].
    split; trivial.
  - cbn [_grid with_grid]. split; [reflexivity|]. split; [|split].
    + intros _. exists value. split; [exact Hvalue|].
      rewrite (grid_sum_insert _ _ _ _ Hline), (line_sum_insert _ _ _ Hc), Hz.
      lia.
    + discriminate.
    + intros Htiles. apply Forall_insert; [exact Htiles|].
      apply Forall_insert.
      * exact (Forall_lookup_1 _ _ _ _ Htiles Hline).
      * apply is_tile_2_4, Hvalue.
Qed.

(** X7.  After an accepted move there is room for the new tile.  A move that
    [move] accepts leaves at least one empty cell, so the spawn that follows it
    returns [True] and places its tile: the board then holds one tile more than
    after the move, hence at most one more than before it. *)
Theorem move_then_spawn (direction : string) (self self' : Board) (s : rng) :
  wf_board self ->
  move direction self = Ok (true, self') ->
  In 0 (flatten (_grid self')) /\
  exists board'' s',
    spawn_random_tile self' s = Ok ((true, board''), s') /\
    count_nonzero (_grid board'') = S (count_nonzero (_grid self')) /\
    (count_nonzero (_grid board'') <= S (count_nonzero (_grid self)))%nat.
Proof.
  intros Hwf Hmove.
  pose proof (move_accepted_has_room _ _ _ Hwf Hmove) as Hroom.
  pose proof (move_wf _ _ _ _ Hwf Hmove) as Hwf'.
  split; [exact Hroom|].
  destruct (spawn_tile_run (ai_spawner self') self' s Hwf')
    as (r & board'' & s' & Hrun & Hsp).
  destruct (spawned_facts _ _ _ Hwf' Hsp)
    as [(_ & Hfull & _)
       |(-> & _ & row & col & value & line & Hline & Hc & Hz & Hvalue & ->)];
    [contradiction|].
  eexists _, s'. split; [exact Hrun|]. cbn [_grid with_grid].
  assert (Hv : value <> 0) by (destruct Hvalue; lia).
  rewrite (count_nonzero_insert _ _ _ _ _ Hline Hc Hz Hv).
  split; [reflexivity|].
  destruct (move_cases _ _ _ _ Hwf Hmove) as [[? _]|(_ & _ & _ & ->)];
    [discriminate|].
  cbn [commit _grid].
  pose proof (resolved_count_le (size self) direction (_grid self) Hwf). lia.
Qed.

End Spawning.

Lemma move_then_spawn_witness :
  let b := board_of 4 [[2; 2; 4; 4]; [4; 8; 16; 8]; [2; 16; 2; 32]; [16; 2; 8; 4]] in
  exists self' board'' s',
    move "left" b = Ok (true, self') /\
    In 0 (flatten (_grid self')) /\
    @spawn_random_tile _ example_arith binary64_neg_inf _ counter_source
      self' 0%nat = Ok ((true, board''), s') /\
    count_nonzero (_grid board'') = S (count_nonzero (_grid self')) /\
    (count_nonzero (_grid board'') <= S (count_nonzero (_grid b)))%nat.
Proof.
  intros b. accepted_move "left"%string b self' Hmove.
  destruct (@move_then_spawn _ example_arith binary64_neg_inf _ counter_source
              counter_source_ok "left" b self' 0%nat
              ltac:(wf_by_computation) Hmove)
    as (Hroom & board'' & s' & Hspawn & Hcount & Hle).
  exists self', board'', s'.
  split; [reflexivity|]. repeat split; assumption.
Defined.

Lemma spawn_tile_frame_witness :
  exists board' s' value,
    @spawn_tile _ example_arith binary64_neg_inf _ counter_source
      (AISpawner_init "easy" 2 false) (board_of 4 mirror_grid) 0%nat
      = Ok ((true, board'), s') /\
    board' = with_grid (board_of 4 mirror_grid) (_grid board') /\
    (value = 2 \/ value = 4) /\
    grid_sum (_grid board') = grid_sum mirror_grid + value /\
    Forall (Forall is_tile) (_grid board').
Proof.
  destruct (@spawn_tile _ example_arith binary64_neg_inf _ counter_source
              (AISpawner_init "easy" 2 false) (board_of 4 mirror_grid) 0%nat)
    as [[[r board'] s']|e] eqn:Hrun; [|vm_compute in Hrun; discriminate].
  assert (r = true) as ->
    by (vm_compute in Hrun; injection Hrun as <- _ _; reflexivity).
  destruct (@spawn_tile_frame _ example_arith binary64_neg_inf _ counter_source
              counter_source_ok (AISpawner_init "easy" 2 false)
              (board_of 4 mirror_grid) board' 0%nat s' true
              ltac:(wf_by_computation) Hrun)
    as (Hframe & Hsum & _ & Htiles).
  destruct (Hsum eq_refl) as (value & Hvalue & Hgrid).
  exists board', s', value. split; [reflexivity|].
  split; [exact Hframe|]. split; [exact Hvalue|]. split; [exact Hgrid|].
  apply Htiles. unfold mirror_grid, board_of; cbn [_grid]. tiles_by_computation.
Defined.

(** ** Saving and loading the high score *)

Lemma py_str_nonempty z : py_str z <> ""%string.
Proof.
  unfold py_str. destruct z as [|p|p]; cbn; [discriminate| |discriminate].
  unfold DecimalString.NilZero.string_of_uint.
  destruct (Pos.to_uint p); discriminate.
Qed.

Lemma int_of_decimal_str z : int_of_decimal (py_str z) = Ok z.
Proof.
  unfold int_of_decimal, py_str.
  rewrite DecimalString.NilZero.isi.
  - rewrite DecimalZ.of_to. reflexivity.
  - destruct z as [|p|p]; cbn; try discriminate.
    intros H. injection H as H.
    apply (DecimalPos.Unsigned.to_uint_nonnil p H).
  - destruct z as [|p|p]; cbn; try discriminate.
    intros H. injection H as H.
    apply (DecimalPos.Unsigned.to_uint_nonnil p H).
Qed.

Lemma count_nonzero_zeros n m : count_nonzero (np_zeros n m) = 0%nat.
Proof.
  unfold count_nonzero, np_zeros. rewrite non_zero_of_concat.
  induction n as [|n IH]; [reflexivity|].
  cbn [repeat map concat]. rewrite non_zero_of_repeat_0. exact IH.
Qed.

Lemma np_zeros_fresh n m : Forall (Forall fresh_cell) (np_zeros n m).
Proof.
  unfold np_zeros. apply List.Forall_forall. intros row Hrow.
  apply repeat_spec in Hrow. subst row.
  apply List.Forall_forall. intros v Hv. apply repeat_spec in Hv. left. exact Hv.
Qed.

Section Loading.

Context {F : Type} {arith : Arith F} {inf : NegInf F}.
Context {rng : Type} {random : RandomSource rng} {random_ok : RandomSourceOk rng}.

(** One spawn on a board of fresh cells. *)
Lemma spawn_random_tile_fresh self :
  wf_board self ->
  post (spawn_random_tile self)
       (fun result =>
          wf_board (snd result) /\
          snd result = with_grid self (_grid (snd result)) /\
          count_nonzero (_grid (snd result)) =
            (if decide (count_nonzero (_grid self) < size self * size self)%nat
             then S (count_nonzero (_grid self))
             else count_nonzero (_grid self)) /\
          (Forall (Forall fresh_cell) (_grid self) ->
           Forall (Forall fresh_cell) (_grid (snd result)))).
Proof.
  intros Hwf. eapply post_weaken; [apply spawn_tile_spawned, Hwf|].
  intros [r self'] Hsp. cbn [snd].
  pose proof (count_nonzero_room _ _ Hwf) as Hroom.
  destruct (spawned_facts _ _ _ Hwf Hsp)
    as [(-> & Hfull & ->)
       |(-> & Hz0 & row & col & value & line & Hline & Hc & Hz & Hvalue & ->)].
  - split; [exact Hwf|]. split; [symmetry; apply with_grid_same|].
    split; [|trivial].
    destruct (decide _) as [Hlt|_]; [|reflexivity].
    apply Hroom in Hlt. contradiction.
  - cbn [_grid with_grid].
    assert (Hv : value <> 0) by (destruct Hvalue; lia).
    assert (Hwf' : wf_board
              (with_grid self (<[row := <[col := value]> line]> (_grid self)))).
    { pose proof (lookup_lt_Some _ _ _ Hline) as Hrow.
      destruct Hwf as [Hlen Hrows].
      pose proof (Forall_lookup_1 _ _ _ _ Hrows Hline) as Hll. cbn beta in Hll.
      destruct (place_returns self row col value (conj Hlen Hrows))
        as (g' & Hset & _ & Hwf'); [lia|lia|].
      rewrite (set_cell_ok _ _ _ _ _ Hline Hc) in Hset.
      injection Hset as <-. exact Hwf'. }
    split; [exact Hwf'|]. split; [reflexivity|]. split.
    + rewrite (count_nonzero_insert _ _ _ _ _ Hline Hc Hz Hv).
      destruct (decide _) as [_|Hge]; [reflexivity|].
      apply Hroom in Hz0. contradiction.
    + intros Hfresh. apply Forall_insert; [exact Hfresh|].
      apply Forall_insert; [exact (Forall_lookup_1 _ _ _ _ Hfresh Hline)|].
      right. exact Hvalue.
Qed.

Variable py_int : string -> result Z.

(** What construction runs before it opens the file. *)
Lemma board_init_read (n : nat) (difficulty : string) (ai_depth : nat)
    (spawn_initial : bool) (store : Store) (s : rng) (Q : Board -> Prop) :
  let self0 :=
    {| size := n; _grid := np_zeros n n; _score := 0; _high_tile := 0;
       _game_over := false; _won := false; _highscore := 0;
       difficulty := difficulty;
       ai_spawner := AISpawner_init difficulty ai_depth false |} in
  post (if spawn_initial then
          '(_, self) ← spawn_random_tile self0;
          '(_, self) ← spawn_random_tile self;
          mret self
        else mret self0 : M rng Board) Q ->
  forall text,
    content store = Some text ->
    exists self s',
      Q self /\
      Board_init py_int n difficulty ai_depth spawn_initial store s =
        if String.eqb text "" then
          Ok ((self, {| content := content store; reads := S (reads store) |}), s')
        else
          match py_int text with
          | Ok value =>
              Ok ((with_highscore self value,
                   {| content := content store; reads := S (reads store) |}), s')
          | Raise e => Raise e
          end.
Proof using Type.
  intros self0 Hprefix text Hcontent.
  destruct (Hprefix s) as (self & s1 & Hrun & HQ).
  exists self, s1. split; [exact HQ|].
  unfold Board_init. fold self0. rewrite (run_bind _ _ _ _ _ Hrun).
  unfold open_read. rewrite Hcontent.
  unfold mbind, M_bind, lift, mret, M_ret. cbv beta iota.
  destruct (String.eqb text ""); cbn [negb]; [reflexivity|].
  destruct (py_int text); reflexivity.
Qed.

(** X13.  A new game.  When the high-score file exists and holds nothing or a
    number, construction returns a well-formed board of the size asked for.
    With [spawn_initial] it holds two tiles (fewer when the board has fewer than
    two cells), each a 2 or a 4; without, none.  Score and high tile are 0, even
    though tiles are on the board, and no flag is up.  A board of size 2 or more
    that was given its tiles is not over:  [check_game_over] answers [False] and
    leaves the file alone. *)
Theorem board_init_fresh (n : nat) (difficulty : string) (ai_depth : nat)
    (spawn_initial : bool) (store : Store) (s : rng) (text : string) :
  content store = Some text ->
  (text <> ""%string -> exists value, py_int text = Ok value) ->
  exists board store' s',
    Board_init py_int n difficulty ai_depth spawn_initial store s
      = Ok ((board, store'), s') /\
    wf_board board /\ size board = n /\
    count_nonzero (_grid board) =
      (if spawn_initial then Nat.min 2 (n * n) else 0%nat) /\
    Forall (Forall fresh_cell) (_grid board) /\
    _score board = 0 /\ _high_tile board = 0 /\
    _won board = false /\ _game_over board = false /\
    (spawn_initial = true -> (2 <= n)%nat ->
     forall directory file,
       check_game_over board directory file = Ok (false, file)).
Proof using random_ok.
  intros Hcontent Hint.
  set (self0 :=
    {| size := n; _grid := np_zeros n n; _score := 0; _high_tile := 0;
       _game_over := false; _won := false; _highscore := 0;
       difficulty := difficulty;
       ai_spawner := AISpawner_init difficulty ai_depth false |}).
  set (Q := fun self : Board =>
              wf_board self /\ size self = n /\
              count_nonzero (_grid self) =
                (if spawn_initial then Nat.min 2 (n * n) else 0%nat) /\
              Forall (Forall fresh_cell) (_grid self) /\
              _score self = 0 /\ _high_tile self = 0 /\
              _won self = false /\ _game_over self = false).
  assert (Hwf0 : wf_board self0) by apply np_zeros_square.
  assert (Hprefix :
            post (if spawn_initial then
                    '(_, self) ← spawn_random_tile self0;
                    '(_, self) ← spawn_random_tile self;
                    mret self
                  else mret self0 : M rng Board) Q).
  { unfold Q. destruct spawn_initial.
    - eapply post_bind; [apply spawn_random_tile_fresh, Hwf0|].
      intros [r1 self1] (Hwf1 & Hframe1 & Hcount1 & Hfresh1). cbn [snd] in *.
      eapply post_bind; [apply spawn_random_tile_fresh, Hwf1|].
      intros [r2 self2] (Hwf2 & Hframe2 & Hcount2 & Hfresh2). cbn [snd] in *.
      apply post_ret.
      assert (Hsize1 : size self1 = n) by (rewrite Hframe1; reflexivity).
      rewrite Hsize1 in Hcount2.
      cbn [self0 _grid size] in Hcount1. rewrite count_nonzero_zeros in Hcount1.
      split; [exact Hwf2|].
      split; [rewrite Hframe2; exact Hsize1|]. split.
      + rewrite Hcount2, Hcount1.
        repeat destruct (decide _); lia.
      + split; [apply Hfresh2, Hfresh1, np_zeros_fresh|].
        rewrite Hframe2, Hframe1. cbn. repeat split; reflexivity.
    - apply post_ret. split; [exact Hwf0|]. split; [reflexivity|].
      split; [apply count_nonzero_zeros|]. split; [apply np_zeros_fresh|].
      repeat split; reflexivity. }
  destruct (board_init_read n difficulty ai_depth spawn_initial store s Q
              Hprefix text Hcontent) as (self & s' & HQ & Hrun).
  destruct HQ as (H1 & H2 & H3 & H4 & H5 & H6 & H7 & H8).
  assert (Hopen : forall board : Board,
             _grid board = _grid self -> size board = size self ->
             spawn_initial = true -> (2 <= n)%nat ->
             forall directory file,
               check_game_over board directory file = Ok (false, file)).
  { intros board Hgrid Hsize Hspawn Hn directory file.
    assert (Hwf : wf_board board)
      by (unfold wf_board; rewrite Hgrid, Hsize; exact H1).
    rewrite Hspawn in H3.
    assert (Hcells : (4 <= n * n)%nat) by nia.
    rewrite Nat.min_l in H3 by lia.
    apply check_game_over_open; [exact Hwf| |]; rewrite Hgrid.
    - apply (count_nonzero_room (size self)); [exact H1|]. rewrite H2. lia.
    - apply count_nonzero_has_tile. lia. }
  rewrite Hrun. destruct (String.eqb_spec text "") as [->|Hne].
  - eexists _, _, _. split; [reflexivity|].
    repeat (split; [assumption|]). apply Hopen; reflexivity.
  - destruct (Hint Hne) as (value & ->).
    eexists _, _, _. split; [reflexivity|].
    split; [apply H1|]. repeat (split; [assumption|]).
    apply Hopen; reflexivity.
Qed.

(** X14.  The high score comes back.  When Python's [int] reads back what [str]
    wrote for the high score, a board constructed after [update_highscore]
    starts with the high score that was saved, whatever the file held before. *)
Theorem highscore_round_trip (self : Board) (store : Store) (n : nat)
    (difficulty : string) (ai_depth : nat) (spawn_initial : bool) (s : rng) :
  py_int (py_str (_highscore self)) = Ok (_highscore self) ->
  exists store1 board store2 s',
    update_highscore self true store = Ok store1 /\
    Board_init py_int n difficulty ai_depth spawn_initial store1 s
      = Ok ((board, store2), s') /\
    _highscore board = _highscore self /\
    content store2 = Some (py_str (_highscore self)).
Proof using random_ok.
  intros Hint. eexists. unfold update_highscore, open_write.
  set (store1 := {| content := Some (py_str (_highscore self));
                    reads := reads store |}).
  set (self0 :=
    {| size := n; _grid := np_zeros n n; _score := 0; _high_tile := 0;
       _game_over := false; _won := false; _highscore := 0;
       difficulty := difficulty;
       ai_spawner := AISpawner_init difficulty ai_depth false |}).
  assert (Hprefix :
            post (if spawn_initial then
                    '(_, self) ← spawn_random_tile self0;
                    '(_, self) ← spawn_random_tile self;
                    mret self
                  else mret self0 : M rng Board) (fun _ => True)).
  { destruct spawn_initial; [|apply post_ret; exact I].
    eapply post_bind; [apply spawn_random_tile_fresh, np_zeros_square|].
    intros [r1 self1] (Hwf1 & _). cbn [snd] in *.
    eapply post_bind; [apply spawn_random_tile_fresh, Hwf1|].
    intros [r2 self2] _. apply post_ret. exact I. }
  destruct (board_init_read n difficulty ai_depth spawn_initial store1 s _
              Hprefix (py_str (_highscore self)) eq_refl)
    as (board & s' & _ & Hrun).
  rewrite Hint in Hrun.
  destruct (String.eqb_spec (py_str (_highscore self)) "") as [Hempty|_];
    [destruct (py_str_nonempty _ Hempty)|].
  eexists _, _, _. split; [reflexivity|]. split; [exact Hrun|].
  split; reflexivity.
Qed.

End Loading.

Lemma board_init_fresh_witness :
  exists board store' s',
    @Board_init _ example_arith binary64_neg_inf _ counter_source int_of_decimal
      4 "hard" 2 true {| content := Some "512"%string; reads := 0 |} 0%nat
      = Ok ((board, store'), s') /\
    wf_board board /\ size board = 4%nat /\
    count_nonzero (_grid board) = 2%nat /\
    Forall (Forall fresh_cell) (_grid board) /\
    _score board = 0 /\ _high_tile board = 0 /\
    _won board = false /\ _game_over board = false /\
    (forall directory file,
       check_game_over board directory file = Ok (false, file)).
Proof.
  destruct (@board_init_fresh _ example_arith binary64_neg_inf _ counter_source
           counter_source_ok int_of_decimal 4 "hard" 2 true
           {| content := Some "512"%string; reads := 0 |} 0%nat "512"%string
           eq_refl ltac:(intros _; exists 512; reflexivity))
    as (board & store' & s' & Hrun & Hwf & Hsize & Hcount & Hfresh & Hscore
        & Htile & Hwon & Hover & Hopen).
  exists board, store', s'. repeat (split; [assumption|]).
  apply Hopen; [reflexivity|lia].
Defined.

Lemma highscore_round_trip_witness :
  let self :=
    {| size := 4; _grid := checkerboard 2 4 4; _score := 1348;
       _high_tile := 128; _game_over := true; _won := false;
       _highscore := 20480; difficulty := "easy";
       ai_spawner := AISpawner_init "easy" 2 false |} in
  exists store1 board store2 s',
    update_highscore self true {| content := Some "512"%string; reads := 1 |}
      = Ok store1 /\
    @Board_init _ example_arith binary64_neg_inf _ counter_source int_of_decimal
      4 "medium" 2 true store1 0%nat = Ok ((board, store2), s') /\
    _highscore board = 20480 /\
    content store2 = Some "20480"%string.
Proof.
  intros self.
  apply (@highscore_round_trip _ example_arith binary64_neg_inf _ counter_source
           counter_source_ok int_of_decimal self
           {| content := Some "512"%string; reads := 1 |} 4 "medium" 2 true
           0%nat).
  apply int_of_decimal_str.
Defined.

(** ** Changing the difficulty *)

Lemma set_difficulty_step d b :
  search_depth (ai_spawner (set_difficulty d b)) =
    (if String.eqb d "hard" then 3 else search_depth (ai_spawner b))%nat /\
  with_grid (set_difficulty d b) (_grid b) = set_difficulty d b.
Proof. split; reflexivity. Qed.

(** X15.  Hard mode leaves its mark.  [set_difficulty] hands the current search
    depth to the new spawner, and a spawner built for ['hard'] searches at depth
    3.  So after any sequence of changes of difficulty the spawner searches at
    depth 3 if ['hard'] was among them, whatever was chosen since, and at its
    former depth otherwise.  Grid, score and flags are not touched, and the
    spawner's debugging output is switched off. *)
Theorem set_difficulty_depth (changes : list string) (self : Board) :
  let self' := fold_left (fun b d => set_difficulty d b) changes self in
  search_depth (ai_spawner self') =
    (if existsb (fun d => String.eqb d "hard") changes then 3
     else search_depth (ai_spawner self))%nat /\
  _grid self' = _grid self /\ _score self' = _score self /\
  _highscore self' = _highscore self /\ _high_tile self' = _high_tile self /\
  _won self' = _won self /\ _game_over self' = _game_over self /\
  size self' = size self /\
  (forall d, last changes = Some d ->
     difficulty self' = d /\ sp_difficulty (ai_spawner self') = lower d /\
     debug (ai_spawner self') = false).
Proof.
  revert self. induction changes as [|d changes IH]; intros self; cbn zeta.
  - cbn. repeat split; try reflexivity; discriminate.
  - cbn [fold_left existsb].
    destruct (IH (set_difficulty d self))
      as (Hdepth & Hg & Hs & Hhs & Hht & Hw & Hgo & Hsz & Hlast).
    rewrite Hdepth, Hg, Hs, Hhs, Hht, Hw, Hgo, Hsz. cbn [set_difficulty
      ai_spawner AISpawner_init search_depth _grid _score _highscore
      _high_tile _won _game_over size].
    split.
    { destruct (existsb _ changes), (String.eqb d "hard"); reflexivity. }
    repeat (split; [reflexivity|]).
    intros d' Hd'. destruct changes as [|d2 changes'].
    + cbn in Hd'. injection Hd' as <-. cbn. repeat split; reflexivity.
    + apply Hlast. rewrite <- Hd'. cbn. destruct (last changes'); reflexivity.
Qed.

Lemma set_difficulty_depth_witness :
  let self := board_of 4 mirror_grid in
  let self' :=
    fold_left (fun b d => set_difficulty d b) ["hard"; "easy"]%string self in
  search_depth (ai_spawner self) = 2%nat /\
  search_depth (ai_spawner self') = 3%nat /\
  difficulty self' = "easy"%string /\
  sp_difficulty (ai_spawner self') = "easy"%string /\
  debug (ai_spawner self') = false /\
  _grid self' = mirror_grid.
Proof.
  intros self self'.
  destruct (set_difficulty_depth ["hard"; "easy"]%string self)
    as (Hdepth & Hgrid & _ & _ & _ & _ & _ & _ & Hlast).
  destruct (Hlast "easy"%string eq_refl) as (Hd & Hsp & Hdebug).
  split; [reflexivity|]. split; [exact Hdepth|]. split; [exact Hd|].
  split; [exact Hsp|]. split; [exact Hdebug|exact Hgrid].
Defined.

(** ** Difficulties the spawner does not know *)

Section OtherDifficulties.

Context {F : Type} {arith : Arith F} {inf : NegInf F}.
Context {rng : Type} {random : RandomSource rng}.

Lemma score_cells_depth self self' board :
  search_depth self = search_depth self' ->
  forall cells scores s,
    score_cells self board cells scores s = score_cells self' board cells scores s.
Proof.
  intros Hdepth. induction cells as [|[row col] cells IH]; intros scores s;
    [reflexivity|].
  cbn [score_cells]. unfold _evaluate_spawn. rewrite Hdepth.
  unfold mbind, M_bind.
  destruct (lift (place board row col 2) s) as [[b2 s1]|e]; [|reflexivity].
  destruct (_expectimax (search_depth self') true b2 s1) as [[v2 s2]|e];
    [|reflexivity].
  destruct (lift (place board row col 4) s2) as [[b4 s3]|e]; [|reflexivity].
  destruct (_expectimax (search_depth self') true b4 s3) as [[v4 s4]|e];
    [|reflexivity].
  apply IH.
Qed.

(** X9.  A difficulty that is neither ['medium'] nor ['easy'] is played as
    ['hard'].  [spawn_tile] tests for ['medium'], then for ['easy'], and treats
    everything else as hard: with the same search depth it draws the same
    numbers and returns the same board as the hard spawner. *)
Theorem spawn_tile_other_difficulty (self : AISpawner) (board : Board) (s : rng) :
  sp_difficulty self <> "medium"%string ->
  sp_difficulty self <> "easy"%string ->
  spawn_tile self board s =
    spawn_tile {| sp_difficulty := "hard"; search_depth := search_depth self;
                  debug := debug self |} board s.
Proof.
  intros Hmedium Heasy. unfold spawn_tile. cbn [sp_difficulty].
  apply String.eqb_neq in Hmedium. apply String.eqb_neq in Heasy.
  rewrite Hmedium, Heasy.
  change (String.eqb "hard" "medium") with false.
  change (String.eqb "hard" "easy") with false. cbv iota.
  destruct (where_zero (_grid board)) as [|c0 cells]; [reflexivity|].
  unfold mbind at 1 3. unfold M_bind at 1 3.
  rewrite (score_cells_depth self
             {| sp_difficulty := "hard"; search_depth := search_depth self;
                debug := debug self |} board eq_refl).
  reflexivity.
Qed.

End OtherDifficulties.

Lemma spawn_tile_other_difficulty_witness :
  @spawn_tile _ example_arith binary64_neg_inf _ counter_source
    (AISpawner_init "expert" 2 false) (board_of 4 mirror_grid) 0%nat =
  @spawn_tile _ example_arith binary64_neg_inf _ counter_source
    {| sp_difficulty := "hard"; search_depth := 2; debug := false |}
    (board_of 4 mirror_grid) 0%nat.
Proof.
  apply (@spawn_tile_other_difficulty _ example_arith binary64_neg_inf _
           counter_source (AISpawner_init "expert" 2 false)
           (board_of 4 mirror_grid) 0%nat); discriminate.
Defined.

(** ** Organized lines *)

Lemma sub_tiles a b :
  0 <= a <= Int64.max_signed -> 0 <= b <= Int64.max_signed ->
  Int64.sub b a = b - a.
Proof.
  intros Ha Hb. unfold Int64.sub. apply wrap_id.
  unfold Int64.in_range, Int64.min_signed, Int64.max_signed in *. lia.
Qed.

Lemma is_organized_tiles log2 std (non_zero : list Z) :
  (length non_zero <= 4)%nat ->
  Forall (fun v => 0 <= v <= Int64.max_signed) non_zero ->
  (if (length non_zero <=? 1)%nat then true
   else
     let diffs := np_diff non_zero in
     let increasing := Z.of_nat (length (List.filter (fun d => 0 <? d) diffs)) in
     let decreasing := Z.of_nat (length (List.filter (fun d => d <? 0) diffs)) in
     let total_changes := Z.of_nat (length diffs) in
     let threshold :=
       @fmul _ (binary64 log2 std) (@lit_0_7 _ (binary64 log2 std))
         (@of_int _ (binary64 log2 std) total_changes) in
     (@fleb _ (binary64 log2 std) threshold
        (@of_int _ (binary64 log2 std) increasing)
      || @fleb _ (binary64 log2 std) threshold
           (@of_int _ (binary64 log2 std) decreasing))%bool) =
  (strictly_increasing non_zero || strictly_decreasing non_zero)%bool.
Proof.
  intros Hlen Hrange.
  destruct non_zero as [|a [|b [|c [|d [|e rest]]]]];
    [reflexivity|reflexivity| | | |cbn in Hlen; lia].
  - inversion Hrange as [|? ? Ha Hr1]; subst. inversion Hr1 as [|? ? Hb _]; subst.
    cbn [length Nat.leb np_diff strictly_increasing strictly_decreasing].
    rewrite (sub_tiles a b Ha Hb). cbn [List.filter].
    destruct (Z.ltb_spec 0 (b - a)), (Z.ltb_spec (b - a) 0),
      (Z.ltb_spec a b), (Z.ltb_spec b a); try lia; vm_compute; reflexivity.
  - inversion Hrange as [|? ? Ha Hr1]; subst. inversion Hr1 as [|? ? Hb Hr2]; subst.
    inversion Hr2 as [|? ? Hc _]; subst.
    cbn [length Nat.leb np_diff strictly_increasing strictly_decreasing].
    rewrite (sub_tiles a b Ha Hb), (sub_tiles b c Hb Hc). cbn [List.filter].
    destruct (Z.ltb_spec 0 (b - a)), (Z.ltb_spec (b - a) 0),
      (Z.ltb_spec a b), (Z.ltb_spec b a); try lia;
      destruct (Z.ltb_spec 0 (c - b)), (Z.ltb_spec (c - b) 0),
        (Z.ltb_spec b c), (Z.ltb_spec c b); try lia; vm_compute; reflexivity.
  - inversion Hrange as [|? ? Ha Hr1]; subst. inversion Hr1 as [|? ? Hb Hr2]; subst.
    inversion Hr2 as [|? ? Hc Hr3]; subst. inversion Hr3 as [|? ? Hd _]; subst.
    cbn [length Nat.leb np_diff strictly_increasing strictly_decreasing].
    rewrite (sub_tiles a b Ha Hb), (sub_tiles b c Hb Hc), (sub_tiles c d Hc Hd).
    cbn [List.filter].
    destruct (Z.ltb_spec 0 (b - a)), (Z.ltb_spec (b - a) 0),
      (Z.ltb_spec a b), (Z.ltb_spec b a); try lia;
      destruct (Z.ltb_spec 0 (c - b)), (Z.ltb_spec (c - b) 0),
        (Z.ltb_spec b c), (Z.ltb_spec c b); try lia;
      destruct (Z.ltb_spec 0 (d - c)), (Z.ltb_spec (d - c) 0),
        (Z.ltb_spec c d), (Z.ltb_spec d c); try lia; vm_compute; reflexivity.
Qed.

(** X16.  On the lines of the game, organized means strictly ordered.  In
    binary64 the threshold [0.7 * total_changes] is 0.7, 1.4 or 2.1 for two,
    three or four tiles, so all the steps have to go the same way: a line with
    at most four tiles is organized exactly when its tiles, zeros apart, are
    strictly increasing or strictly decreasing (which a line with at most one
    tile is).  The allowance of the 70 % rule only shows from five tiles on. *)
Theorem is_organized_strict (log2 : Z -> PrimFloat.float)
    (std : list Z -> PrimFloat.float) (line : list Z) :
  (length (non_zero_of line) <= 4)%nat ->
  Forall (fun v => 0 <= v <= Int64.max_signed) line ->
  @_is_organized _ (binary64 log2 std) line =
    (strictly_increasing (non_zero_of line)
     || strictly_decreasing (non_zero_of line))%bool.
Proof.
  intros Hlen Hrange. unfold _is_organized.
  apply (is_organized_tiles log2 std (non_zero_of line) Hlen).
  apply Forall_non_zero_of, Hrange.
Qed.

Lemma is_organized_strict_witness :
  @_is_organized _ example_arith [2; 4; 4; 8] = false /\
  @_is_organized _ example_arith [2; 0; 4; 8] = true /\
  @_is_organized _ example_arith [2; 4; 8; 8; 16] = true.
Proof.
  unfold example_arith. split; [|split].
  - rewrite (is_organized_strict log2_pow2 std_binary64 [2; 4; 4; 8]);
      [reflexivity|cbn; lia|repeat constructor; unfold Int64.max_signed; lia].
  - rewrite (is_organized_strict log2_pow2 std_binary64 [2; 0; 4; 8]);
      [reflexivity|cbn; lia|repeat constructor; unfold Int64.max_signed; lia].
  - vm_compute. reflexivity.
Defined.

(** ** The symmetries of [_monotonicity] *)

Lemma wrap_add_sub acc a b rest :
  Int64.wrap (Int64.add acc (Int64.sub a b) + rest)
  = Int64.wrap (acc + (a - b + rest)).
Proof.
  unfold Int64.add, Int64.sub. rewrite wrap_add_l.
  rewrite <- Z.add_assoc, (Z.add_comm (Int64.wrap (a - b)) rest).
  rewrite Z.add_assoc, wrap_add_r.
  f_equal. lia.
Qed.

Lemma line_trend_spec line : forall dec inc,
  Int64.in_range dec -> Int64.in_range inc ->
  line_trend line dec inc =
    (Int64.wrap (dec + drops line), Int64.wrap (inc + rises line)).
Proof.
  induction line as [|a tl IH]; intros dec inc Hdec Hinc.
  - cbn. rewrite !Z.add_0_r, !wrap_id by assumption. reflexivity.
  - destruct tl as [|b tl'].
    + cbn. rewrite !Z.add_0_r, !wrap_id by assumption. reflexivity.
    + change (line_trend (a :: b :: tl') dec inc)
        with (if b <? a
              then line_trend (b :: tl') (Int64.add dec (Int64.sub a b)) inc
              else line_trend (b :: tl') dec (Int64.add inc (Int64.sub b a))).
      change (drops (a :: b :: tl'))
        with ((if b <? a then a - b else 0) + drops (b :: tl')).
      change (rises (a :: b :: tl'))
        with ((if b <? a then 0 else b - a) + rises (b :: tl')).
      destruct (b <? a).
      * rewrite IH by (try apply wrap_in_range; assumption).
        rewrite wrap_add_sub. reflexivity.
      * rewrite IH by (try apply wrap_in_range; assumption).
        rewrite wrap_add_sub. reflexivity.
Qed.

Lemma grid_trend_fold (g : grid) : forall dec inc,
  Int64.in_range dec -> Int64.in_range inc ->
  fold_left (fun t line => line_trend line (fst t) (snd t)) g (dec, inc) =
    (Int64.wrap (dec + line_sum (map drops g)),
     Int64.wrap (inc + line_sum (map rises g))).
Proof.
  induction g as [|row g IH]; intros dec inc Hdec Hinc.
  - cbn. rewrite !Z.add_0_r, !wrap_id by assumption. reflexivity.
  - cbn [fold_left map fst snd].
    rewrite (line_trend_spec row dec inc Hdec Hinc).
    rewrite IH by apply wrap_in_range.
    change (line_sum (drops row :: map drops g))
      with (drops row + line_sum (map drops g)).
    change (line_sum (rises row :: map rises g))
      with (rises row + line_sum (map rises g)).
    rewrite !wrap_add_l, !Z.add_assoc. reflexivity.
Qed.

Lemma grid_trend_spec (g : grid) :
  grid_trend g =
    (Int64.wrap (line_sum (map drops g)), Int64.wrap (line_sum (map rises g))).
Proof.
  unfold grid_trend. rewrite grid_trend_fold by apply in_range_0. reflexivity.
Qed.

Lemma drops_snoc l a b :
  drops (l ++ [a; b]) = drops (l ++ [a]) + (if b <? a then a - b else 0).
Proof.
  induction l as [|x l IH]; [cbn; lia|].
  destruct l as [|y l'].
  - cbn. lia.
  - change (drops ((x :: y :: l') ++ [a; b]))
      with ((if y <? x then x - y else 0) + drops ((y :: l') ++ [a; b])).
    change (drops ((x :: y :: l') ++ [a]))
      with ((if y <? x then x - y else 0) + drops ((y :: l') ++ [a])).
    rewrite IH. lia.
Qed.

Lemma rises_snoc l a b :
  rises (l ++ [a; b]) = rises (l ++ [a]) + (if b <? a then 0 else b - a).
Proof.
  induction l as [|x l IH]; [cbn; lia|].
  destruct l as [|y l'].
  - cbn. lia.
  - change (rises ((x :: y :: l') ++ [a; b]))
      with ((if y <? x then 0 else y - x) + rises ((y :: l') ++ [a; b])).
    change (rises ((x :: y :: l') ++ [a]))
      with ((if y <? x then 0 else y - x) + rises ((y :: l') ++ [a])).
    rewrite IH. lia.
Qed.

Lemma trend_rev line :
  drops (rev line) = rises line /\ rises (rev line) = drops line.
Proof.
  induction line as [|a tl IH]; [split; reflexivity|].
  destruct tl as [|b tl'].
  - split; reflexivity.
  - change (rev (a :: b :: tl')) with ((rev tl' ++ [b]) ++ [a]).
    rewrite <- app_assoc. cbn [app].
    rewrite drops_snoc, rises_snoc.
    change (rev tl' ++ [b]) with (rev (b :: tl')).
    destruct IH as [-> ->].
    change (drops (a :: b :: tl'))
      with ((if b <? a then a - b else 0) + drops (b :: tl')).
    change (rises (a :: b :: tl'))
      with ((if b <? a then 0 else b - a) + rises (b :: tl')).
    destruct (Z.ltb_spec b a), (Z.ltb_spec a b); split; lia.
Qed.

Lemma grid_trend_mirror (g : grid) :
  grid_trend (map (@rev Z) g) = (snd (grid_trend g), fst (grid_trend g)).
Proof.
  rewrite !grid_trend_spec, !map_map. cbn [fst snd].
  rewrite (map_ext (fun row => drops (rev row)) rises)
    by (intros row; apply trend_rev).
  rewrite (map_ext (fun row => rises (rev row)) drops)
    by (intros row; apply trend_rev).
  reflexivity.
Qed.

Lemma grid_trend_rev (g : grid) : grid_trend (rev g) = grid_trend g.
Proof.
  rewrite !grid_trend_spec, !map_rev, !line_sum_rev. reflexivity.
Qed.

Lemma square_rev n (g : grid) : square n g -> square n (rev g).
Proof.
  intros [Hlen Hrows]. split; [rewrite length_rev; exact Hlen|].
  apply List.Forall_forall. intros row Hrow. apply in_rev in Hrow.
  rewrite List.Forall_forall in Hrows. apply Hrows, Hrow.
Qed.

Lemma square_mirror n (g : grid) : square n g -> square n (map (@rev Z) g).
Proof.
  intros [Hlen Hrows]. split; [rewrite length_map; exact Hlen|].
  apply List.Forall_forall. intros row' Hrow.
  apply in_map_iff in Hrow as (row & <- & Hrow). rewrite length_rev.
  rewrite List.Forall_forall in Hrows. apply Hrows, Hrow.
Qed.

Lemma transpose_rev n (g : grid) :
  square n g -> transpose (rev g) = map (@rev Z) (transpose g).
Proof.
  intros Hsq. unfold transpose.
  rewrite (square_ncols _ _ Hsq), (square_ncols _ _ (square_rev _ _ Hsq)).
  rewrite map_map. apply map_ext. intros j. apply map_rev.
Qed.

Lemma mirror_by_transpose n (g : grid) :
  square n g -> map (@rev Z) g = transpose (rev (transpose g)).
Proof.
  intros Hsq.
  rewrite (transpose_rev n) by (apply square_transpose, Hsq).
  rewrite (transpose_involutive n) by exact Hsq. reflexivity.
Qed.

Lemma monotonicity_transpose n (g : grid) :
  square n g -> _monotonicity (transpose g) = _monotonicity g.
Proof.
  intros Hsq. unfold _monotonicity.
  rewrite (transpose_involutive n) by exact Hsq.
  destruct (grid_trend g) as [t0 t1], (grid_trend (transpose g)) as [t2 t3].
  unfold Int64.add. f_equal. lia.
Qed.

Lemma monotonicity_rev n (g : grid) :
  square n g -> _monotonicity (rev g) = _monotonicity g.
Proof.
  intros Hsq. unfold _monotonicity.
  rewrite grid_trend_rev, (transpose_rev n) by exact Hsq.
  rewrite grid_trend_mirror.
  destruct (grid_trend g) as [t0 t1], (grid_trend (transpose g)) as [t2 t3].
  cbn [fst snd]. rewrite (Z.max_comm t3 t2). reflexivity.
Qed.

(** X17.  [_monotonicity] does not tell the sides of the board apart.  Its value
    is the same on a grid, on its transpose, on its mirror image (every row
    reversed) and on the grid turned upside down (the rows in reverse order);
    hence on all eight images of the grid under the symmetries of the square. *)
Theorem monotonicity_symmetric (n : nat) (g : grid) :
  square n g ->
  _monotonicity (transpose g) = _monotonicity g /\
  _monotonicity (map (@rev Z) g) = _monotonicity g /\
  _monotonicity (rev g) = _monotonicity g.
Proof.
  intros Hsq. split; [apply (monotonicity_transpose n), Hsq|].
  split; [|apply (monotonicity_rev n), Hsq].
  rewrite (mirror_by_transpose n) by exact Hsq.
  rewrite (monotonicity_transpose n)
    by (apply square_rev, square_transpose, Hsq).
  rewrite (monotonicity_rev n) by (apply square_transpose, Hsq).
  apply (monotonicity_transpose n), Hsq.
Qed.

Lemma monotonicity_symmetric_witness :
  let g := [[2; 4; 8; 16]; [0; 4; 2; 8]; [8; 0; 4; 2]; [16; 8; 2; 0]] in
  _monotonicity (transpose g) = _monotonicity g /\
  _monotonicity (map (@rev Z) g) = _monotonicity g /\
  _monotonicity (rev g) = _monotonicity g.
Proof.
  intros g. apply (monotonicity_symmetric 4 g). wf_by_computation.
Defined.

(** ** One move seen through the symmetries of the board *)

Lemma flatten_rev (g : grid) : flatten (rev g) ≡ₚ flatten g.
Proof.
  induction g as [|row g IH]; [reflexivity|].
  unfold flatten in *. cbn [rev concat]. rewrite concat_app, IH. cbn [concat].
  rewrite app_nil_r. apply Permutation_app_comm.
Qed.

Lemma slide_mirror line : slide false (rev line) = rev (slide true line).
Proof. unfold slide. rewrite rev_involutive. reflexivity. Qed.

Lemma slide_score_mirror line : slide_score false (rev line) = slide_score true line.
Proof. reflexivity. Qed.

Lemma fold_left_map {A B C : Type} (f : A -> C -> A) (h : B -> C) l a :
  fold_left f (map h l) a = fold_left (fun a b => f a (h b)) l a.
Proof. revert a. induction l as [|b l IH]; intros a; [reflexivity|apply IH]. Qed.

Lemma resolved_score_mirror (g : grid) :
  resolved_score "left" (map (@rev Z) g) = resolved_score "right" g.
Proof.
  unfold resolved_score.
  change (str_in "left" ["up"; "down"]%string) with false.
  change (str_in "left" ["right"; "down"]%string) with false.
  change (str_in "right" ["up"; "down"]%string) with false.
  change (str_in "right" ["right"; "down"]%string) with true.
  cbv iota. rewrite fold_left_map. reflexivity.
Qed.

Lemma resolved_grid_mirror (g : grid) :
  resolved_grid "left" (map (@rev Z) g) = map (@rev Z) (resolved_grid "right" g).
Proof.
  rewrite resolved_grid_left, resolved_grid_right, !map_map.
  apply map_ext. intros row. apply slide_mirror.
Qed.

Lemma resolved_grid_transposed n (g : grid) :
  square n g ->
  resolved_grid "left" (transpose g) = transpose (resolved_grid "up" g).
Proof.
  intros Hsq. rewrite resolved_grid_left, resolved_grid_up.
  rewrite (transpose_involutive n)
    by (apply square_map_slide, square_transpose, Hsq).
  reflexivity.
Qed.

Lemma resolved_score_transposed (g : grid) :
  resolved_score "left" (transpose g) = resolved_score "up" g.
Proof. reflexivity. Qed.

Lemma transpose_mirror n (g : grid) :
  square n g -> transpose (map (@rev Z) g) = rev (transpose g).
Proof.
  intros Hsq. rewrite (mirror_by_transpose n) by exact Hsq.
  apply (transpose_involutive n), square_rev, square_transpose, Hsq.
Qed.

Lemma resolved_grid_flipped n (g : grid) :
  square n g -> resolved_grid "up" (rev g) = rev (resolved_grid "down" g).
Proof.
  intros Hsq. rewrite resolved_grid_up, resolved_grid_down.
  rewrite (transpose_rev n), map_map by exact Hsq.
  rewrite (map_ext (fun row => slide false (rev row))
                   (fun row => rev (slide true row)))
    by (intros row; apply slide_mirror).
  rewrite <- (map_map (slide true) (@rev Z)).
  apply (transpose_mirror n), square_map_slide, square_transpose, Hsq.
Qed.

Lemma resolved_score_flipped n (g : grid) :
  square n g -> resolved_score "up" (rev g) = resolved_score "down" g.
Proof.
  intros Hsq. unfold resolved_score.
  change (str_in "up" ["up"; "down"]%string) with true.
  change (str_in "up" ["right"; "down"]%string) with false.
  change (str_in "down" ["up"; "down"]%string) with true.
  change (str_in "down" ["right"; "down"]%string) with true.
  cbv iota. rewrite (transpose_rev n) by exact Hsq.
  rewrite fold_left_map. reflexivity.
Qed.

Lemma valid_up : valid_direction "up".
Proof. unfold valid_direction, directions. cbn. tauto. Qed.

Lemma valid_down : valid_direction "down".
Proof. unfold valid_direction, directions. cbn. tauto. Qed.

Lemma valid_right : valid_direction "right".
Proof. unfold valid_direction, directions. cbn. tauto. Qed.

(** A move on the image of a board under a symmetry, from the matching
    move on the board. *)
Lemma move_conjugate (image : grid -> grid) (d1 d2 : string) (self : Board) :
  wf_board self -> valid_direction d1 -> valid_direction d2 ->
  square (size self) (image (_grid self)) ->
  (image (resolved_grid d2 (_grid self)) = image (_grid self) ->
   resolved_grid d2 (_grid self) = _grid self) ->
  flatten (image (resolved_grid d2 (_grid self)))
    ≡ₚ flatten (resolved_grid d2 (_grid self)) ->
  resolved_grid d1 (image (_grid self)) = image (resolved_grid d2 (_grid self)) ->
  resolved_score d1 (image (_grid self)) = resolved_score d2 (_grid self) ->
  move d1 (with_grid self (image (_grid self))) =
    ('(r, b) ← move d2 self; Ok (r, with_grid b (image (_grid b)))).
Proof.
  intros Hwf Hd1 Hd2 Hsq Hinj Hperm Hgrid Hscore.
  rewrite (move_spec d1 (with_grid self (image (_grid self))) Hsq Hd1).
  rewrite (move_spec d2 self Hwf Hd2).
  cbn [_grid with_grid]. rewrite Hgrid, Hscore.
  destruct (decide (resolved_grid d2 (_grid self) = _grid self)) as [Heq|Hne].
  - rewrite decide_True by (rewrite Heq; reflexivity). reflexivity.
  - rewrite decide_False by (intros H; apply Hne, Hinj, H).
    cbn. unfold commit, with_grid. cbn.
    rewrite (max_of_perm _ _ Hperm). reflexivity.
Qed.

(** X6.  Every move is the move to the left, seen through a symmetry of the
    board.  Moving left on the mirror image of a board gives the mirror image of
    what moving right gives on the board itself, with the same answer, score,
    high tile and flags; likewise for left on the transposed board and up, and
    for up on the board turned upside down and down. *)
Theorem move_by_symmetry (self : Board) :
  wf_board self ->
  move "left" (with_grid self (map (@rev Z) (_grid self))) =
    ('(r, b) ← move "right" self;
     Ok (r, with_grid b (map (@rev Z) (_grid b)))) /\
  move "left" (with_grid self (transpose (_grid self))) =
    ('(r, b) ← move "up" self; Ok (r, with_grid b (transpose (_grid b)))) /\
  move "up" (with_grid self (rev (_grid self))) =
    ('(r, b) ← move "down" self; Ok (r, with_grid b (rev (_grid b)))).
Proof.
  intros Hwf. split; [|split].
  - apply (move_conjugate (map (@rev Z))); try assumption.
    + apply left_is_valid.
    + apply valid_right.
    + apply square_mirror, Hwf.
    + intros H. apply (f_equal (map (@rev Z))) in H.
      rewrite !map_map in H.
      rewrite !(map_ext (fun x => rev (rev x)) (fun x => x)) in H
        by (intros; apply rev_involutive).
      rewrite !List.map_id in H. exact H.
    + apply flatten_map_rev.
    + apply resolved_grid_mirror.
    + apply resolved_score_mirror.
  - apply (move_conjugate transpose); try assumption.
    + apply left_is_valid.
    + apply valid_up.
    + apply square_transpose, Hwf.
    + intros H. apply (f_equal transpose) in H.
      rewrite !(transpose_involutive (size self)) in H;
        [exact H|exact Hwf|apply square_resolved, Hwf].
    + apply (flatten_transpose (size self)), square_resolved, Hwf.
    + apply (resolved_grid_transposed (size self)), Hwf.
    + apply resolved_score_transposed.
  - apply (move_conjugate (@rev (list Z))); try assumption.
    + apply valid_up.
    + apply valid_down.
    + apply square_rev, Hwf.
    + intros H. apply (f_equal (@rev (list Z))) in H.
      rewrite !rev_involutive in H. exact H.
    + apply flatten_rev.
    + apply (resolved_grid_flipped (size self)), Hwf.
    + apply (resolved_score_flipped (size self)), Hwf.
Qed.

Lemma move_by_symmetry_witness :
  let b := board_of 4 [[2; 2; 4; 4]; [0; 8; 0; 8]; [2; 0; 2; 2]; [16; 0; 0; 0]] in
  move "left" (with_grid b (map (@rev Z) (_grid b))) =
    ('(r, b') ← move "right" b;
     Ok (r, with_grid b' (map (@rev Z) (_grid b')))) /\
  move "left" (with_grid b (transpose (_grid b))) =
    ('(r, b') ← move "up" b; Ok (r, with_grid b' (transpose (_grid b')))) /\
  move "up" (with_grid b (rev (_grid b))) =
    ('(r, b') ← move "down" b; Ok (r, with_grid b' (rev (_grid b')))).
Proof.
  intros b. apply (move_by_symmetry b). wf_by_computation.
Defined.

(** ** The symmetries of the other integer terms of the evaluator *)

Lemma empty_tiles_perm (g g' : grid) :
  flatten g ≡ₚ flatten g' -> empty_tiles g = empty_tiles g'.
Proof.
  intros Hp. unfold empty_tiles. f_equal.
  generalize dependent (flatten g'). generalize (flatten g).
  induction 1 as [|x l1 l2 H IH|x y l|l1 l2 l3 H1 IH1 H2 IH2].
  - reflexivity.
  - cbn [List.filter]. destruct (0 =? x); cbn [length]; congruence.
  - cbn [List.filter]. destruct (0 =? x), (0 =? y); reflexivity.
  - congruence.
Qed.

Lemma cell_transpose n (g : grid) i j :
  square n g -> (i < n)%nat -> (j < n)%nat ->
  cell (transpose g) i j = cell g j i.
Proof.
  intros Hsq Hi Hj. unfold cell, transpose.
  rewrite (square_ncols _ _ Hsq).
  rewrite nth_map_seq_grid by exact Hi. apply nth_column.
Qed.

Lemma cell_rev n (g : grid) i j :
  square n g -> (i < n)%nat -> cell (rev g) i j = cell g (n - S i) j.
Proof.
  intros [Hlen _] Hi. unfold cell.
  rewrite rev_nth by lia. rewrite Hlen. reflexivity.
Qed.

Lemma max_in_corner_transpose n (g : grid) :
  square n g -> max_in_corner (transpose g) = max_in_corner g.
Proof.
  intros Hsq. destruct n as [|n].
  - apply square_0 in Hsq. subst g. reflexivity.
  - pose proof (square_transpose _ _ Hsq) as Hsq'.
    unfold max_in_corner, corners.
    rewrite (max_of_perm _ _ (flatten_transpose _ _ Hsq)).
    rewrite (square_ncols _ _ Hsq), (square_ncols _ _ Hsq').
    rewrite (proj1 Hsq), (proj1 Hsq').
    rewrite !(cell_transpose (S n) g) by (try assumption; lia).
    cbn [existsb].
    destruct (max_of (flatten g) =? cell g 0 0),
      (max_of (flatten g) =? cell g (S n - 1) 0),
      (max_of (flatten g) =? cell g 0 (S n - 1)),
      (max_of (flatten g) =? cell g (S n - 1) (S n - 1)); reflexivity.
Qed.

Lemma max_in_corner_rev n (g : grid) :
  square n g -> max_in_corner (rev g) = max_in_corner g.
Proof.
  intros Hsq. destruct n as [|n].
  - apply square_0 in Hsq. subst g. reflexivity.
  - pose proof (square_rev _ _ Hsq) as Hsq'.
    unfold max_in_corner, corners.
    rewrite (max_of_perm _ _ (flatten_rev g)).
    rewrite (square_ncols _ _ Hsq), (square_ncols _ _ Hsq').
    rewrite (proj1 Hsq), (proj1 Hsq').
    rewrite !(cell_rev (S n) g) by (try assumption; lia).
    replace (S n - S (S n - 1))%nat with 0%nat by lia.
    replace (S n - 1)%nat with n by lia.
    replace (S n - 1)%nat with n by lia.
    cbn [existsb].
    destruct (max_of (flatten g) =? cell g 0 0),
      (max_of (flatten g) =? cell g n 0),
      (max_of (flatten g) =? cell g 0 n),
      (max_of (flatten g) =? cell g n n); reflexivity.
Qed.

(** X19.  The other integer terms of the evaluator do not tell the sides of the
    board apart either.  The number of empty cells, the test whether the largest
    tile sits in a corner, and with it the corner bonus, are the same on a
    square grid, on its transpose, on its mirror image and on the grid turned
    upside down. *)
Theorem evaluator_terms_symmetric (n : nat) (g : grid) :
  square n g ->
  Forall (fun image : grid =>
            empty_tiles image = empty_tiles g /\
            max_in_corner image = max_in_corner g /\
            _max_tile_corner_bonus image = _max_tile_corner_bonus g)
         [transpose g; map (@rev Z) g; rev g].
Proof.
  intros Hsq.
  assert (Hbonus : forall image : grid,
             max_in_corner image = max_in_corner g ->
             _max_tile_corner_bonus image = _max_tile_corner_bonus g).
  { intros image H. unfold _max_tile_corner_bonus. rewrite H. reflexivity. }
  assert (Hmirror : max_in_corner (map (@rev Z) g) = max_in_corner g).
  { rewrite (mirror_by_transpose n) by exact Hsq.
    rewrite (max_in_corner_transpose n)
      by (apply square_rev, square_transpose, Hsq).
    rewrite (max_in_corner_rev n) by (apply square_transpose, Hsq).
    apply (max_in_corner_transpose n), Hsq. }
  repeat constructor.
  - apply empty_tiles_perm, (flatten_transpose n), Hsq.
  - apply (max_in_corner_transpose n), Hsq.
  - apply Hbonus, (max_in_corner_transpose n), Hsq.
  - apply empty_tiles_perm, flatten_map_rev.
  - exact Hmirror.
  - apply Hbonus, Hmirror.
  - apply empty_tiles_perm, flatten_rev.
  - apply (max_in_corner_rev n), Hsq.
  - apply Hbonus, (max_in_corner_rev n), Hsq.
Qed.

Lemma evaluator_terms_symmetric_witness :
  let g := [[2; 4; 8; 16]; [0; 4; 2; 8]; [8; 0; 4; 2]; [16; 8; 2; 0]] in
  Forall (fun image : grid =>
            empty_tiles image = empty_tiles g /\
            max_in_corner image = max_in_corner g /\
            _max_tile_corner_bonus image = _max_tile_corner_bonus g)
         [transpose g; map (@rev Z) g; rev g].
Proof.
  intros g. apply (evaluator_terms_symmetric 4 g). wf_by_computation.
Defined.

(** ** A whole game *)

Lemma move_tiles direction self r self' :
  wf_board self ->
  Forall (Forall is_tile) (_grid self) ->
  grid_sum (_grid self) <= Int64.max_signed ->
  move direction self = Ok (r, self') ->
  Forall (Forall is_tile) (_grid self').
Proof.
  intros Hwf Htiles Hsum Hmove.
  destruct (move_grid _ _ _ _ Hwf Hmove) as [->| ->]; [exact Htiles|].
  apply (resolved_tiles (size self)); assumption.
Qed.

Lemma move_sum direction self r self' :
  wf_board self ->
  Forall (Forall is_tile) (_grid self) ->
  grid_sum (_grid self) <= Int64.max_signed ->
  move direction self = Ok (r, self') ->
  grid_sum (_grid self') = grid_sum (_grid self).
Proof.
  intros Hwf Htiles Hsum Hmove.
  pose proof (tiles_nonneg _ Htiles) as Hnn.
  destruct (move_grid _ _ _ _ Hwf Hmove) as [->| ->]; [reflexivity|].
  apply (resolved_grid_sum_exact (size self)); assumption.
Qed.

Lemma spawned_wf board r board' :
  wf_board board -> spawned board (r, board') -> wf_board board'.
Proof.
  intros Hwf Hsp.
  destruct (spawned_facts _ _ _ Hwf Hsp)
    as [(_ & _ & ->)
       |(_ & _ & row & col & value & line & Hline & Hc & _ & _ & ->)];
    [exact Hwf|].
  pose proof (lookup_lt_Some _ _ _ Hline) as Hrow.
  destruct Hwf as [Hlen Hrows].
  pose proof (Forall_lookup_1 _ _ _ _ Hrows Hline) as Hll. cbn beta in Hll.
  destruct (place_returns board row col value (conj Hlen Hrows))
    as (g' & Hset & _ & Hwf'); [lia|lia|].
  rewrite (set_cell_ok _ _ _ _ _ Hline Hc) in Hset.
  injection Hset as <-. exact Hwf'.
Qed.

Lemma spawned_tiles board r board' :
  wf_board board -> spawned board (r, board') ->
  Forall (Forall is_tile) (_grid board) ->
  size board' = size board /\
  _game_over board' = _game_over board /\
  Forall (Forall is_tile) (_grid board') /\
  grid_sum (_grid board) <= grid_sum (_grid board') <= grid_sum (_grid board) + 4.
Proof.
  intros Hwf Hsp Htiles.
  destruct (spawned_facts _ _ _ Hwf Hsp)
    as [(_ & _ & ->)
       |(_ & _ & row & col & value & line & Hline & Hc & Hz & Hvalue & ->)].
  - split; [reflexivity|]. split; [reflexivity|]. split; [exact Htiles|]. lia.
  - cbn [_grid with_grid size _game_over].
    split; [reflexivity|]. split; [reflexivity|]. split.
    + apply Forall_insert; [exact Htiles|].
      apply Forall_insert; [exact (Forall_lookup_1 _ _ _ _ Htiles Hline)|].
      apply is_tile_2_4, Hvalue.
    + rewrite (grid_sum_insert _ _ _ _ Hline), (line_sum_insert _ _ _ Hc), Hz.
      destruct Hvalue; lia.
Qed.

Lemma move_game_over direction self r self' :
  move direction self = Ok (r, self') -> _game_over self' = _game_over self.
Proof.
  unfold move. intros Hmove.
  destruct (negb _); [injection Hmove as _ <-; reflexivity|].
  destruct (move_loop _ _ _ _ _ _) as [[new_grid gained]|e]; [|discriminate].
  destruct (decide _); [injection Hmove as _ <-; reflexivity|].
  destruct (np_max _); [|discriminate].
  injection Hmove as _ <-. reflexivity.
Qed.

Section TurnsFacts.

Context {F : Type} {arith : Arith F} {inf : NegInf F}.
Context {rng : Type} {random : RandomSource rng} {random_ok : RandomSourceOk rng}.

(** X10.  A game keeps its tiles in shape.  Start from a well-formed board whose
    cells are empty or powers of two, with room in an [int64] for four more per
    turn.  Then any sequence of turns returns, whatever the random draws, and
    the board it ends on is well formed, of the same size, holds only empty
    cells and powers of two, and the sum of its cells has grown by at most 4 per
    turn and never shrunk.  The turns never raise the game-over flag: that is
    left to the caller, through [end_game]. *)
Theorem turns_keep_tiles (asked : list string) (board : Board) (s : rng) :
  wf_board board ->
  Forall (Forall is_tile) (_grid board) ->
  grid_sum (_grid board) + 4 * Z.of_nat (length asked) <= Int64.max_signed ->
  exists board' s',
    turns asked board s = Ok (board', s') /\
    wf_board board' /\ size board' = size board /\
    _game_over board' = _game_over board /\
    Forall (Forall is_tile) (_grid board') /\
    grid_sum (_grid board) <= grid_sum (_grid board')
      <= grid_sum (_grid board) + 4 * Z.of_nat (length asked).
Proof.
  revert board s. induction asked as [|direction rest IH];
    intros board s Hwf Htiles Hsum.
  - exists board, s. cbn [length] in *. split; [reflexivity|].
    split; [exact Hwf|]. split; [reflexivity|]. split; [reflexivity|].
    split; [exact Htiles|]. lia.
  - cbn [length] in Hsum. cbn [turns].
    destruct (move_returns direction board Hwf) as (r & b1 & Hmove & Hwf1 & Hsize1).
    assert (Hfit : grid_sum (_grid board) <= Int64.max_signed) by lia.
    pose proof (move_tiles _ _ _ _ Hwf Htiles Hfit Hmove) as Htiles1.
    pose proof (move_sum _ _ _ _ Hwf Htiles Hfit Hmove) as Hsum1.
    pose proof (move_game_over _ _ _ _ Hmove) as Hflag1.
    unfold mbind at 1. unfold M_bind at 1. unfold lift at 1. rewrite Hmove.
    destruct r.
    + destruct (spawn_tile_run (ai_spawner b1) b1 s Hwf1)
        as (r2 & b2 & s2 & Hspawn & Hsp).
      pose proof (spawned_wf _ _ _ Hwf1 Hsp) as Hwf2.
      destruct (spawned_tiles _ _ _ Hwf1 Hsp Htiles1) as (Hsize2 & Hflag2 & Htiles2 & Hsum2).
      unfold mbind at 1. unfold M_bind at 1.
      unfold spawn_random_tile. rewrite Hspawn.
      destruct (IH b2 s2 Hwf2 Htiles2 ltac:(lia))
        as (b' & s' & Hrun & Hwf' & Hsize' & Hflag' & Htiles' & Hsum').
      exists b', s'. split; [exact Hrun|]. split; [exact Hwf'|].
      split; [congruence|]. split; [congruence|]. split; [exact Htiles'|].
      cbn [length]. lia.
    + destruct (IH b1 s Hwf1 Htiles1 ltac:(lia))
        as (b' & s' & Hrun & Hwf' & Hsize' & Hflag' & Htiles' & Hsum').
      exists b', s'. split; [exact Hrun|]. split; [exact Hwf'|].
      split; [congruence|]. split; [congruence|]. split; [exact Htiles'|].
      cbn [length]. lia.
Qed.

End TurnsFacts.

Lemma turns_keep_tiles_witness :
  let b := board_of 4 [[2; 2; 4; 4]; [0; 8; 0; 8]; [2; 0; 2; 2]; [16; 0; 0; 0]] in
  let asked := ["left"; "up"; "sideways"; "right"; "down"]%string in
  exists board' s',
    @turns _ example_arith binary64_neg_inf _ counter_source asked b 0%nat
      = Ok (board', s') /\
    wf_board board' /\ size board' = 4%nat /\
    _game_over board' = false /\
    Forall (Forall is_tile) (_grid board') /\
    grid_sum (_grid b) <= grid_sum (_grid board') <= grid_sum (_grid b) + 20.
Proof.
  intros b asked.
  apply (@turns_keep_tiles _ example_arith binary64_neg_inf _ counter_source
           counter_source_ok asked b 0%nat).
  - wf_by_computation.
  - unfold b, board_of; cbn [_grid]. tiles_by_computation.
  - vm_compute. discriminate.
Defined.

(** ** The colours of the tiles *)

(** X18.  The legacy colour function against the current ones.  For every value
    above 4, [get_rgb] returns the background of [get_tile_color] and the text
    colour of [get_tile_text_color].  Its own table is one tile behind at 2 and
    4: a 2 gets the background of the empty cell, a 4 that of the 2.  On every
    other value the backgrounds agree, 0 apart, and the text colours part on the
    values up to 4 other than 2 and 4, which the legacy function prints in the
    dark colour. *)
Theorem legacy_colours (val : Z) :
  (4 < val -> get_rgb val = (get_tile_color val, get_tile_text_color val)) /\
  (val <> 0 -> val <> 2 -> val <> 4 -> fst (get_rgb val) = get_tile_color val) /\
  (val <= 4 -> val <> 2 -> val <> 4 ->
   snd (get_rgb val) = TILE_TEXT_COLORS_dark /\
   get_tile_text_color val = TILE_TEXT_COLORS_light) /\
  fst (get_rgb 2) = get_tile_color 0 /\
  fst (get_rgb 4) = get_tile_color 2.
Proof.
  assert (Hback : val <> 0 -> val <> 2 -> val <> 4 ->
                  fst (get_rgb val) = get_tile_color val).
  { intros H0 H2 H4. unfold get_rgb, get_tile_color, TILE_COLORS. cbn [fst].
    destruct (decide (val = 8)) as [->|]; [lookup_key; reflexivity|].
    destruct (decide (val = 16)) as [->|]; [lookup_key; reflexivity|].
    destruct (decide (val = 32)) as [->|]; [lookup_key; reflexivity|].
    destruct (decide (val = 64)) as [->|]; [lookup_key; reflexivity|].
    destruct (decide (val = 128)) as [->|]; [lookup_key; reflexivity|].
    destruct (decide (val = 256)) as [->|]; [lookup_key; reflexivity|].
    destruct (decide (val = 512)) as [->|]; [lookup_key; reflexivity|].
    destruct (decide (val = 1024)) as [->|]; [lookup_key; reflexivity|].
    destruct (decide (val = 2048)) as [->|]; [lookup_key; reflexivity|].
    lookup_key. reflexivity. }
  split; [|split; [exact Hback|split; [|split]]].
  - intros Hval. rewrite <- Hback by lia.
    unfold get_rgb, get_tile_text_color. cbn [fst existsb].
    destruct (Z.eqb_spec val 2); [lia|]. destruct (Z.eqb_spec val 4); [lia|].
    destruct (Z.leb_spec val 4); [lia|]. reflexivity.
  - intros Hval H2 H4. unfold get_rgb, get_tile_text_color. cbn [snd existsb].
    destruct (Z.eqb_spec val 2); [lia|]. destruct (Z.eqb_spec val 4); [lia|].
    destruct (Z.leb_spec val 4); [|lia]. split; reflexivity.
  - unfold get_rgb, get_tile_color, TILE_COLORS. cbn [fst].
    lookup_key. reflexivity.
  - unfold get_rgb, get_tile_color, TILE_COLORS. cbn [fst].
    lookup_key. reflexivity.
Qed.

Lemma legacy_colours_witness :
  get_rgb 2048 = (get_tile_color 2048, get_tile_text_color 2048) /\
  fst (get_rgb 3) = get_tile_color 3 /\
  snd (get_rgb 0) = TILE_TEXT_COLORS_dark /\
  get_tile_text_color 0 = TILE_TEXT_COLORS_light.
Proof.
  split; [|split].
  - apply (legacy_colours 2048). lia.
  - apply (legacy_colours 3); lia.
  - apply (legacy_colours 0); lia.
Defined.
